(** * bigfloat: elementary functions over Go's [math/big.Float]

    A shallow embedding of the package [bigfloat] (AGM, Round, Pi and its
    cache, newton, Log, Exp, Pow) together with the part of [math/big] and
    [math] that the package calls.  Go's pointers to [big.Float] live in an
    explicit store, so that destinations aliased to arguments behave as in
    the program. *)

From Stdlib Require Import ZArith Lia Bool String.
From Stdlib Require Import Floats.SpecFloat.
From stdpp Require Import base list.

Local Open Scope Z_scope.

(** ** Panics

    Go panics carry a value; the package distinguishes its own [ErrNaN] from
    [big.ErrNaN] raised by the arithmetic of [math/big]. *)

Inductive panic :=
| ErrNaN (msg : string)        (* bigfloat.ErrNaN{msg} *)
| big_ErrNaN (msg : string)    (* big.ErrNaN{msg} *)
| panic_string (msg : string)  (* panic("...") *)
| nil_dereference.

Inductive res (A : Type) :=
| ok (a : A)
| err (p : panic)
| no_return.                   (* the operation does not return *)
Arguments ok {A} a.
Arguments err {A} p.
Arguments no_return {A}.

Definition res_bind {A B} (r : res A) (k : A -> res B) : res B :=
  match r with
  | ok a => k a
  | err p => err p
  | no_return => no_return
  end.

(** ** math/big.Float, by value *)

Module big.

Inductive RoundingMode :=
| ToNearestEven
| ToNearestAway
| ToZero
| AwayFromZero
| ToNegativeInf
| ToPositiveInf.

Inductive form := zero | finite | inf.

Definition MaxExp : Z := 2147483647.
Definition MinExp : Z := -2147483648.
Definition MaxPrec : Z := 4294967295.

(** A [Float] is [sign * 0.mant * 2^exp].  The mantissa words are read as one
    integer of exactly [prec] bits, most significant bit set, so a finite
    value is [mant * 2^(exp - prec)]; the words Go keeps below the precision
    are zero after every operation.  For [zero] and [inf] the mantissa and
    exponent are unused and kept at 0.  The accuracy field is left out: the
    package never reads it. *)
Record Float := mkFloat {
  prec : Z;
  mode : RoundingMode;
  fform : form;
  neg : bool;
  mant : Z;
  exp : Z
}.

Definition mk_zero (p : Z) (md : RoundingMode) (ng : bool) : Float :=
  mkFloat p md zero ng 0 0.
Definition mk_inf (p : Z) (md : RoundingMode) (ng : bool) : Float :=
  mkFloat p md inf ng 0 0.

(** [new(big.Float)] *)
Definition new : Float := mk_zero 0 ToNearestEven false.

Definition bitlen (m : Z) : Z := Z.log2 m + 1.

(** The increment decision of [Float.round], from the rounding bit, the
    sticky bit and the parity of the truncated mantissa. *)
Definition round_inc (md : RoundingMode) (ng odd rbit sbit : bool) : bool :=
  if rbit || sbit then
    match md with
    | ToNegativeInf => ng
    | ToZero => false
    | ToNearestEven => rbit && (sbit || odd)
    | ToNearestAway => rbit
    | AwayFromZero => true
    | ToPositiveInf => negb ng
    end
  else false.

(** [round]: the magnitude [0.m * 2^x] ([m > 0] of any length, [sb] a sticky
    bit for digits below [m]) rounded to [p] bits. *)
Definition round (p : Z) (md : RoundingMode) (ng : bool) (m x : Z) (sb : bool)
  : Float :=
  let L := bitlen m in
  if L <=? p then mkFloat p md finite ng (m * 2 ^ (p - L)) x
  else
    let s := L - p in
    let q := m / 2 ^ s in
    let r := m mod 2 ^ s in
    let half := 2 ^ (s - 1) in
    let rbit := half <=? r in
    let sbit := sb || negb ((if rbit then r - half else r) =? 0) in
    if round_inc md ng (Z.odd q) rbit sbit then
      if q + 1 =? 2 ^ p then
        if MaxExp <=? x then mk_inf p md ng
        else mkFloat p md finite ng (2 ^ (p - 1)) (x + 1)
      else mkFloat p md finite ng (q + 1) x
    else mkFloat p md finite ng q x.

Definition setExpAndRound (p : Z) (md : RoundingMode) (ng : bool)
  (m x : Z) (sb : bool) : Float :=
  if x <? MinExp then mk_zero p md ng
  else if MaxExp <? x then mk_inf p md ng
  else round p md ng m x sb.

(** The magnitude [m * 2^l] with [m >= 0], rounded; an exact zero keeps the
    sign it is given. *)
Definition of_int (p : Z) (md : RoundingMode) (ng : bool) (m l : Z) (sb : bool)
  : Float :=
  if m =? 0 then mk_zero p md ng
  else setExpAndRound p md ng m (l + bitlen m) sb.

(** exponent of the least significant mantissa bit *)
Definition lsb_exp (x : Float) : Z := exp x - prec x.

Definition Prec (x : Float) : Z := prec x.
Definition Mode (x : Float) : RoundingMode := mode x.

Definition Sign (x : Float) : Z :=
  match fform x with
  | zero => 0
  | _ => if neg x then -1 else 1
  end.

Definition Signbit (x : Float) : bool := neg x.

Definition IsInf (x : Float) : bool :=
  match fform x with inf => true | _ => false end.

(** number of mantissa bits up to the lowest set bit *)
Fixpoint ctz_pos (m : positive) : Z :=
  match m with
  | xO m' => 1 + ctz_pos m'
  | _ => 0
  end.

Definition MinPrec (x : Float) : Z :=
  match fform x, mant x with
  | finite, Zpos m => prec x - ctz_pos m
  | _, _ => 0
  end.

Definition IsInt (x : Float) : bool :=
  match fform x with
  | zero => true
  | inf => false
  | finite =>
      if exp x <=? 0 then false
      else (prec x <=? exp x) || (MinPrec x <=? exp x)
  end.

Definition SetPrec (z : Float) (p : Z) : Float :=
  if p =? 0 then
    match fform z with
    | finite => mk_zero 0 (mode z) (neg z)
    | _ => mkFloat 0 (mode z) (fform z) (neg z) 0 0
    end
  else
    let p := if MaxPrec <? p then MaxPrec else p in
    match fform z with
    | finite => round p (mode z) (neg z) (mant z) (exp z) false
    | f => mkFloat p (mode z) f (neg z) 0 0
    end.

Definition SetMode (z : Float) (md : RoundingMode) : Float :=
  mkFloat (prec z) md (fform z) (neg z) (mant z) (exp z).

(** [z.Set(x)]: [z] keeps its mode and, unless it is 0, its precision. *)
Definition Set_ (z x : Float) : Float :=
  let p := if prec z =? 0 then prec x else prec z in
  match fform x with
  | finite => round p (mode z) (neg x) (mant x) (exp x) false
  | f => mkFloat p (mode z) f (neg x) 0 0
  end.

Definition Copy (z x : Float) : Float := x.

Definition SetInf (z : Float) (signbit : bool) : Float :=
  mk_inf (prec z) (mode z) signbit.

Definition Neg (z x : Float) : Float :=
  let r := Set_ z x in
  mkFloat (prec r) (mode r) (fform r) (negb (neg r)) (mant r) (exp r).

Definition ord (x : Float) : Z :=
  match fform x with
  | finite => if neg x then -1 else 1
  | zero => 0
  | inf => if neg x then -2 else 2
  end.

(** compares the magnitudes of two finite values *)
Definition ucmp (x y : Float) : Z :=
  if exp x <? exp y then -1
  else if exp y <? exp x then 1
  else
    let mx := mant x * 2 ^ prec y in
    let my := mant y * 2 ^ prec x in
    if mx <? my then -1 else if my <? mx then 1 else 0.

Definition Cmp (x y : Float) : Z :=
  let mx := ord x in
  let my := ord y in
  if mx <? my then -1
  else if my <? mx then 1
  else if mx =? -1 then ucmp y x
  else if mx =? 1 then ucmp x y
  else 0.

Definition MantExp_exp (x : Float) : Z :=
  match fform x with finite => exp x | _ => 0 end.

Definition MantExp_mant (x : Float) : Float :=
  match fform x with
  | finite => mkFloat (prec x) (mode x) finite (neg x) (mant x) 0
  | _ => x
  end.

Definition SetMantExp (z m : Float) (e : Z) : Float :=
  let r := Set_ z m in
  match fform r with
  | finite => setExpAndRound (prec r) (mode r) (neg r) (mant r) (exp r + e) false
  | _ => r
  end.

Definition umax (a b : Z) : Z := if a <? b then b else a.

Definition zprec (z x y : Float) : Z :=
  if prec z =? 0 then umax (prec x) (prec y) else prec z.

(** [uadd], [usub], [umul], [uquo]: the exact result of the operation on the
    magnitudes, rounded once to the destination. *)
Definition uadd (p : Z) (md : RoundingMode) (ng : bool) (x y : Float) : Float :=
  let l := Z.min (lsb_exp x) (lsb_exp y) in
  of_int p md ng
    (mant x * 2 ^ (lsb_exp x - l) + mant y * 2 ^ (lsb_exp y - l)) l false.

Definition usub (p : Z) (md : RoundingMode) (ng : bool) (x y : Float) : Float :=
  let l := Z.min (lsb_exp x) (lsb_exp y) in
  let d := mant x * 2 ^ (lsb_exp x - l) - mant y * 2 ^ (lsb_exp y - l) in
  if d =? 0 then mk_zero p md (match md with ToNegativeInf => true | _ => false end)
  else setExpAndRound p md ng d (l + bitlen d) false.

Definition umul (p : Z) (md : RoundingMode) (ng : bool) (x y : Float) : Float :=
  of_int p md ng (mant x * mant y) (lsb_exp x + lsb_exp y) false.

Definition uquo (p : Z) (md : RoundingMode) (ng : bool) (x y : Float) : Float :=
  let k := Z.max 0 (p + 1 + bitlen (mant y) - bitlen (mant x)) in
  let n := mant x * 2 ^ k in
  of_int p md ng (n / mant y) (lsb_exp x - lsb_exp y - k)
    (negb (n mod mant y =? 0)).

Definition Add (z x y : Float) : res Float :=
  let p := zprec z x y in
  let md := mode z in
  match fform x, fform y with
  | finite, finite =>
      if Bool.eqb (neg x) (neg y) then ok (uadd p md (neg x) x y)
      else if 0 <? ucmp x y then ok (usub p md (neg x) x y)
      else ok (usub p md (negb (neg x)) y x)
  | inf, inf =>
      if Bool.eqb (neg x) (neg y) then ok (mk_inf p md (neg x))
      else err (big_ErrNaN "addition of infinities with opposite signs")
  | zero, zero => ok (mk_zero p md (neg x && neg y))
  | inf, _ | _, zero => ok (Set_ (mkFloat p md zero false 0 0) x)
  | _, _ => ok (Set_ (mkFloat p md zero false 0 0) y)
  end.

Definition Sub (z x y : Float) : res Float :=
  let p := zprec z x y in
  let md := mode z in
  match fform x, fform y with
  | finite, finite =>
      if negb (Bool.eqb (neg x) (neg y)) then ok (uadd p md (neg x) x y)
      else if 0 <? ucmp x y then ok (usub p md (neg x) x y)
      else ok (usub p md (negb (neg x)) y x)
  | inf, inf =>
      if negb (Bool.eqb (neg x) (neg y)) then ok (mk_inf p md (neg x))
      else err (big_ErrNaN "subtraction of infinities with equal signs")
  | zero, zero => ok (mk_zero p md (neg x && negb (neg y)))
  | inf, _ | _, zero => ok (Set_ (mkFloat p md zero false 0 0) x)
  | _, _ => ok (Neg (mkFloat p md zero false 0 0) y)
  end.

Definition Mul (z x y : Float) : res Float :=
  let p := zprec z x y in
  let md := mode z in
  let ng := xorb (neg x) (neg y) in
  match fform x, fform y with
  | finite, finite => ok (umul p md ng x y)
  | zero, inf | inf, zero =>
      err (big_ErrNaN "multiplication of zero with infinity")
  | inf, _ | _, inf => ok (mk_inf p md ng)
  | _, _ => ok (mk_zero p md ng)
  end.

Definition Quo (z x y : Float) : res Float :=
  let p := zprec z x y in
  let md := mode z in
  let ng := xorb (neg x) (neg y) in
  match fform x, fform y with
  | finite, finite => ok (uquo p md ng x y)
  | zero, zero | inf, inf =>
      err (big_ErrNaN "division of zero by zero or infinity by infinity")
  | zero, _ | _, inf => ok (mk_zero p md ng)
  | _, _ => ok (mk_inf p md ng)
  end.

End big.

(** ** Package math: binary64 and [math.Exp]

    [float64] values are IEEE binary64, through the Standard Library's
    executable specification ([prec = 53], [emax = 1024]). *)

Module math.

Definition float64 := spec_float.

Definition fadd : float64 -> float64 -> float64 := SFadd 53 1024.
Definition fsub : float64 -> float64 -> float64 := SFsub 53 1024.
Definition fmul : float64 -> float64 -> float64 := SFmul 53 1024.
Definition fdiv : float64 -> float64 -> float64 := SFdiv 53 1024.
Definition flt : float64 -> float64 -> bool := SFltb.

(** [math.Float64frombits] *)
Definition Float64frombits (b : Z) : float64 :=
  let s := 0 <? b / 2 ^ 63 in
  let e := (b / 2 ^ 52) mod 2 ^ 11 in
  let m := b mod 2 ^ 52 in
  if e =? 0 then
    match m with
    | Zpos q => S754_finite s q (-1074)
    | _ => S754_zero s
    end
  else if e =? 2047 then
    (if m =? 0 then S754_infinity s else S754_nan)
  else S754_finite s (Z.to_pos (m + 2 ^ 52)) (e - 1075).

(** [float64(k)] for an integer that fits the mantissa *)
Definition of_int (k : Z) : float64 := binary_normalize 53 1024 k 0 false.

(** [int(x)]: truncation toward zero *)
Definition to_int (x : float64) : Z :=
  match x with
  | S754_finite s m e =>
      let a := if 0 <=? e then Zpos m * 2 ^ e else Zpos m / 2 ^ (- e) in
      if s then - a else a
  | _ => 0
  end.

Definition IsInf (x : float64) (sign : Z) : bool :=
  match x with
  | S754_infinity s => if 0 <? sign then negb s else if sign <? 0 then s else true
  | _ => false
  end.

Definition is_zero (x : float64) : bool :=
  match x with S754_zero _ => true | _ => false end.

Definition Ldexp (frac : float64) (e : Z) : float64 := SFldexp 53 1024 frac e.

(** [math.Sqrt]: the correctly rounded root, as IEEE 754 requires *)
Definition Sqrt : float64 -> float64 := SFsqrt 53 1024.

Definition Ln2Hi := Float64frombits 0x3FE62E42FEE00000.
Definition Ln2Lo := Float64frombits 0x3DEA39EF35793C76.
Definition Log2e := Float64frombits 0x3FF71547652B82FE.
Definition Overflow := Float64frombits 0x40862E42FEFA39EF.
Definition Underflow := Float64frombits 0xC0874910D52D3051.
Definition NearZero := Float64frombits 0x3E30000000000000.
Definition P1 := Float64frombits 0x3FC5555555555555.
Definition P2 := Float64frombits 0xBF66C16C16BEBD93.
Definition P3 := Float64frombits 0x3F11566AAF25DE2C.
Definition P4 := Float64frombits 0xBEBBBD41C5D26BF1.
Definition P5 := Float64frombits 0x3E66376972BEA4D0.
Definition one := of_int 1.
Definition two := of_int 2.
Definition half := Float64frombits 0x3FE0000000000000.

(** [expmulti(hi, lo, k)]: e**r * 2**k for r = hi - lo *)
Definition expmulti (hi lo : float64) (k : Z) : float64 :=
  let r := fsub hi lo in
  let t := fmul r r in
  let c :=
    fsub r (fmul t (fadd P1 (fmul t (fadd P2 (fmul t (fadd P3
      (fmul t (fadd P4 (fmul t P5))))))))) in
  let y := fsub one (fsub (fsub lo (fdiv (fmul r c) (fsub two c))) hi) in
  Ldexp y k.

(** [math.Exp], after the portable implementation of the package: the
    special cases and thresholds, then argument reduction and the
    polynomial.  Every operation is a binary64 operation. *)
Definition Exp (x : float64) : float64 :=
  match x with
  | S754_nan => x
  | S754_infinity false => x
  | S754_infinity true => S754_zero false
  | _ =>
      if flt Overflow x then S754_infinity false
      else if flt x Underflow then S754_zero false
      else if flt (SFopp NearZero) x && flt x NearZero then fadd one x
      else
        let k :=
          if flt x (S754_zero false) then to_int (fsub (fmul Log2e x) half)
          else if flt (S754_zero false) x then to_int (fadd (fmul Log2e x) half)
          else 0 in
        let hi := fsub x (fmul (of_int k) Ln2Hi) in
        let lo := fmul (of_int k) Ln2Lo in
        expmulti hi lo k
  end.

End math.

Module big_conv.
Import big.

(** [x.Float64()], the value only: round to nearest even into binary64, with
    gradual underflow and overflow to an infinity. *)
Definition Float64 (x : Float) : math.float64 :=
  match fform x with
  | zero => S754_zero (neg x)
  | inf => S754_infinity (neg x)
  | finite =>
      let e := exp x - 1 in
      let p := if e <? -1022 then 1075 + e else 53 in
      if (p <? 0) || ((p =? 0) && (mant x =? 2 ^ (prec x - 1))) then
        S754_zero (neg x)
      else if p =? 0 then S754_finite (neg x) 1 (-1074)
      else
        let r := round p ToNearestEven (neg x) (mant x) (exp x) false in
        match fform r with
        | finite =>
            if 1023 <? exp r - 1 then S754_infinity (neg x)
            else
              binary_normalize 53 1024
                (if neg x then - mant r else mant r) (exp r - p) (neg x)
        | _ => S754_infinity (neg x)
        end
  end.

(** [z.SetFloat64(x)] *)
Definition SetFloat64 (z : Float) (x : math.float64) : res Float :=
  let p := if prec z =? 0 then 53 else prec z in
  match x with
  | S754_nan => err (big_ErrNaN "Float.SetFloat64(NaN)")
  | S754_zero s => ok (mk_zero p (mode z) s)
  | S754_infinity s => ok (mk_inf p (mode z) s)
  | S754_finite s m e =>
      ok (round p (mode z) s (Zpos m) (e + bitlen (Zpos m)) false)
  end.

(** The value [num / den] ([num >= 0], [den > 0]) correctly rounded: what
    [Parse] yields for a decimal literal [num / 10^k]. *)
Definition of_ratio (p : Z) (md : RoundingMode) (ng : bool) (num den : Z)
  : Float :=
  let k := Z.max 0 (p + 1 + bitlen den - bitlen num) in
  let n := num * 2 ^ k in
  of_int p md ng (n / den) (- k) (negb (n mod den =? 0)).

(** *** Sqrt

    [z.Sqrt(x)] computes 1/sqrt(x) by Newton's method from a binary64
    estimate, doubling the precision until it exceeds that of z by 32 bits,
    and multiplies by x; only this last product is rounded to z's precision.
    The working values u, v and sqi are new [Float]s, so they round to
    nearest even. *)

(** [three()]: [NewFloat(3.0)] *)
Definition three : Float :=
  mkFloat 53 ToNearestEven finite false (3 * 2 ^ 51) 2.

(** [u.exp--] *)
Definition dec_exp (u : Float) : Float :=
  match fform u with
  | finite => mkFloat (prec u) (mode u) finite (neg u) (mant u) (exp u - 1)
  | _ => u
  end.

(** [ng(t)], the next guess [t(3 - x t^2)/2], computed with [p] bits, the
    precision [t] has just been given *)
Definition ng (x : Float) (p : Z) (t : Float) : res Float :=
  let u := mkFloat p ToNearestEven zero false 0 0 in
  res_bind (Mul u t t) (fun u =>
  res_bind (Mul u x u) (fun u =>
  res_bind (Sub (mkFloat p ToNearestEven zero false 0 0) three u) (fun v =>
  res_bind (Mul u t v) (fun u =>
  ok (Set_ (mkFloat p ToNearestEven zero false 0 0) (dec_exp u)))))).

(** The loop of [sqrtInverse].  The precisions are 32-bit words; a doubling
    that would wrap around (a destination of more than 53 * 2^26 - 32 bits)
    is outside this model, which gives no result for it. *)
Fixpoint sqrtInverse_loop (fuel : nat) (x sqi : Float) (target : Z)
  : res Float :=
  if prec sqi <? target then
    match fuel with
    | O => no_return
    | S fuel' =>
        let p := 2 * prec sqi in
        if 2 ^ 32 <=? p then no_return
        else
          res_bind (ng x p sqi) (fun sqi =>
          sqrtInverse_loop fuel' x sqi target)
    end
  else ok sqi.

(** [z.sqrtInverse(x)] for [z] of precision [p] and mode [md]: the product
    of [x] and the approximation of 1/sqrt(x) *)
Definition sqrtInverse (p : Z) (md : RoundingMode) (x : Float) : res Float :=
  let xf := Float64 x in
  res_bind (SetFloat64 new (math.fdiv math.one (math.Sqrt xf))) (fun sqi =>
  res_bind (sqrtInverse_loop 32 x sqi ((p + 32) mod 2 ^ 32)) (fun sqi =>
  Mul (mkFloat p md zero false 0 0) x sqi)).

(** [z.Sqrt(x)].  [x.MantExp(z)] copies x into z, rounding mode included,
    before the precision of z is put back; the mantissa is scaled into
    [0.25, 2) so that the exponent left over is even. *)
Definition Sqrt (z x : Float) : res Float :=
  let p := if prec z =? 0 then prec x else prec z in
  if Sign x =? -1 then err (big_ErrNaN "square root of negative operand")
  else
    match fform x with
    | finite =>
        let b := exp x in
        let r := Z.rem b 2 in
        let e := if r =? 1 then 1 else if r =? -1 then -1 else 0 in
        let xa := mkFloat (prec x) (mode x) finite (neg x) (mant x) e in
        res_bind (sqrtInverse p (mode x) xa) (fun z =>
        ok (SetMantExp z z (Z.quot b 2)))
    | f => ok (mkFloat p (mode z) f (neg x) 0 0)
    end.

End big_conv.

(** ** The store

    Every [*big.Float] is a location in [cells].  The package state also
    holds the pi cache, an [atomic.Value] that is empty or holds a pointer,
    and the flag [enablePiCache]. *)

Abbreviation loc := nat.

Record state := mkState {
  cells : list big.Float;
  piCache : option loc;
  enablePiCache : bool
}.

Inductive outcome (A : Type) :=
| Ret (a : A) (s : state)
| Panic (p : panic)
| OutOfFuel.
Arguments Ret {A} a s.
Arguments Panic {A} p.
Arguments OutOfFuel {A}.

Definition M (A : Type) := state -> outcome A.

Definition ret {A} (a : A) : M A := fun s => Ret a s.

Definition bind {A B} (m : M A) (k : A -> M B) : M B :=
  fun s =>
    match m s with
    | Ret a s' => k a s'
    | Panic p => Panic p
    | OutOfFuel => OutOfFuel
    end.

Notation "'let*' x ':=' m 'in' k" := (bind m (fun x => k))
  (at level 10, x pattern, m at level 200, k at level 200).

Definition throw {A} (p : panic) : M A := fun _ => Panic p.
Definition out_of_fuel {A} : M A := fun _ => OutOfFuel.

Definition lift {A} (r : res A) : M A :=
  match r with
  | ok a => ret a
  | err p => throw p
  | no_return => out_of_fuel
  end.

Definition load (l : loc) : M big.Float :=
  fun s =>
    match cells s !! l with
    | Some v => Ret v s
    | None => Panic nil_dereference
    end.

(** the store with cell [l] overwritten, and with a new last cell *)
Definition set_cell (s : state) (l : loc) (v : big.Float) : state :=
  mkState (<[l := v]> (cells s)) (piCache s) (enablePiCache s).
Definition push (s : state) (v : big.Float) : state :=
  mkState (cells s ++ [v]) (piCache s) (enablePiCache s).

Definition store (l : loc) (v : big.Float) : M unit :=
  fun s => Ret tt (set_cell s l v).

Definition alloc (v : big.Float) : M loc :=
  fun s => Ret (length (cells s)) (push s v).

(** A read-only argument is a pointer into the store or the address of one
    of the package's global variables, which are never modified. *)
Inductive operand :=
| at_ (l : loc)
| global (v : big.Float).
Coercion at_ : loc >-> operand.

Definition rd (x : operand) : M big.Float :=
  match x with
  | at_ l => load l
  | global v => ret v
  end.

(** *** Methods of [*big.Float] on the store *)

Definition new : M loc := alloc big.new.

Definition get {A} (f : big.Float -> A) (x : operand) : M A :=
  let* v := rd x in ret (f v).

Definition Prec : operand -> M Z := get big.Prec.
Definition Mode : operand -> M big.RoundingMode := get big.Mode.
Definition Sign : operand -> M Z := get big.Sign.
Definition Signbit : operand -> M bool := get big.Signbit.
Definition IsInf : operand -> M bool := get big.IsInf.
Definition IsInt : operand -> M bool := get big.IsInt.
Definition Float64 : operand -> M math.float64 := get big_conv.Float64.

Definition Cmp (x y : operand) : M Z :=
  let* vx := rd x in
  let* vy := rd y in
  ret (big.Cmp vx vy).

(** a method that sets its receiver from the receiver's old value *)
Definition upd (z : loc) (f : big.Float -> res big.Float) : M loc :=
  let* vz := load z in
  let* v := lift (f vz) in
  let* _ := store z v in
  ret z.

Definition SetPrec (z : loc) (p : Z) : M loc :=
  upd z (fun vz => ok (big.SetPrec vz p)).
Definition SetMode (z : loc) (md : big.RoundingMode) : M loc :=
  upd z (fun vz => ok (big.SetMode vz md)).
Definition SetInf (z : loc) (signbit : bool) : M loc :=
  upd z (fun vz => ok (big.SetInf vz signbit)).
Definition SetFloat64 (z : loc) (x : math.float64) : M loc :=
  upd z (fun vz => big_conv.SetFloat64 vz x).

Definition upd1 (z : loc) (x : operand)
  (f : big.Float -> big.Float -> res big.Float) : M loc :=
  let* vx := rd x in
  upd z (fun vz => f vz vx).

Definition Set_ (z : loc) (x : operand) : M loc :=
  upd1 z x (fun vz vx => ok (big.Set_ vz vx)).
Definition Copy (z : loc) (x : operand) : M loc :=
  upd1 z x (fun vz vx => ok (big.Copy vz vx)).
Definition Neg (z : loc) (x : operand) : M loc :=
  upd1 z x (fun vz vx => ok (big.Neg vz vx)).
Definition Sqrt (z : loc) (x : operand) : M loc :=
  upd1 z x big_conv.Sqrt.
Definition SetMantExp (z : loc) (m : operand) (e : Z) : M loc :=
  upd1 z m (fun vz vm => ok (big.SetMantExp vz vm e)).

Definition upd2 (z : loc) (x y : operand)
  (f : big.Float -> big.Float -> big.Float -> res big.Float) : M loc :=
  let* vx := rd x in
  let* vy := rd y in
  upd z (fun vz => f vz vx vy).

Definition Add (z : loc) (x y : operand) : M loc := upd2 z x y big.Add.
Definition Sub (z : loc) (x y : operand) : M loc := upd2 z x y big.Sub.
Definition Mul (z : loc) (x y : operand) : M loc := upd2 z x y big.Mul.
Definition Quo (z : loc) (x y : operand) : M loc := upd2 z x y big.Quo.

(** [x.MantExp(mant)]; [mant] may be nil *)
Definition MantExp (x : operand) (mant : option loc) : M Z :=
  let* vx := rd x in
  let* _ :=
    match mant with
    | Some m => let* _ := store m (big.MantExp_mant vx) in ret tt
    | None => ret tt
    end in
  ret (big.MantExp_exp vx).

(** [big.NewFloat(x)] *)
Definition NewFloat (x : math.float64) : M loc :=
  match x with
  | S754_nan => throw (big_ErrNaN "NewFloat(NaN)")
  | _ => let* z := new in SetFloat64 z x
  end.

(** Go's [uint] is a 64-bit word. *)
Definition uint (n : Z) : Z := n mod 2 ^ 64.

(** float64 literals of the package *)
Definition f64_1 : math.float64 := math.of_int 1.
Definition f64_2 : math.float64 := math.of_int 2.
Definition f64_4 : math.float64 := math.of_int 4.
Definition f64_half : math.float64 := math.half.
Definition f64_quarter : math.float64 := math.Float64frombits 0x3FD0000000000000.

(** ** Package bigfloat *)

(** Global variables that are never modified. *)
Definition gzero : big.Float := big.new.
Definition ghalfp : big.Float :=
  big.mkFloat 53 big.ToNearestEven big.finite false (2 ^ 52) 0.
Definition ghalfm : big.Float :=
  big.mkFloat 53 big.ToNearestEven big.finite true (2 ^ 52) 0.
Definition gonep : big.Float :=
  big.mkFloat 53 big.ToNearestEven big.finite false (2 ^ 52) 1.
Definition gonem : big.Float :=
  big.mkFloat 53 big.ToNearestEven big.finite true (2 ^ 52) 1.
Definition gtwop : big.Float :=
  big.mkFloat 53 big.ToNearestEven big.finite false (2 ^ 52) 2.

(** [quicksh] multiplies z by 2**n and sets o to the result. *)
Definition quicksh (o : loc) (z : operand) (n : Z) : M loc :=
  let* exp := MantExp z (Some o) in
  SetMantExp o o (exp + n).

(** One pass through the body of the loop of [AGM], up to the comparison
    that decides the [break]. *)
Definition AGM_step (o a2 b2 lim : loc) : M Z :=
  let* _ := Copy o a2 in
  let* t := Add a2 a2 b2 in
  let* _ := quicksh a2 t (-1) in
  let* t := Mul b2 b2 o in
  let* _ := Sqrt b2 t in
  let* d := Sub o a2 b2 in
  Cmp d lim.

(** The loop of [AGM]; [fuel] bounds the number of iterations. *)
Fixpoint AGM_loop (fuel : nat) (o a2 b2 lim : loc) : M unit :=
  match fuel with
  | O => out_of_fuel
  | S fuel' =>
      let* c := AGM_step o a2 b2 lim in
      if c =? -1 then ret tt else AGM_loop fuel' o a2 b2 lim
  end.

(** [AGM] up to its loop: the target precision, the working copies (the
    larger one first) and the convergence limit. *)
Definition AGM_init (o : loc) (a b : operand) : M (Z * loc * loc * loc) :=
  let* prec := Prec o in
  let* prec :=
    if prec =? 0 then
      let* pa := Prec a in
      let* pb := Prec b in
      ret (if pb <=? pa then pa else pb)
    else ret prec in
  let* _ := SetPrec o (uint (prec + 64)) in
  let* a2 := new in
  let* _ := Copy a2 a in
  let* _ := SetPrec a2 (uint (prec + 64)) in
  let* b2 := new in
  let* _ := Copy b2 b in
  let* _ := SetPrec b2 (uint (prec + 64)) in
  let* c := Cmp a2 b2 in
  let '(a2, b2) := if c =? -1 then (b2, a2) else (a2, b2) in
  let* lim := new in
  let* one := NewFloat f64_1 in
  let* _ := SetPrec one (uint (prec + 64)) in
  let* _ := SetMantExp lim one (- uint (prec + 1)) in
  ret (prec, a2, b2, lim).

(** [AGM] sets o to the limit of the arithmetic-geometric mean progression
    of a and b, to o's precision, and returns o. *)
Definition AGM (fuel : nat) (o : loc) (a b : operand) : M loc :=
  let* r := AGM_init o a b in
  let '(prec, a2, b2, lim) := r in
  let* _ := AGM_loop fuel o a2 b2 lim in
  let* _ := Copy o a2 in
  SetPrec o prec.

Definition round0even (o : loc) (z : operand) : M loc :=
  let* sb := Signbit z in
  if sb then
    let* c := Cmp z (global ghalfm) in
    if c <? 0 then Set_ o (global gonem) else Set_ o (global gzero)
  else
    let* c := Cmp z (global ghalfp) in
    if 0 <? c then Set_ o (global gonep) else Set_ o (global gzero).

Definition round0away (o : loc) (z : operand) : M loc :=
  let* sb := Signbit z in
  if sb then
    let* c := Cmp z (global ghalfm) in
    if c <=? 0 then Set_ o (global gonem) else Set_ o (global gzero)
  else
    let* c := Cmp z (global ghalfp) in
    if 0 <=? c then Set_ o (global gonep) else Set_ o (global gzero).

(** [Round]; the deferred [o.SetMode(o.Mode())] reads the mode where the
    [defer] stands and restores it after the result is computed. *)
Definition Round (o : loc) (z : operand) (mode : big.RoundingMode) : M loc :=
  let* isint := IsInt z in
  let* isinf := IsInf z in
  if isint || isinf then Set_ o z
  else
    let* po := Prec o in
    let* _ := if po =? 0 then
                let* pz := Prec z in SetPrec o pz
              else ret o in
    let* exp := MantExp z None in
    if exp <=? 0 then
      match mode with
      | big.ToNearestEven => round0even o z
      | big.ToNearestAway => round0away o z
      | big.ToZero => Set_ o (global gzero)
      | big.AwayFromZero =>
          let* sb := Signbit z in
          if sb then Set_ o (global gonem) else Set_ o (global gonep)
      | big.ToNegativeInf =>
          let* sb := Signbit z in
          if sb then Set_ o (global gonem) else Set_ o (global gzero)
      | big.ToPositiveInf =>
          let* sb := Signbit z in
          if sb then Set_ o (global gzero) else Set_ o (global gonep)
      end
    else
      let* po := Prec o in
      if po <=? exp then Set_ o z
      else
        let* saved := Mode o in
        let* _ := SetMode o mode in
        let* p := Prec o in
        let* _ := SetPrec o exp in
        let* _ := Set_ o z in
        let* r := SetPrec o p in
        let* _ := SetMode o saved in
        ret r.

(** *** The pi cache *)

Definition piCache_Load : M loc :=
  fun s =>
    match piCache s with
    | Some l => Ret l s
    | None => Panic (panic_string "interface conversion: interface is nil")
    end.

Definition piCache_Store (l : loc) : M unit :=
  fun s => Ret tt (mkState (cells s) (Some l) (enablePiCache s)).

Definition get_enablePiCache : M bool :=
  fun s => Ret (enablePiCache s) s.

Definition pi_digits : Z :=
  314159265358979323846264338327950288419716939937510582097494459230781640628620899862803482534211706798214808651328230664709384460955058223172535940812848111745028410270193852110555964462294895493038196442881097566593344612847564823378678316527120190914564856692346034861045432664821339360726024914127372458700660631558817488152092096282925409171536444.

(** [init]: the cache starts with the 1024-bit value of the decimal literal. *)
Definition init : M unit :=
  let* en := get_enablePiCache in
  if negb en then ret tt
  else
    let* pi := alloc (big_conv.of_ratio 1024 big.ToNearestEven false
                        pi_digits (10 ^ 350)) in
    piCache_Store pi.

Definition loadPi : M loc := piCache_Load.

Fixpoint piCalc_loop (fuel : nat) (a b t x lim y : loc) : M unit :=
  match fuel with
  | O => out_of_fuel
  | S fuel' =>
      let* d := Sub y a b in
      let* c := Cmp d lim in
      if negb (c =? -1) then
        let* _ := Copy y a in
        let* s := Add a a b in
        let* _ := quicksh a s (-1) in
        let* s := Mul b b y in
        let* _ := Sqrt b s in
        let* _ := Sub y a y in
        let* s := Mul y y y in
        let* _ := Mul s y x in
        let* _ := Sub t t y in
        let* _ := quicksh x x 1 in
        piCalc_loop fuel' a b t x lim y
      else ret tt
  end.

(** [piCalc] performs the actual computation to obtain a value for pi. *)
Definition piCalc (fuel : nat) (a : loc) : M loc :=
  let* prec := Prec a in
  let* sqrt2 := new in
  let* _ := SetPrec sqrt2 (uint (prec + 64)) in
  let* _ := Set_ sqrt2 (global gtwop) in
  let* _ := Sqrt sqrt2 sqrt2 in
  let* _ := SetFloat64 a f64_1 in
  let* _ := SetPrec a (uint (prec + 64)) in
  let* b0 := new in
  let* b := quicksh b0 sqrt2 (-1) in
  let* t := NewFloat f64_quarter in
  let* _ := SetPrec t (uint (prec + 64)) in
  let* x := NewFloat f64_1 in
  let* _ := SetPrec x (uint (prec + 64)) in
  let* lim := new in
  let* one := NewFloat f64_1 in
  let* _ := SetPrec one (uint (prec + 64)) in
  let* _ := SetMantExp lim one (- uint (prec + 1)) in
  let* y := new in
  let* _ := piCalc_loop fuel a b t x lim y in
  let* s := Mul a a a in
  let* _ := Quo s a t in
  SetPrec a prec.

(** [Pi] sets a to pi to a's precision and returns a. *)
Definition Pi (fuel : nat) (a : loc) : M loc :=
  let* prec := Prec a in
  if prec =? 0 then Set_ a (global gzero)
  else
    let* en := get_enablePiCache in
    let* hit :=
      if en then
        let* pi := loadPi in
        let* pp := Prec pi in
        if prec <=? pp then let* r := Set_ a pi in ret (Some r)
        else ret None
      else ret None in
    match hit with
    | Some r => ret r
    | None =>
        let* _ := piCalc fuel a in
        let* en := get_enablePiCache in
        let* _ :=
          if en then
            let* cur := loadPi in
            let* pc := Prec cur in
            if pc <? prec then
              let* n := new in
              let* c := Copy n a in
              piCache_Store c
            else ret tt
          else ret tt in
        ret a
    end.

(** [cachedPi] returns the cached pi value with at least prec precision. *)
Definition cachedPi (fuel : nat) (prec : Z) : M loc :=
  let* en := get_enablePiCache in
  if negb en then
    let* n := new in
    let* n := SetPrec n prec in
    Pi fuel n
  else
    let* pi := piCache_Load in
    let* pp := Prec pi in
    if prec <=? pp then ret pi
    else
      let* pi := piCache_Load in
      let* pp := Prec pi in
      if prec <=? pp then ret pi
      else
        let* n := new in
        let* n := SetPrec n prec in
        let* pi := piCalc fuel n in
        let* _ := piCache_Store pi in
        ret pi.

(** *** newton *)

Fixpoint newton_loop (fuel : nat) (fOverDf : loc -> M loc) (guess : loc)
  (prec dPrec : Z) : M unit :=
  match fuel with
  | O => out_of_fuel
  | S fuel' =>
      if prec <? uint (2 * dPrec) then
        let* d := fOverDf guess in
        let* _ := Sub guess guess d in
        let prec := uint (prec * 2) in
        let* _ := SetPrec guess (uint (prec + 64)) in
        newton_loop fuel' fOverDf guess prec dPrec
      else ret tt
  end.

Definition newton (fuel : nat) (fOverDf : loc -> M loc) (guess : loc)
  (dPrec : Z) : M loc :=
  let* prec := Prec guess in
  let guard := 64 in
  let* _ := SetPrec guess (uint (prec + guard)) in
  let* _ := newton_loop fuel fOverDf guess prec dPrec in
  SetPrec guess dPrec.

(** *** Log *)

(** Modelled from the spec: [pi(prec)], the accessor through which the Log
    engine reads pi, is called by both revisions of [Log] but is absent from
    the sources; the spec names [cachedPi] as the accessor "used by Log
    Engine to avoid recomputation". *)
Definition pi (fuel : nat) (prec : Z) : M loc := cachedPi fuel prec.

(** The squaring loop of [Log]: returns the number of doublings. *)
Fixpoint Log_loop (fuel : nat) (o lim : loc) (k : Z) : M Z :=
  match fuel with
  | O => out_of_fuel
  | S fuel' =>
      let* c := Cmp o lim in
      if c <? 0 then
        let* _ := Mul o o o in
        Log_loop fuel' o lim (k + 1)
      else ret k
  end.

(** [Log] sets o to z's natural logarithm to o's precision and returns o. *)
Definition Log (fuel : nat) (o : loc) (z : operand) : M loc :=
  let* po := Prec o in
  let* _ := if po =? 0 then
              let* pz := Prec z in SetPrec o pz
            else ret o in
  let* sb := Signbit z in
  if sb then throw (ErrNaN "Log: argument is negative")
  else
  let* sg := Sign z in
  if sg =? 0 then SetInf o true
  else
  let* isinf := IsInf z in
  if isinf then Set_ o z
  else
  let* po := Prec o in
  let prec := uint (po + 64) in
  let* one := NewFloat f64_1 in
  let* _ := SetPrec one prec in
  let* two := NewFloat f64_2 in
  let* _ := SetPrec two prec in
  let* four := NewFloat f64_4 in
  let* _ := SetPrec four prec in
  let* c := Cmp z one in
  let tail (neg : bool) : M loc :=
    let* lim := new in
    let* _ := SetMantExp lim two (prec / 2) in
    let* k := Log_loop fuel o lim 0 in
    let* pi := pi fuel prec in
    let* n := new in
    let* q := Quo o four o in
    let* agm := AGM fuel n one q in
    let* t := Mul o two agm in
    let* _ := Quo o pi t in
    let* _ := if neg then Neg o o else ret o in
    let* l := SetMantExp lim one (- k) in
    let* _ := Mul o o l in
    SetPrec o (uint (prec - 64)) in
  if c =? 1 then
    let* _ := SetPrec o prec in
    let* _ := Set_ o z in
    tail false
  else if c =? -1 then
    let* _ := SetPrec o prec in
    let* _ := Quo o one z in
    tail true
  else if c =? 0 then Set_ o (global gzero)
  else throw (panic_string "bigfloat: unexpected comparison result, not 0, 1, or -1").

(** The earlier revision of the package, where [Log] works in place on its
    argument; the two-argument [Exp] still calls it. *)
Module Legacy.

(** Modelled from the spec: [agm(a, b)], called by the in-place [Log], is
    absent from the sources; the spec's AGM engine computes the mean of two
    values into a destination, here a fresh one of unset precision. *)
Definition agm (fuel : nat) (a b : operand) : M loc :=
  let* n := new in
  AGM fuel n a b.

Fixpoint Log_loop (fuel : nat) (z lim : loc) (k : Z) : M Z :=
  match fuel with
  | O => out_of_fuel
  | S fuel' =>
      let* c := Cmp z lim in
      if c <? 0 then
        let* _ := Mul z z z in
        Log_loop fuel' z lim (k + 1)
      else ret k
  end.

(** [Log] sets z to its natural logarithm. *)
Definition Log (fuel : nat) (z : loc) : M loc :=
  let* sb := Signbit z in
  if sb then throw (ErrNaN "Log: argument is negative")
  else
  let* sg := Sign z in
  if sg =? 0 then SetInf z true
  else
  let* isinf := IsInf z in
  if isinf then ret z
  else
  let* pz := Prec z in
  let prec := uint (pz + 64) in
  let* one := NewFloat f64_1 in
  let* _ := SetPrec one prec in
  let* two := NewFloat f64_2 in
  let* _ := SetPrec two prec in
  let* four := NewFloat f64_4 in
  let* _ := SetPrec four prec in
  let* c := Cmp z one in
  if c =? 0 then Set_ z (global gzero)
  else
  let* _ := SetPrec z prec in
  let* c := Cmp z one in
  let* neg :=
    if c <? 0 then let* _ := Quo z one z in ret true
    else ret false in
  let* lim := new in
  let* _ := SetMantExp lim two (prec / 2) in
  let* k := Log_loop fuel z lim 0 in
  let* pi := pi fuel prec in
  let* q := Quo z four z in
  let* agm := agm fuel one q in
  let* t := Mul z two agm in
  let* _ := Quo z pi t in
  let* _ := if neg then Neg z z else ret z in
  let* l := SetMantExp lim one (- k) in
  let* _ := Mul z z l in
  SetPrec z (uint (prec - 64)).

End Legacy.

(** *** Exp *)

(** [Exp] sets o to exp(z) to o's precision and returns o. *)
Fixpoint Exp (fuel : nat) (o z : loc) : M loc :=
  match fuel with
  | O => out_of_fuel
  | S fuel' =>
      let* po := Prec o in
      let* _ := if po =? 0 then
                  let* pz := Prec z in SetPrec o pz
                else ret o in
      let* sg := Sign z in
      if sg =? 0 then SetFloat64 o f64_1
      else
      let* isinf := IsInf z in
      if isinf then
        let* sg := Sign z in
        if sg <? 0 then Set_ o (global gzero) else Set_ o z
      else
      let* p :=
        if Nat.eqb o z then
          (* We need z for Newton's algorithm, so ensure we don't
             overwrite it. *)
          let* n := new in
          let* pz := Prec z in
          SetPrec n pz
        else ret o in
      let* zf := Float64 z in
      let zf := math.Exp zf in
      if math.IsInf zf 1 || math.is_zero zf then
        let* halfZ := new in
        let* pp := Prec p in
        let* _ := SetPrec halfZ (uint (pp + 64)) in
        let* h := NewFloat f64_half in
        let* _ := Mul halfZ z h in
        let* halfExp := Exp fuel' halfZ halfZ in
        Mul p halfExp halfExp
      else
        let* guess := NewFloat zf in
        let f (t : loc) : M loc :=
          let* c := new in
          let* _ := Copy c t in
          let* l := Legacy.Log fuel' c in
          let* _ := Sub p l z in
          Mul p p t in
        let* pz := Prec z in
        let* x := newton fuel' f guess pz in
        Set_ o x
  end.

(** *** Pow *)

(** [Pow] sets o to z**w to o's precision and returns o.  The integer fast
    path is guarded by [false && w.IsInt()] and never runs. *)
Definition Pow (fuel : nat) (o : loc) (z w : operand) : M loc :=
  let* po := Prec o in
  let* _ := if po =? 0 then
              let* pz := Prec z in
              let* pw := Prec w in
              if pw <=? pz then SetPrec o pz else SetPrec o pw
            else ret o in
  let* sb := Signbit z in
  if sb then throw (ErrNaN "Pow: negative base")
  else
  let* sw := Sign w in
  if sw =? 0 then
    let* r := NewFloat f64_1 in
    let* pz := Prec z in
    SetPrec r pz
  else
  let* one := NewFloat f64_1 in
  let* c := Cmp w one in
  let* stop := if c =? 0 then ret true else IsInf z in
  if stop then
    let* n := new in
    Copy n z
  else
  let* po := Prec o in
  let* _ := SetPrec o (uint (po + 64)) in
  let* l := new in
  let* pz := Prec z in
  let* _ := SetPrec l (uint (pz + 64)) in
  let* logZ := Log fuel l z in
  let* t := new in
  let* _ := Set_ t w in
  let* pz := Prec z in
  let* _ := SetPrec t (uint (pz + 64)) in
  let* _ := Mul o t logZ in
  let* o := Exp fuel o o in
  let* po := Prec o in
  SetPrec o (uint (po - 64)).

(** *** The one-argument Exp of exp.go *)

Module Earlier.

(** [Exp] returns a [big.Float] representation of exp(z), of the precision
    of z.  Its Newton step takes the logarithm with the in-place [Log]. *)
Fixpoint Exp (fuel : nat) (z : loc) : M loc :=
  match fuel with
  | O => out_of_fuel
  | S fuel' =>
      let* sg := Sign z in
      if sg =? 0 then
        let* r := NewFloat f64_1 in
        let* pz := Prec z in
        SetPrec r pz
      else
      let* isinf := IsInf z in
      if isinf then
        let* r := new in
        let* pz := Prec z in
        let* r := SetPrec r pz in
        let* sg := Sign z in
        let* _ := if 0 <? sg then SetInf r false else ret r in
        ret r
      else
      let* guess := new in
      let* zf := Float64 z in
      let zf := math.Exp zf in
      if math.IsInf zf 1 || math.is_zero zf then
        let* halfZ := new in
        let* h := NewFloat f64_half in
        let* halfZ := Mul halfZ z h in
        let* pz := Prec z in
        let* halfZ := SetPrec halfZ (uint (pz + 64)) in
        let* halfExp := Exp fuel' halfZ in
        let* r := new in
        let* r := Mul r halfExp halfExp in
        let* pz := Prec z in
        SetPrec r pz
      else
        let* _ := SetFloat64 guess zf in
        let f (t : loc) : M loc :=
          let* x := new in
          let* l := Legacy.Log fuel' t in
          let* _ := Sub x l z in
          Mul x x t in
        let* pz := Prec z in
        newton fuel' f guess pz
  end.

End Earlier.

(** *** Package floatutils *)

Module floatutils.

(** Go's [int] is a 64-bit signed word. *)
Definition int (n : Z) : Z := (n + 2 ^ 63) mod 2 ^ 64 - 2 ^ 63.

(** the loop of [Pow]: right-to-left binary exponentiation *)
Fixpoint Pow_loop (fuel : nat) (n : Z) (x mant : loc) : M unit :=
  match fuel with
  | O => out_of_fuel
  | S fuel' =>
      if 0 <? n then
        let* _ := if n mod 2 =? 1 then Mul x x mant else ret x in
        let n := Z.shiftr n 1 in
        let* _ := Mul mant mant mant in
        Pow_loop fuel' n x mant
      else ret tt
  end.

Definition Pow (fuel : nat) (z : operand) (n : Z) : M loc :=
  if n <? 0 then throw (panic_string "negative powers are not supported")
  else if n =? 0 then
    let* r := new in
    let* pz := Prec z in
    let* r := SetPrec r pz in
    SetFloat64 r f64_1
  else
  let* isinf := IsInf z in
  if (n =? 1) || isinf then
    let* x := new in
    Copy x z
  else
  let* sb := Signbit z in
  let* isinf := IsInf z in
  if sb && isinf then throw (panic_string "-Inf base")
  else
  let* mant := new in
  let* exp := MantExp z (Some mant) in
  let exp := int (exp * n) in
  let* x := new in
  let* pz := Prec z in
  let* x := SetPrec x pz in
  let* x := SetFloat64 x f64_1 in
  let* _ := Pow_loop fuel n x mant in
  let* r := new in
  let* pz := Prec z in
  let* r := SetPrec r pz in
  SetMantExp r x exp.

End floatutils.

(** The state of the package when [main] starts. *)
Definition empty_state : state := mkState [] None true.

Definition initial_state : state :=
  match init empty_state with
  | Ret _ s => s
  | _ => empty_state
  end.

(** ** Reading results *)

(** the value a returned pointer refers to *)
Definition result_of (r : outcome loc) : option big.Float :=
  match r with
  | Ret l s => cells s !! l
  | _ => None
  end.

Definition state_after {A} (m : M A) (s : state) : state :=
  match m s with
  | Ret _ s' => s'
  | _ => s
  end.

(** [m * 2^e] as a [Float] of precision [p] and mode [md] (rounded by [md]
    when it does not fit) *)
Definition dyadic (p : Z) (md : big.RoundingMode) (m e : Z) : big.Float :=
  if m =? 0 then big.mk_zero p md false
  else big.round p md (m <? 0) (Z.abs m) (e + big.bitlen (Z.abs m)) false.

(** the signed mantissa of a value, as an integer multiple of [2^l] *)
Definition scaled (v : big.Float) (l : Z) : Z :=
  match big.fform v with
  | big.finite =>
      (if big.neg v then -1 else 1) * big.mant v * 2 ^ (big.lsb_exp v - l)
  | _ => 0
  end.

(** [v] is within one unit in the last place of [x] at precision [p]: the
    unit is [2^(exp x - p)] for [x = 0.m * 2^(exp x)]. *)
Definition within_one_ulp (p : Z) (v x : big.Float) : bool :=
  match big.fform v, big.fform x with
  | big.inf, _ | _, big.inf | _, big.zero => false
  | _, big.finite =>
      let u := big.exp x - p in
      let l := Z.min u (Z.min (big.lsb_exp v) (big.lsb_exp x)) in
      Z.abs (scaled v l - scaled x l) <=? 2 ^ (u - l)
  end.

(** Well-formed values: what every operation of [math/big] returns. *)
Definition valid (v : big.Float) : Prop :=
  0 <= big.prec v <= big.MaxPrec /\
  match big.fform v with
  | big.finite =>
      1 <= big.prec v /\
      2 ^ (big.prec v - 1) <= big.mant v < 2 ^ big.prec v /\
      big.MinExp <= big.exp v <= big.MaxExp
  | _ => big.mant v = 0 /\ big.exp v = 0
  end.

(** ** Inputs of the examples *)

(** [AGM]: two 65-bit operands one unit apart, rounding in opposite
    directions, and a destination of precision 1. *)
Definition agm_cycle_store : state :=
  mkState
    [ dyadic 65 big.ToPositiveInf (2 ^ 64 + 1) 0;
      dyadic 65 big.ToZero (2 ^ 64) 0;
      big.mk_zero 1 big.ToNearestEven false ]
    None true.

(** the store when the loop of [AGM] is entered, and after one pass *)
Definition agm_cycle_entry : state :=
  Eval vm_compute in
  state_after (AGM_init 2%nat (at_ 0%nat) (at_ 1%nat)) agm_cycle_store.

Definition agm_cycle_state : state :=
  Eval vm_compute in
  state_after (AGM_step 2%nat 3%nat 4%nat 5%nat) agm_cycle_entry.

(** the value 3 at precision 2 and a destination of precision 1 *)
Definition agm_three_store : state :=
  mkState
    [ dyadic 2 big.ToNearestEven 3 0; big.mk_zero 1 big.ToNearestEven false ]
    None true.

(** 12 as [big.NewFloat(12)] and a destination of precision 1 in the default
    rounding mode *)
Definition round_twelve_store : state :=
  mkState
    [ dyadic 53 big.ToNearestEven 12 0; big.mk_zero 1 big.ToNearestEven false ]
    None true.

(** +Inf, an exponent +0, and a destination of precision 53 *)
Definition pow_inf_zero_store : state :=
  mkState
    [ big.mk_inf 53 big.ToNearestEven false;
      big.mk_zero 53 big.ToNearestEven false;
      big.mk_zero 53 big.ToNearestEven false ]
    None true.

(** 2, an exponent +0, and a destination holding 0 at precision 53 *)
Definition pow_two_zero_store : state :=
  mkState
    [ dyadic 53 big.ToNearestEven 2 0;
      big.mk_zero 53 big.ToNearestEven false;
      big.mk_zero 53 big.ToNearestEven false ]
    None true.

(** the initial state followed by [x] and a destination of precision 53 *)
Definition with_input (x : big.Float) : state :=
  push (push initial_state x) (big.mk_zero 53 big.ToNearestEven false).

(** [big.NewFloat(1)], [big.NewFloat(2)], [big.NewFloat(4)] by value *)
Definition one53 : big.Float := dyadic 53 big.ToNearestEven 1 0.
Definition two53 : big.Float := dyadic 53 big.ToNearestEven 2 0.
Definition four53 : big.Float := dyadic 53 big.ToNearestEven 4 0.

(** the value 1 at any precision *)
Definition is_one (v : big.Float) : Prop :=
  big.fform v = big.finite /\ big.neg v = false /\
  big.exp v = 1 /\ big.mant v = 2 ^ (big.prec v - 1).

(** the precision [SetPrec] installs *)
Definition clamp (p : Z) : Z := if big.MaxPrec <? p then big.MaxPrec else p.

(** The precision of the value in the pi cache. *)
Definition cache_prec (s : state) : option Z :=
  match piCache s with
  | Some c => big.prec <$> (cells s !! c)
  | None => None
  end.

(** A computation never raises the package's own [ErrNaN]. *)
Definition quiet {A} (m : M A) : Prop :=
  forall s msg, m s <> Panic (ErrNaN msg).

(** A result of [math/big] carries no error of this package. *)
Definition own_errors {A} (r : res A) : Prop :=
  forall msg, r <> err (ErrNaN msg).

(** What a computation may touch, seen from a store that had [n] cells: cells
    below [n] other than [a] keep their contents, the store only grows, and
    ([g = true]) the pi cache still holds the same pointer. *)
Definition unchanged_outside (g : bool) (n : nat) (a : loc) (s s' : state)
  : Prop :=
  (length (cells s) <= length (cells s'))%nat /\
  enablePiCache s' = enablePiCache s /\
  (g = true -> piCache s' = piCache s) /\
  forall l, (l < n)%nat -> l <> a -> cells s' !! l = cells s !! l.

Definition writable (n : nat) (a l : loc) : Prop := l = a \/ (n <= l)%nat.

Definition local (g : bool) (n : nat) (a : loc) {A} (m : M A)
  (Q : A -> Prop) : Prop :=
  forall s r s',
    (n <= length (cells s))%nat -> m s = Ret r s' ->
    unchanged_outside g n a s s' /\ Q r.

(** [Round] by value, for a destination that is not [z] itself: what the
    destination holds afterwards, from what it and [z] held before. *)
Definition Round_value (vo vz : big.Float) (mode : big.RoundingMode)
  : big.Float :=
  if big.IsInt vz || big.IsInf vz then big.Set_ vo vz
  else
    let vo1 := if big.prec vo =? 0 then big.SetPrec vo (big.prec vz) else vo in
    let exp := big.MantExp_exp vz in
    if exp <=? 0 then
      big.Set_ vo1
        match mode with
        | big.ToNearestEven =>
            if big.Signbit vz
            then (if big.Cmp vz ghalfm <? 0 then gonem else gzero)
            else (if 0 <? big.Cmp vz ghalfp then gonep else gzero)
        | big.ToNearestAway =>
            if big.Signbit vz
            then (if big.Cmp vz ghalfm <=? 0 then gonem else gzero)
            else (if 0 <=? big.Cmp vz ghalfp then gonep else gzero)
        | big.ToZero => gzero
        | big.AwayFromZero => if big.Signbit vz then gonem else gonep
        | big.ToNegativeInf => if big.Signbit vz then gonem else gzero
        | big.ToPositiveInf => if big.Signbit vz then gzero else gonep
        end
    else if big.prec vo1 <=? exp then big.Set_ vo1 vz
    else
      big.SetMode
        (big.SetPrec
           (big.Set_ (big.SetPrec (big.SetMode vo1 mode) exp) vz)
           (big.prec vo1))
        (big.mode vo1).

(** a cache holding pi to 8 bits: 201/64 *)
Definition pi_cache_small : state :=
  mkState [dyadic 8 big.ToNearestEven 201 (-6)] (Some 0%nat) true.

(** The positive integer [c], scaled to a mantissa of [p] bits: the value
    [c * 2^(x - bitlen c)] at precision [p]. *)
Definition canon (p : Z) (md : big.RoundingMode) (ng : bool) (c x : Z)
  : big.Float :=
  big.mkFloat p md big.finite ng (c * 2 ^ (p - big.bitlen c)) x.

(** What the steps [b2.Sqrt(b2.Mul(b2, o))] of [AGM] leave in b2 when b2 and
    o both hold [w]: the square root of the square of [w], each rounded at
    the precision and in the mode of [w]. *)
Definition sqrt_of_square (w : big.Float) : res big.Float :=
  res_bind (big.Mul w w w) (fun t => big_conv.Sqrt t t).

(** The exit test of the first pass through the loop of [AGM] when both
    working copies hold [w]: [w] less the square root of its square,
    compared with [lim]. *)
Definition agm_first_pass (w lim : big.Float) : res Z :=
  res_bind (sqrt_of_square w) (fun b =>
  res_bind (big.Sub w w b) (fun d => ok (big.Cmp d lim))).

(** 3 * 2^68 at precision 2, rounding toward zero, and a destination of
    unset precision *)
Definition agm_toward_zero_store : state :=
  mkState [canon 2 big.ToZero false 3 70; big.new] None true.

(** ** Round trips through [Log] and [Exp] *)

(** the initial state (pointer 0 is the cached pi) followed by [x] at
    pointer 1 and two destinations of precision [p] at pointers 2 and 3 *)
Definition round_trip_store (p : Z) (x : big.Float) : state :=
  push (push (push initial_state x) (big.mk_zero p big.ToNearestEven false))
    (big.mk_zero p big.ToNearestEven false).

(** [Exp(d2, Log(d1, x))] and [Log(d2, Exp(d1, x))] on that store *)
Definition Exp_of_Log (fuel : nat) (p : Z) (x : big.Float)
  : option big.Float :=
  result_of
    (bind (Log fuel 2%nat (at_ 1%nat)) (fun l => Exp fuel 3%nat l)
       (round_trip_store p x)).

Definition Log_of_Exp (fuel : nat) (p : Z) (x : big.Float)
  : option big.Float :=
  result_of
    (bind (Exp fuel 2%nat 1%nat) (fun e => Log fuel 3%nat (at_ e))
       (round_trip_store p x)).

(** a round trip returned a value within one unit in the last place of [x]
    at precision [p] *)
Definition round_trip_ok (p : Z) (x : big.Float) (r : option big.Float)
  : bool :=
  match r with
  | Some v => within_one_ulp p v x
  | None => false
  end.


(** * Lemmas *)

(** ** The monad *)

Lemma bind_Ret {A B} (m : M A) (k : A -> M B) s a s' :
  m s = Ret a s' -> bind m k s = k a s'.
Proof. unfold bind. intros ->. reflexivity. Qed.

Lemma bind_Panic {A B} (m : M A) (k : A -> M B) s p :
  m s = Panic p -> bind m k s = Panic p.
Proof. unfold bind. intros ->. reflexivity. Qed.

Lemma bind_OutOfFuel {A B} (m : M A) (k : A -> M B) s :
  m s = OutOfFuel -> bind m k s = OutOfFuel.
Proof. unfold bind. intros ->. reflexivity. Qed.

Lemma bind_inv {A B} (m : M A) (k : A -> M B) s b s' :
  bind m k s = Ret b s' -> exists a s1, m s = Ret a s1 /\ k a s1 = Ret b s'.
Proof.
  unfold bind. destruct (m s) as [a s1| |]; [eauto | discriminate..].
Qed.

(** ** The store *)

Lemma len_set s l v : length (cells (set_cell s l v)) = length (cells s).
Proof. apply length_insert. Qed.

Lemma len_push s v : length (cells (push s v)) = S (length (cells s)).
Proof. cbn. rewrite length_app. cbn. lia. Qed.

Lemma lookup_set_eq s l v :
  (l < length (cells s))%nat -> cells (set_cell s l v) !! l = Some v.
Proof. intros. cbn. by apply list_lookup_insert_eq. Qed.

Lemma lookup_set_ne s l l' v :
  l <> l' -> cells (set_cell s l v) !! l' = cells s !! l'.
Proof. intros. cbn. by apply list_lookup_insert_ne. Qed.

Lemma lookup_push_old s l v :
  (l < length (cells s))%nat -> cells (push s v) !! l = cells s !! l.
Proof. intros. cbn. by apply lookup_app_l. Qed.

Lemma lookup_push_at s l v :
  l = length (cells s) -> cells (push s v) !! l = Some v.
Proof. intros ->. cbn. apply list_lookup_middle. reflexivity. Qed.

Lemma lookup_lt s l v : cells s !! l = Some v -> (l < length (cells s))%nat.
Proof. apply lookup_lt_Some. Qed.

Lemma set_push s x v : set_cell (push s x) (length (cells s)) v = push s v.
Proof.
  unfold set_cell, push; cbn. f_equal.
  rewrite insert_app_r_alt by lia. rewrite Nat.sub_diag. reflexivity.
Qed.

Lemma piCache_set s l v : piCache (set_cell s l v) = piCache s.
Proof. reflexivity. Qed.
Lemma piCache_push s v : piCache (push s v) = piCache s.
Proof. reflexivity. Qed.
Lemma enable_set s l v : enablePiCache (set_cell s l v) = enablePiCache s.
Proof. reflexivity. Qed.
Lemma enable_push s v : enablePiCache (push s v) = enablePiCache s.
Proof. reflexivity. Qed.

Ltac len := repeat first [rewrite len_set | rewrite len_push].

(** solves [cells S !! l = Some ?v] for a store built by [set_cell] and
    [push] over one whose lookups are hypotheses *)
Ltac lk :=
  repeat first
    [ rewrite lookup_set_eq by (len; lia)
    | rewrite lookup_set_ne by (len; lia)
    | rewrite lookup_push_at by (len; lia)
    | rewrite lookup_push_old by (len; lia) ];
  first [ eassumption | reflexivity ].

(** strips the updates of other cells off a lookup *)
Ltac lk_frame :=
  repeat first
    [ rewrite lookup_set_ne by (len; lia)
    | rewrite lookup_push_old by (len; lia) ].

(** ** Methods on the store *)

Lemma run_load s l v : cells s !! l = Some v -> load l s = Ret v s.
Proof. unfold load. intros ->. reflexivity. Qed.

Lemma run_new s : new s = Ret (length (cells s)) (push s big.new).
Proof. reflexivity. Qed.

Lemma rd_at s (l : loc) v : cells s !! l = Some v -> rd (at_ l) s = Ret v s.
Proof. apply run_load. Qed.

Lemma rd_global s v : rd (global v) s = Ret v s.
Proof. reflexivity. Qed.

Lemma run_get {A} (f : big.Float -> A) x s v :
  rd x s = Ret v s -> get f x s = Ret (f v) s.
Proof. intros H. unfold get. rewrite (bind_Ret _ _ _ _ _ H). reflexivity. Qed.

Lemma run_upd z f s vz v :
  cells s !! z = Some vz -> f vz = ok v -> upd z f s = Ret z (set_cell s z v).
Proof.
  intros Hz Hf. unfold upd.
  rewrite (bind_Ret _ _ _ _ _ (run_load _ _ _ Hz)), Hf.
  reflexivity.
Qed.

Lemma run_upd1 z x f s vx vz v :
  rd x s = Ret vx s -> cells s !! z = Some vz -> f vz vx = ok v ->
  upd1 z x f s = Ret z (set_cell s z v).
Proof.
  intros Hx Hz Hf. unfold upd1.
  rewrite (bind_Ret _ _ _ _ _ Hx). by apply (run_upd z _ s vz v).
Qed.

Lemma run_upd2 z x y f s vx vy vz v :
  rd x s = Ret vx s -> rd y s = Ret vy s -> cells s !! z = Some vz ->
  f vz vx vy = ok v -> upd2 z x y f s = Ret z (set_cell s z v).
Proof.
  intros Hx Hy Hz Hf. unfold upd2.
  rewrite (bind_Ret _ _ _ _ _ Hx), (bind_Ret _ _ _ _ _ Hy).
  by apply (run_upd z _ s vz v).
Qed.

Lemma run_Prec x s v : rd x s = Ret v s -> Prec x s = Ret (big.prec v) s.
Proof. apply run_get. Qed.
Lemma run_Mode x s v : rd x s = Ret v s -> Mode x s = Ret (big.mode v) s.
Proof. apply run_get. Qed.
Lemma run_Sign x s v : rd x s = Ret v s -> Sign x s = Ret (big.Sign v) s.
Proof. apply run_get. Qed.
Lemma run_Signbit x s v : rd x s = Ret v s -> Signbit x s = Ret (big.neg v) s.
Proof. apply run_get. Qed.
Lemma run_IsInf x s v : rd x s = Ret v s -> IsInf x s = Ret (big.IsInf v) s.
Proof. apply run_get. Qed.
Lemma run_IsInt x s v : rd x s = Ret v s -> IsInt x s = Ret (big.IsInt v) s.
Proof. apply run_get. Qed.
Lemma run_Float64 x s v :
  rd x s = Ret v s -> Float64 x s = Ret (big_conv.Float64 v) s.
Proof. apply run_get. Qed.

Lemma run_Cmp x y s vx vy :
  rd x s = Ret vx s -> rd y s = Ret vy s -> Cmp x y s = Ret (big.Cmp vx vy) s.
Proof.
  intros Hx Hy. unfold Cmp.
  rewrite (bind_Ret _ _ _ _ _ Hx), (bind_Ret _ _ _ _ _ Hy). reflexivity.
Qed.

Lemma run_MantExp_nil x s v :
  rd x s = Ret v s -> MantExp x None s = Ret (big.MantExp_exp v) s.
Proof.
  intros Hx. unfold MantExp. rewrite (bind_Ret _ _ _ _ _ Hx). reflexivity.
Qed.

Lemma run_SetPrec z p s vz :
  cells s !! z = Some vz ->
  SetPrec z p s = Ret z (set_cell s z (big.SetPrec vz p)).
Proof. intros. by eapply run_upd. Qed.

Lemma run_SetMode z md s vz :
  cells s !! z = Some vz ->
  SetMode z md s = Ret z (set_cell s z (big.SetMode vz md)).
Proof. intros. by eapply run_upd. Qed.

Lemma run_SetInf z b s vz :
  cells s !! z = Some vz ->
  SetInf z b s = Ret z (set_cell s z (big.SetInf vz b)).
Proof. intros. by eapply run_upd. Qed.

Lemma run_SetFloat64 z x s vz v :
  cells s !! z = Some vz -> big_conv.SetFloat64 vz x = ok v ->
  SetFloat64 z x s = Ret z (set_cell s z v).
Proof. intros. by eapply run_upd. Qed.

Lemma run_Set z x s vx vz :
  rd x s = Ret vx s -> cells s !! z = Some vz ->
  Set_ z x s = Ret z (set_cell s z (big.Set_ vz vx)).
Proof. intros. by eapply run_upd1. Qed.

Lemma run_Copy z x s vx vz :
  rd x s = Ret vx s -> cells s !! z = Some vz ->
  Copy z x s = Ret z (set_cell s z vx).
Proof. intros. by eapply run_upd1. Qed.

Lemma run_NewFloat x s v :
  x <> S754_nan -> big_conv.SetFloat64 big.new x = ok v ->
  NewFloat x s = Ret (length (cells s)) (push s v).
Proof.
  intros Hx Hv. unfold NewFloat.
  assert (E : (let* z := new in SetFloat64 z x) s
              = Ret (length (cells s)) (push s v)).
  { rewrite (bind_Ret _ _ _ _ _ (run_new s)).
    erewrite run_SetFloat64; [| apply lookup_push_at; reflexivity | exact Hv].
    by rewrite set_push. }
  destruct x; try exact E. congruence.
Qed.


(** ** Values *)

Ltac case_ifs :=
  repeat match goal with
         | |- context [if ?b then _ else _] => destruct b
         end.

Lemma prec_round p md ng m x sb : big.prec (big.round p md ng m x sb) = p.
Proof. unfold big.round. case_ifs; reflexivity. Qed.

Lemma mode_round p md ng m x sb : big.mode (big.round p md ng m x sb) = md.
Proof. unfold big.round. case_ifs; reflexivity. Qed.

Lemma neg_round p md ng m x sb : big.neg (big.round p md ng m x sb) = ng.
Proof. unfold big.round. case_ifs; reflexivity. Qed.

Lemma fform_round p md ng m x sb :
  big.fform (big.round p md ng m x sb) <> big.zero.
Proof. unfold big.round. case_ifs; discriminate. Qed.

Lemma prec_SetPrec v p : p <> 0 -> big.prec (big.SetPrec v p) = clamp p.
Proof.
  intros Hp. unfold big.SetPrec, clamp.
  destruct (Z.eqb_spec p 0); [contradiction|].
  destruct (big.fform v); cbn; try reflexivity. apply prec_round.
Qed.

Lemma prec_SetPrec_0 v : big.prec (big.SetPrec v 0) = 0.
Proof. unfold big.SetPrec. cbn. destruct (big.fform v); reflexivity. Qed.

Lemma mode_SetPrec v p : big.mode (big.SetPrec v p) = big.mode v.
Proof.
  unfold big.SetPrec. destruct (p =? 0), (big.fform v); cbn;
    try reflexivity; apply mode_round.
Qed.

Lemma neg_SetPrec v p : big.neg (big.SetPrec v p) = big.neg v.
Proof.
  unfold big.SetPrec. destruct (p =? 0), (big.fform v); cbn;
    try reflexivity; apply neg_round.
Qed.

Lemma fform_SetPrec_inf v p :
  big.fform v = big.inf -> big.fform (big.SetPrec v p) = big.inf.
Proof.
  intros H. unfold big.SetPrec. rewrite H. destruct (p =? 0); reflexivity.
Qed.

Lemma fform_SetPrec_zero v p :
  big.fform v = big.zero -> big.fform (big.SetPrec v p) = big.zero.
Proof.
  intros H. unfold big.SetPrec. rewrite H. destruct (p =? 0); reflexivity.
Qed.

Lemma Sign_SetPrec v p :
  (big.fform v = big.finite -> p <> 0) ->
  big.Sign (big.SetPrec v p) = big.Sign v.
Proof.
  intros H. unfold big.Sign. rewrite neg_SetPrec.
  destruct (big.fform v) eqn:E.
  - by rewrite fform_SetPrec_zero.
  - unfold big.SetPrec. rewrite E.
    destruct (Z.eqb_spec p 0) as [->|_]; [by destruct H|].
    pose proof (fform_round (if big.MaxPrec <? p then big.MaxPrec else p)
                  (big.mode v) (big.neg v) (big.mant v) (big.exp v) false).
    destruct (big.fform (big.round _ _ _ _ _ _)); congruence.
  - by rewrite fform_SetPrec_inf.
Qed.

Lemma prec_Set z x :
  big.prec (big.Set_ z x) = if big.prec z =? 0 then big.prec x else big.prec z.
Proof.
  unfold big.Set_. destruct (big.fform x); cbn; try reflexivity.
  apply prec_round.
Qed.

Lemma mode_Set z x : big.mode (big.Set_ z x) = big.mode z.
Proof.
  unfold big.Set_. destruct (big.fform x); cbn; try reflexivity.
  apply mode_round.
Qed.

Lemma Set_nonfinite z x :
  big.fform x <> big.finite ->
  big.Set_ z x =
  big.mkFloat (if big.prec z =? 0 then big.prec x else big.prec z)
    (big.mode z) (big.fform x) (big.neg x) 0 0.
Proof. unfold big.Set_. destruct (big.fform x); congruence. Qed.

Lemma valid_prec_pos v :
  valid v -> big.fform v = big.finite -> big.prec v <> 0.
Proof. intros [_ H] E. rewrite E in H. lia. Qed.

Lemma clamp_valid p : 0 <= p <= big.MaxPrec -> clamp p = p.
Proof.
  intros H. unfold clamp. destruct (Z.ltb_spec big.MaxPrec p); lia.
Qed.

Lemma uint_small n : 0 <= n < 2 ^ 64 -> uint n = n.
Proof. intros. unfold uint. by rewrite Z.mod_small. Qed.

Lemma MaxPrec_val : big.MaxPrec = 4294967295.
Proof. reflexivity. Qed.

Lemma uint_prec_add p k :
  0 <= p <= big.MaxPrec -> 0 <= k <= 1000 -> uint (p + k) = p + k.
Proof.
  intros Hp Hk. apply uint_small. rewrite MaxPrec_val in Hp.
  change (2 ^ 64) with 18446744073709551616. lia.
Qed.

(** ** Cells after a conditional SetPrec *)

(** After [o.SetPrec(p)] a cell holds its old value or that value with the
    new precision, whether or not it is the cell of [o]. *)
Lemma lookup_after_SetPrec s o vo p l v :
  cells s !! o = Some vo -> cells s !! l = Some v ->
  exists v1, cells (set_cell s o (big.SetPrec vo p)) !! l = Some v1 /\
             (v1 = v \/ v1 = big.SetPrec v p).
Proof.
  intros Ho Hl. pose proof (lookup_lt _ _ _ Ho).
  destruct (decide (o = l)) as [E|Hne].
  - subst l. exists (big.SetPrec vo p). split; [lk|]. right.
    congruence.
  - exists v. split; [lk | by left].
Qed.

Lemma lookup_maybe_SetPrec s (o : loc) vo p (b : bool) l v :
  cells s !! o = Some vo -> cells s !! l = Some v ->
  exists v1, cells (if b then set_cell s o (big.SetPrec vo p) else s) !! l
             = Some v1 /\ (v1 = v \/ (b = true /\ v1 = big.SetPrec v p /\ o = l)).
Proof.
  intros Ho Hl. destruct b; [|eauto].
  pose proof (lookup_lt _ _ _ Ho).
  destruct (decide (o = l)) as [E|Hne].
  - subst l. exists (big.SetPrec vo p). split; [lk|]. right. split; [done|].
    split; congruence.
  - exists v. split; [lk | by left].
Qed.

Lemma length_maybe_set s (o : loc) v (b : bool) :
  length (cells (if b then set_cell s o v else s)) = length (cells s).
Proof. destruct b; [apply len_set | reflexivity]. Qed.

Lemma one53_eq :
  one53 = big.mkFloat 53 big.ToNearestEven big.finite false (2 ^ 52) 1.
Proof. reflexivity. Qed.

Lemma bitlen_pow2 k : 0 <= k -> big.bitlen (2 ^ k) = k + 1.
Proof. intros. unfold big.bitlen. by rewrite Z.log2_pow2. Qed.

(** [big.NewFloat(1).SetPrec(P)] is the value 1 for a working precision *)
Lemma SetPrec_one53 P :
  53 <= P ->
  big.SetPrec one53 P =
  big.mkFloat (clamp P) big.ToNearestEven big.finite false
    (2 ^ (clamp P - 1)) 1.
Proof.
  intros HP. rewrite one53_eq. unfold big.SetPrec. cbn [big.fform big.mode
    big.neg big.mant big.exp].
  destruct (Z.eqb_spec P 0) as [|_]; [lia|].
  fold (clamp P).
  assert (HC : 53 <= clamp P).
  { unfold clamp. destruct (big.MaxPrec <? P); [rewrite MaxPrec_val|]; lia. }
  unfold big.round. rewrite bitlen_pow2 by lia.
  destruct (Z.leb_spec (52 + 1) (clamp P)); [|lia].
  f_equal. rewrite <- Z.pow_add_r by lia. f_equal. lia.
Qed.

Lemma Cmp_one v P md :
  is_one v -> 1 <= big.prec v -> 1 <= P ->
  big.Cmp v (big.mkFloat P md big.finite false (2 ^ (P - 1)) 1) = 0.
Proof.
  intros (Ff & Nf & Ef & Mf) Hp HP.
  unfold big.Cmp, big.ord, big.ucmp. cbn [big.fform big.neg big.exp big.mant
    big.prec].
  rewrite Ff, Nf, Ef, Mf. cbn [Z.ltb Z.eqb Z.compare Pos.compare Pos.eqb
    Pos.compare_cont].
  rewrite <- !Z.pow_add_r by lia.
  replace (big.prec v - 1 + P) with (P - 1 + big.prec v) by lia.
  by rewrite Z.ltb_irrefl.
Qed.


(** ** Computations that never raise the package's ErrNaN *)

Create HintDb quiet.

Lemma quiet_ret {A} (a : A) : quiet (ret a).
Proof. intros s msg. discriminate. Qed.

Lemma quiet_bind {A B} (m : M A) (k : A -> M B) :
  quiet m -> (forall a, quiet (k a)) -> quiet (bind m k).
Proof.
  intros Hm Hk s msg. unfold bind.
  destruct (m s) as [a s'|p|] eqn:E.
  - apply Hk.
  - intros [= ->]. by apply (Hm s msg).
  - discriminate.
Qed.

Lemma quiet_out_of_fuel {A} : quiet (@out_of_fuel A).
Proof. intros s msg. discriminate. Qed.

Lemma quiet_throw_big {A} msg : quiet (@throw A (big_ErrNaN msg)).
Proof. intros s m. discriminate. Qed.

Lemma quiet_throw_string {A} msg : quiet (@throw A (panic_string msg)).
Proof. intros s m. discriminate. Qed.

Lemma quiet_lift {A} (r : res A) :
  (forall msg, r <> err (ErrNaN msg)) -> quiet (lift r).
Proof.
  intros H s msg. destruct r as [a|p|]; cbn; [discriminate| |discriminate].
  unfold throw. intros [= ->]. by apply (H msg).
Qed.

Lemma quiet_load l : quiet (load l).
Proof. intros s msg. unfold load. destruct (cells s !! l); discriminate. Qed.

Lemma quiet_store l v : quiet (store l v).
Proof. intros s msg. discriminate. Qed.

Lemma quiet_alloc v : quiet (alloc v).
Proof. intros s msg. discriminate. Qed.

Lemma quiet_new : quiet new.
Proof. apply quiet_alloc. Qed.

Lemma quiet_rd x : quiet (rd x).
Proof. destruct x; [apply quiet_load | apply quiet_ret]. Qed.

#[export] Hint Resolve quiet_ret quiet_out_of_fuel quiet_throw_big
  quiet_throw_string quiet_load quiet_store quiet_alloc quiet_new quiet_rd
  : quiet.

Lemma quiet_get {A} (f : big.Float -> A) x : quiet (get f x).
Proof. apply quiet_bind; auto with quiet. Qed.

Lemma quiet_upd z f :
  (forall v msg, f v <> err (ErrNaN msg)) -> quiet (upd z f).
Proof.
  intros H. unfold upd.
  repeat (apply quiet_bind; [|intros]); auto using quiet_lift with quiet.
Qed.

Lemma quiet_upd1 z x f :
  (forall v w msg, f v w <> err (ErrNaN msg)) -> quiet (upd1 z x f).
Proof.
  intros H. unfold upd1. apply quiet_bind; [auto with quiet|].
  intros vx. apply quiet_upd. intros; apply H.
Qed.

Lemma quiet_upd2 z x y f :
  (forall v w u msg, f v w u <> err (ErrNaN msg)) -> quiet (upd2 z x y f).
Proof.
  intros H. unfold upd2. do 2 (apply quiet_bind; [auto with quiet|intros]).
  apply quiet_upd. intros; apply H.
Qed.

Lemma Add_clean z x y msg : big.Add z x y <> err (ErrNaN msg).
Proof. unfold big.Add. destruct (big.fform x), (big.fform y); case_ifs; discriminate. Qed.
Lemma Sub_clean z x y msg : big.Sub z x y <> err (ErrNaN msg).
Proof. unfold big.Sub. destruct (big.fform x), (big.fform y); case_ifs; discriminate. Qed.
Lemma Mul_clean z x y msg : big.Mul z x y <> err (ErrNaN msg).
Proof. unfold big.Mul. destruct (big.fform x), (big.fform y); discriminate. Qed.
Lemma Quo_clean z x y msg : big.Quo z x y <> err (ErrNaN msg).
Proof. unfold big.Quo. destruct (big.fform x), (big.fform y); discriminate. Qed.
Lemma SetFloat64_clean z x msg : big_conv.SetFloat64 z x <> err (ErrNaN msg).
Proof. unfold big_conv.SetFloat64. destruct x; discriminate. Qed.

Lemma own_ok {A} (a : A) : own_errors (ok a).
Proof. intros msg. discriminate. Qed.

Lemma own_no_return {A} : own_errors (@no_return A).
Proof. intros msg. discriminate. Qed.

Lemma own_bind {A B} (r : res A) (k : A -> res B) :
  own_errors r -> (forall a, own_errors (k a)) -> own_errors (res_bind r k).
Proof.
  intros Hr Hk msg. destruct r as [a|p|]; cbn.
  - apply Hk.
  - intros [= ->]. by apply (Hr msg).
  - discriminate.
Qed.

Lemma own_ng x p t : own_errors (big_conv.ng x p t).
Proof.
  unfold big_conv.ng.
  repeat (apply own_bind; [intros msg; first [apply Mul_clean | apply Sub_clean]
                          | intros ?]).
  apply own_ok.
Qed.

Lemma own_sqrtInverse_loop fuel x sqi target :
  own_errors (big_conv.sqrtInverse_loop fuel x sqi target).
Proof.
  revert sqi. induction fuel as [|fuel IH]; intros sqi;
    cbn [big_conv.sqrtInverse_loop];
    destruct (_ <? target); try apply own_ok; try apply own_no_return.
  destruct (_ <=? _); [apply own_no_return|].
  apply own_bind; [apply own_ng | intros; apply IH].
Qed.

Lemma Sqrt_clean z x msg : big_conv.Sqrt z x <> err (ErrNaN msg).
Proof.
  revert msg. change (own_errors (big_conv.Sqrt z x)).
  unfold big_conv.Sqrt. destruct (_ =? -1); [intros msg; discriminate|].
  destruct (big.fform x); try apply own_ok.
  apply own_bind; [| intros; apply own_ok].
  unfold big_conv.sqrtInverse.
  apply own_bind; [intros msg; apply SetFloat64_clean|]. intros sqi.
  apply own_bind; [apply own_sqrtInverse_loop|]. intros sqi'.
  intros msg. apply Mul_clean.
Qed.

Lemma quiet_Prec x : quiet (Prec x). Proof. apply quiet_get. Qed.
Lemma quiet_Mode x : quiet (Mode x). Proof. apply quiet_get. Qed.
Lemma quiet_Sign x : quiet (Sign x). Proof. apply quiet_get. Qed.
Lemma quiet_Signbit x : quiet (Signbit x). Proof. apply quiet_get. Qed.
Lemma quiet_IsInf x : quiet (IsInf x). Proof. apply quiet_get. Qed.
Lemma quiet_IsInt x : quiet (IsInt x). Proof. apply quiet_get. Qed.
Lemma quiet_Float64 x : quiet (Float64 x). Proof. apply quiet_get. Qed.
Lemma quiet_Cmp x y : quiet (Cmp x y).
Proof. unfold Cmp. repeat (apply quiet_bind; [|intros]); auto with quiet. Qed.
Lemma quiet_SetPrec z p : quiet (SetPrec z p).
Proof. apply quiet_upd. discriminate. Qed.
Lemma quiet_SetMode z p : quiet (SetMode z p).
Proof. apply quiet_upd. discriminate. Qed.
Lemma quiet_SetInf z p : quiet (SetInf z p).
Proof. apply quiet_upd. discriminate. Qed.
Lemma quiet_SetFloat64 z x : quiet (SetFloat64 z x).
Proof. apply quiet_upd. intros. apply SetFloat64_clean. Qed.
Lemma quiet_Set z x : quiet (Set_ z x).
Proof. apply quiet_upd1. discriminate. Qed.
Lemma quiet_Copy z x : quiet (Copy z x).
Proof. apply quiet_upd1. discriminate. Qed.
Lemma quiet_Neg z x : quiet (Neg z x).
Proof. apply quiet_upd1. discriminate. Qed.
Lemma quiet_Sqrt z x : quiet (Sqrt z x).
Proof. apply quiet_upd1. intros. apply Sqrt_clean. Qed.
Lemma quiet_SetMantExp z x e : quiet (SetMantExp z x e).
Proof. apply quiet_upd1. discriminate. Qed.
Lemma quiet_Add z x y : quiet (Add z x y).
Proof. apply quiet_upd2. intros. apply Add_clean. Qed.
Lemma quiet_Sub z x y : quiet (Sub z x y).
Proof. apply quiet_upd2. intros. apply Sub_clean. Qed.
Lemma quiet_Mul z x y : quiet (Mul z x y).
Proof. apply quiet_upd2. intros. apply Mul_clean. Qed.
Lemma quiet_Quo z x y : quiet (Quo z x y).
Proof. apply quiet_upd2. intros. apply Quo_clean. Qed.

#[export] Hint Resolve quiet_Prec quiet_Mode quiet_Sign quiet_Signbit
  quiet_IsInf quiet_IsInt quiet_Float64 quiet_Cmp quiet_SetPrec quiet_SetMode
  quiet_SetInf quiet_SetFloat64 quiet_Set quiet_Copy quiet_Neg quiet_Sqrt
  quiet_SetMantExp quiet_Add quiet_Sub quiet_Mul quiet_Quo : quiet.

(** walks through a chain of binds and conditionals *)
Ltac quiet_tac :=
  repeat first
    [ solve [auto with quiet]
    | apply quiet_bind; [| intros]
    | match goal with
      | |- quiet (if ?b then _ else _) => destruct b
      | |- quiet (match ?x with _ => _ end) => destruct x
      | |- quiet (let '(_, _) := ?x in _) => destruct x
      end ].

Lemma quiet_MantExp x m : quiet (MantExp x m).
Proof. unfold MantExp. quiet_tac. Qed.
#[export] Hint Resolve quiet_MantExp : quiet.

Lemma quiet_NewFloat x : quiet (NewFloat x).
Proof. unfold NewFloat. destruct x; quiet_tac. Qed.
#[export] Hint Resolve quiet_NewFloat : quiet.

Lemma quiet_quicksh o z n : quiet (quicksh o z n).
Proof. unfold quicksh. quiet_tac. Qed.
#[export] Hint Resolve quiet_quicksh : quiet.

Lemma quiet_AGM_step o a2 b2 lim : quiet (AGM_step o a2 b2 lim).
Proof. unfold AGM_step. quiet_tac. Qed.
#[export] Hint Resolve quiet_AGM_step : quiet.

Lemma quiet_AGM_loop fuel o a2 b2 lim : quiet (AGM_loop fuel o a2 b2 lim).
Proof. induction fuel; cbn [AGM_loop]; quiet_tac. Qed.
#[export] Hint Resolve quiet_AGM_loop : quiet.

Lemma quiet_AGM_init o a b : quiet (AGM_init o a b).
Proof. unfold AGM_init. quiet_tac. Qed.
#[export] Hint Resolve quiet_AGM_init : quiet.

Lemma quiet_AGM fuel o a b : quiet (AGM fuel o a b).
Proof. unfold AGM. quiet_tac. Qed.
#[export] Hint Resolve quiet_AGM : quiet.

Lemma quiet_piCache_Load : quiet piCache_Load.
Proof.
  intros s msg. unfold piCache_Load. destruct (piCache s); discriminate.
Qed.
Lemma quiet_piCache_Store l : quiet (piCache_Store l).
Proof. intros s msg. discriminate. Qed.
Lemma quiet_get_enablePiCache : quiet get_enablePiCache.
Proof. intros s msg. discriminate. Qed.
#[export] Hint Resolve quiet_piCache_Load quiet_piCache_Store
  quiet_get_enablePiCache : quiet.

Lemma quiet_piCalc_loop fuel a b t x lim y :
  quiet (piCalc_loop fuel a b t x lim y).
Proof. induction fuel; cbn [piCalc_loop]; quiet_tac. Qed.
#[export] Hint Resolve quiet_piCalc_loop : quiet.

Lemma quiet_piCalc fuel a : quiet (piCalc fuel a).
Proof. unfold piCalc. quiet_tac. Qed.
#[export] Hint Resolve quiet_piCalc : quiet.

Lemma quiet_Pi fuel a : quiet (Pi fuel a).
Proof. unfold Pi, loadPi. quiet_tac. Qed.
#[export] Hint Resolve quiet_Pi : quiet.

Lemma quiet_cachedPi fuel p : quiet (cachedPi fuel p).
Proof. unfold cachedPi. quiet_tac. Qed.
#[export] Hint Resolve quiet_cachedPi : quiet.

Lemma quiet_pi fuel p : quiet (pi fuel p).
Proof. apply quiet_cachedPi. Qed.
#[export] Hint Resolve quiet_pi : quiet.

Lemma quiet_Log_loop fuel o lim k : quiet (Log_loop fuel o lim k).
Proof. revert k. induction fuel; intros k; cbn [Log_loop]; quiet_tac. Qed.
#[export] Hint Resolve quiet_Log_loop : quiet.


(** ** Pow *)

Lemma run_NewFloat_1 s :
  NewFloat f64_1 s = Ret (length (cells s)) (push s one53).
Proof. apply run_NewFloat; [discriminate | vm_compute; reflexivity]. Qed.

(** The first statement of [Pow]: a destination of precision 0 takes the
    larger of the precisions of [z] and [w]. *)
Lemma Pow_prefix {B} (K : M B) s (o z w : loc) vo vz vw :
  cells s !! o = Some vo -> cells s !! z = Some vz ->
  cells s !! w = Some vw ->
  (let* _ := if big.prec vo =? 0 then
               let* pz := Prec z in
               let* pw := Prec w in
               if pw <=? pz then SetPrec o pz else SetPrec o pw
             else ret o in K) s
  = K (if big.prec vo =? 0
         then set_cell s o
                (big.SetPrec vo (Z.max (big.prec vz) (big.prec vw)))
         else s).
Proof.
  intros Ho Hz Hw.
  destruct (big.prec vo =? 0); [|reflexivity].
  unfold bind at 1.
  erewrite (bind_Ret (Prec z)); [| apply run_Prec, rd_at; eassumption].
  erewrite (bind_Ret (Prec w)); [| apply run_Prec, rd_at; eassumption].
  destruct (Z.leb_spec (big.prec vw) (big.prec vz)).
  - erewrite run_SetPrec by eassumption. by rewrite Z.max_l by lia.
  - erewrite run_SetPrec by eassumption. by rewrite Z.max_r by lia.
Qed.

(** [Pow] with a zero exponent: the result is a new value 1 of [z]'s
    precision, and it is not the destination. *)
Lemma Pow_zero_exponent fuel s (o z w : loc) vo vz vw :
  cells s !! o = Some vo -> cells s !! z = Some vz ->
  cells s !! w = Some vw ->
  valid vz -> big.fform vz = big.finite -> big.neg vz = false ->
  big.fform vw = big.zero ->
  exists s',
    Pow fuel o z w s = Ret (length (cells s)) s' /\
    length (cells s) <> o /\
    cells s' !! length (cells s) = Some (big.SetPrec one53 (big.prec vz)) /\
    cells s' !! o =
      Some (if big.prec vo =? 0
            then big.SetPrec vo (Z.max (big.prec vz) (big.prec vw))
            else vo).
Proof.
  intros Ho Hz Hw Vz Fz Nz Fw.
  pose proof (lookup_lt _ _ _ Ho) as Lo.
  pose proof (valid_prec_pos _ Vz Fz) as Pz.
  unfold Pow.
  erewrite (bind_Ret (Prec o)); [| apply run_Prec, rd_at; eassumption].
  rewrite (Pow_prefix _ s o z w vo vz vw Ho Hz Hw).
  set (p := Z.max (big.prec vz) (big.prec vw)).
  set (b := big.prec vo =? 0).
  set (s1 := if b then set_cell s o (big.SetPrec vo p) else s).
  assert (L1 : length (cells s1) = length (cells s))
    by apply length_maybe_set.
  destruct (lookup_maybe_SetPrec s o vo p b z vz Ho Hz) as (vz1 & Hz1 & Ez).
  destruct (lookup_maybe_SetPrec s o vo p b w vw Ho Hw) as (vw1 & Hw1 & Ew).
  fold s1 in Hz1, Hw1.
  assert (Ez' : vz1 = vz).
  { destruct Ez as [|(Hb & _ & <-)]; [done|]. subst b.
    apply Z.eqb_eq in Hb. congruence. }
  subst vz1.
  pose proof (lookup_lt _ _ _ Hz1) as Lz1.
  assert (Sw : big.Sign vw1 = 0).
  { destruct Ew as [->|(_ & -> & _)]; unfold big.Sign.
    - by rewrite Fw.
    - by rewrite fform_SetPrec_zero. }
  assert (Ho1 : cells s1 !! o = Some (if b then big.SetPrec vo p else vo)).
  { subst s1. destruct b; [lk | done]. }
  erewrite (bind_Ret (Signbit z)); [| apply run_Signbit, rd_at; eassumption].
  rewrite Nz.
  erewrite (bind_Ret (Sign w)); [| apply run_Sign, rd_at; eassumption].
  rewrite Sw. change (0 =? 0) with true. cbv iota.
  rewrite (bind_Ret _ _ _ _ _ (run_NewFloat_1 s1)).
  erewrite (bind_Ret (Prec z));
    [| apply run_Prec, rd_at; rewrite lookup_push_old by lia; eassumption].
  erewrite run_SetPrec by (apply lookup_push_at; reflexivity).
  rewrite L1. eexists. split; [reflexivity|].
  split; [lia|]. split.
  - rewrite lookup_set_eq by (len; lia). reflexivity.
  - rewrite lookup_set_ne by lia. rewrite lookup_push_old by lia. exact Ho1.
Qed.

(** [Pow] with base +Inf and a nonzero exponent returns +Inf. *)
Lemma Pow_inf_base_nonzero fuel s (o z w : loc) vo vz vw :
  cells s !! o = Some vo -> cells s !! z = Some vz ->
  cells s !! w = Some vw ->
  valid vz -> valid vw ->
  big.fform vz = big.inf -> big.neg vz = false -> big.Sign vw <> 0 ->
  exists r s' v,
    Pow fuel o z w s = Ret r s' /\ cells s' !! r = Some v /\
    big.fform v = big.inf /\ big.neg v = false.
Proof.
  intros Ho Hz Hw Vz Vw Fz Nz Sw.
  pose proof (lookup_lt _ _ _ Ho) as Lo.
  unfold Pow.
  erewrite (bind_Ret (Prec o)); [| apply run_Prec, rd_at; eassumption].
  rewrite (Pow_prefix _ s o z w vo vz vw Ho Hz Hw).
  set (p := Z.max (big.prec vz) (big.prec vw)).
  set (b := big.prec vo =? 0).
  set (s1 := if b then set_cell s o (big.SetPrec vo p) else s).
  assert (L1 : length (cells s1) = length (cells s))
    by apply length_maybe_set.
  destruct (lookup_maybe_SetPrec s o vo p b z vz Ho Hz) as (vz1 & Hz1 & Ez).
  destruct (lookup_maybe_SetPrec s o vo p b w vw Ho Hw) as (vw1 & Hw1 & Ew).
  fold s1 in Hz1, Hw1.
  assert (Fz1 : big.fform vz1 = big.inf /\ big.neg vz1 = false).
  { destruct Ez as [->|(_ & -> & _)]; [done|].
    by rewrite fform_SetPrec_inf, neg_SetPrec. }
  assert (Sw1 : big.Sign vw1 <> 0).
  { destruct Ew as [->|(_ & -> & _)]; [done|].
    rewrite Sign_SetPrec; [done|]. intros Fw.
    pose proof (valid_prec_pos _ Vw Fw). destruct Vz as [? _], Vw as [? _].
    subst p. lia. }
  destruct Fz1 as [Fz1 Nz1].
  erewrite (bind_Ret (Signbit z)); [| apply run_Signbit, rd_at; eassumption].
  rewrite Nz1.
  erewrite (bind_Ret (Sign w)); [| apply run_Sign, rd_at; eassumption].
  destruct (Z.eqb_spec (big.Sign vw1) 0) as [|_]; [contradiction|].
  rewrite (bind_Ret _ _ _ _ _ (run_NewFloat_1 s1)).
  erewrite (bind_Ret (Cmp w _));
    [| apply run_Cmp; apply rd_at;
       [rewrite lookup_push_old by (apply lookup_lt in Hw1; lia); eassumption
       | apply lookup_push_at; reflexivity] ].
  assert (Hstop :
    forall c : Z,
      (if c =? 0 then ret true else IsInf z) (push s1 one53)
      = Ret true (push s1 one53)).
  { intros c. destruct (c =? 0); [reflexivity|].
    erewrite run_IsInf;
      [| apply rd_at; rewrite lookup_push_old
           by (apply lookup_lt in Hz1; lia); eassumption].
    unfold big.IsInf. by rewrite Fz1. }
  rewrite (bind_Ret _ _ _ _ _ (Hstop _)).
  rewrite (bind_Ret _ _ _ _ _ (run_new _)).
  erewrite run_Copy;
    [| apply rd_at; rewrite !lookup_push_old
         by (apply lookup_lt in Hz1; len; lia); eassumption
     | apply lookup_push_at; reflexivity].
  eexists _, _, vz1. split; [reflexivity|].
  split; [apply lookup_set_eq; len; lia | done].
Qed.


(** ** Log *)

Lemma run_NewFloat_2 s :
  NewFloat f64_2 s = Ret (length (cells s)) (push s two53).
Proof. apply run_NewFloat; [discriminate | vm_compute; reflexivity]. Qed.

Lemma run_NewFloat_4 s :
  NewFloat f64_4 s = Ret (length (cells s)) (push s four53).
Proof. apply run_NewFloat; [discriminate | vm_compute; reflexivity]. Qed.

(** The first statement of [Log]: a destination of precision 0 takes the
    precision of [z]. *)
Lemma Log_prefix {B} (K : M B) s (o z : loc) vo vz :
  cells s !! o = Some vo -> cells s !! z = Some vz ->
  (let* _ := if big.prec vo =? 0 then
               let* pz := Prec z in SetPrec o pz
             else ret o in K) s
  = K (if big.prec vo =? 0
       then set_cell s o (big.SetPrec vo (big.prec vz))
       else s).
Proof.
  intros Ho Hz.
  destruct (big.prec vo =? 0); [|reflexivity].
  unfold bind at 1.
  erewrite (bind_Ret (Prec z)); [| apply run_Prec, rd_at; eassumption].
  by erewrite run_SetPrec by eassumption.
Qed.

Lemma Log_negative fuel s (o z : loc) vo vz :
  cells s !! o = Some vo -> cells s !! z = Some vz ->
  big.Signbit vz = true ->
  Log fuel o z s = Panic (ErrNaN "Log: argument is negative").
Proof.
  intros Ho Hz Nz. unfold Log.
  erewrite (bind_Ret (Prec o)); [| apply run_Prec, rd_at; eassumption].
  rewrite (Log_prefix _ s o z vo vz Ho Hz).
  destruct (lookup_maybe_SetPrec s o vo (big.prec vz) (big.prec vo =? 0)
              z vz Ho Hz) as (vz1 & Hz1 & Ez).
  erewrite (bind_Ret (Signbit z)); [| apply run_Signbit, rd_at; eassumption].
  assert (big.neg vz1 = true) as ->; [|reflexivity].
  destruct Ez as [->|(_ & -> & _)]; [done | by rewrite neg_SetPrec].
Qed.

Lemma Log_nonnegative_quiet fuel s (o z : loc) vo vz msg :
  cells s !! o = Some vo -> cells s !! z = Some vz ->
  big.Signbit vz = false ->
  Log fuel o z s <> Panic (ErrNaN msg).
Proof.
  intros Ho Hz Nz. unfold Log.
  erewrite (bind_Ret (Prec o)); [| apply run_Prec, rd_at; eassumption].
  rewrite (Log_prefix _ s o z vo vz Ho Hz).
  destruct (lookup_maybe_SetPrec s o vo (big.prec vz) (big.prec vo =? 0)
              z vz Ho Hz) as (vz1 & Hz1 & Ez).
  erewrite (bind_Ret (Signbit z)); [| apply run_Signbit, rd_at; eassumption].
  assert (big.neg vz1 = false) as ->.
  { destruct Ez as [->|(_ & -> & _)]; [done | by rewrite neg_SetPrec]. }
  match goal with |- ?m ?s <> _ => cut (quiet m); [intros Q; apply Q|] end.
  quiet_tac.
Qed.

Lemma Log_zero fuel s (o z : loc) vo vz :
  cells s !! o = Some vo -> cells s !! z = Some vz ->
  big.fform vz = big.zero -> big.neg vz = false ->
  exists s' v,
    Log fuel o z s = Ret o s' /\ cells s' !! o = Some v /\
    big.fform v = big.inf /\ big.neg v = true.
Proof.
  intros Ho Hz Fz Nz. unfold Log.
  erewrite (bind_Ret (Prec o)); [| apply run_Prec, rd_at; eassumption].
  rewrite (Log_prefix _ s o z vo vz Ho Hz).
  set (b := big.prec vo =? 0).
  destruct (lookup_maybe_SetPrec s o vo (big.prec vz) b z vz Ho Hz)
    as (vz1 & Hz1 & Ez).
  destruct (lookup_maybe_SetPrec s o vo (big.prec vz) b o vo Ho Ho)
    as (vo1 & Ho1 & _).
  pose proof (lookup_lt _ _ _ Ho1) as Lo1.
  assert (P1 : big.neg vz1 = false /\ big.fform vz1 = big.zero).
  { destruct Ez as [->|(_ & -> & _)]; [done|].
    by rewrite neg_SetPrec, fform_SetPrec_zero. }
  destruct P1 as [Nz1 Fz1].
  erewrite (bind_Ret (Signbit z)); [| apply run_Signbit, rd_at; eassumption].
  rewrite Nz1.
  erewrite (bind_Ret (Sign z)); [| apply run_Sign, rd_at; eassumption].
  unfold big.Sign at 1. rewrite Fz1. change (0 =? 0) with true. cbv iota.
  erewrite run_SetInf by eassumption.
  eexists _, _. split; [reflexivity|]. split; [by apply lookup_set_eq|].
  done.
Qed.

Lemma Log_inf fuel s (o z : loc) vo vz :
  cells s !! o = Some vo -> cells s !! z = Some vz ->
  big.fform vz = big.inf -> big.neg vz = false ->
  exists s' v,
    Log fuel o z s = Ret o s' /\ cells s' !! o = Some v /\
    big.fform v = big.inf /\ big.neg v = false.
Proof.
  intros Ho Hz Fz Nz. unfold Log.
  erewrite (bind_Ret (Prec o)); [| apply run_Prec, rd_at; eassumption].
  rewrite (Log_prefix _ s o z vo vz Ho Hz).
  set (b := big.prec vo =? 0).
  destruct (lookup_maybe_SetPrec s o vo (big.prec vz) b z vz Ho Hz)
    as (vz1 & Hz1 & Ez).
  destruct (lookup_maybe_SetPrec s o vo (big.prec vz) b o vo Ho Ho)
    as (vo1 & Ho1 & _).
  pose proof (lookup_lt _ _ _ Ho1) as Lo1.
  assert (P1 : big.neg vz1 = false /\ big.fform vz1 = big.inf).
  { destruct Ez as [->|(_ & -> & _)]; [done|].
    by rewrite neg_SetPrec, fform_SetPrec_inf. }
  destruct P1 as [Nz1 Fz1].
  erewrite (bind_Ret (Signbit z)); [| apply run_Signbit, rd_at; eassumption].
  rewrite Nz1.
  erewrite (bind_Ret (Sign z)); [| apply run_Sign, rd_at; eassumption].
  unfold big.Sign at 1. rewrite Fz1, Nz1. change (1 =? 0) with false.
  cbv iota.
  erewrite (bind_Ret (IsInf z)); [| apply run_IsInf, rd_at; eassumption].
  unfold big.IsInf at 1. rewrite Fz1.
  erewrite run_Set; [| apply rd_at; eassumption | eassumption].
  eexists _, _. split; [reflexivity|]. split; [by apply lookup_set_eq|].
  rewrite Set_nonfinite by (rewrite Fz1; discriminate).
  cbn. by rewrite Fz1, Nz1.
Qed.

(** [Log] of the value 1: the comparison with 1 short-circuits to +0 at the
    destination's precision. *)
Lemma Log_one fuel s (o z : loc) vo vz :
  cells s !! o = Some vo -> cells s !! z = Some vz ->
  valid vo -> valid vz -> is_one vz ->
  exists s',
    Log fuel o z s = Ret o s' /\
    (length (cells s) <= length (cells s'))%nat /\
    piCache s' = piCache s /\ enablePiCache s' = enablePiCache s /\
    (forall l, (l < length (cells s))%nat -> l <> o ->
               cells s' !! l = cells s !! l) /\
    cells s' !! o =
      Some (big.mk_zero
              (if big.prec vo =? 0 then big.prec vz else big.prec vo)
              (big.mode vo) false).
Proof.
  intros Ho Hz Vo Vz Iz.
  pose proof Iz as (Fz & Nz & Xz & Mz).
  pose proof (valid_prec_pos _ Vz Fz) as Pz.
  destruct Vz as [Bz Vz]. rewrite Fz in Vz. destruct Vo as [Bo _].
  pose proof (lookup_lt _ _ _ Ho) as Lo. pose proof (lookup_lt _ _ _ Hz) as Lz.
  unfold Log.
  erewrite (bind_Ret (Prec o)); [| apply run_Prec, rd_at; eassumption].
  rewrite (Log_prefix _ s o z vo vz Ho Hz).
  set (b := big.prec vo =? 0). set (p := big.prec vz).
  set (s1 := if b then set_cell s o (big.SetPrec vo p) else s).
  assert (L1 : length (cells s1) = length (cells s))
    by apply length_maybe_set.
  destruct (lookup_maybe_SetPrec s o vo p b z vz Ho Hz) as (vz1 & Hz1 & Ez).
  fold s1 in Hz1.
  assert (vz1 = vz) as ->.
  { destruct Ez as [|(Hb & _ & <-)]; [done|]. subst b.
    apply Z.eqb_eq in Hb. congruence. }
  assert (Ho1 : cells s1 !! o = Some (if b then big.SetPrec vo p else vo)).
  { subst s1. destruct b; [lk | done]. }
  set (vo1 := if b then big.SetPrec vo p else vo) in *.
  assert (Po1 : big.prec vo1 = if b then p else big.prec vo).
  { subst vo1. destruct b; [|done]. rewrite prec_SetPrec by done.
    apply clamp_valid. subst p; lia. }
  assert (Mo1 : big.mode vo1 = big.mode vo).
  { subst vo1. destruct b; [apply mode_SetPrec | done]. }
  assert (Bo1 : 1 <= big.prec vo1 <= big.MaxPrec).
  { rewrite Po1. subst b p. destruct (Z.eqb_spec (big.prec vo) 0); lia. }
  erewrite (bind_Ret (Signbit z)); [| apply run_Signbit, rd_at; eassumption].
  rewrite Nz.
  erewrite (bind_Ret (Sign z)); [| apply run_Sign, rd_at; eassumption].
  unfold big.Sign at 1. rewrite Fz, Nz. change (1 =? 0) with false.
  cbv iota.
  erewrite (bind_Ret (IsInf z)); [| apply run_IsInf, rd_at; eassumption].
  unfold big.IsInf at 1. rewrite Fz.
  erewrite (bind_Ret (Prec o)); [| apply run_Prec, rd_at; eassumption].
  rewrite (uint_prec_add (big.prec vo1) 64) by lia.
  set (P := big.prec vo1 + 64).
  rewrite (bind_Ret _ _ _ _ _ (run_NewFloat_1 _)).
  erewrite (bind_Ret (SetPrec _ _)); [| apply run_SetPrec; lk].
  rewrite (bind_Ret _ _ _ _ _ (run_NewFloat_2 _)).
  erewrite (bind_Ret (SetPrec _ _)); [| apply run_SetPrec; lk].
  rewrite (bind_Ret _ _ _ _ _ (run_NewFloat_4 _)).
  erewrite (bind_Ret (SetPrec _ _)); [| apply run_SetPrec; lk].
  erewrite (bind_Ret (Cmp _ _)); [| apply run_Cmp; apply rd_at; lk].
  rewrite SetPrec_one53 by (subst P; lia).
  rewrite Cmp_one; [| done | lia | unfold clamp, P;
    destruct (big.MaxPrec <? _); [rewrite MaxPrec_val|]; lia].
  change (0 =? 1) with false. change (0 =? -1) with false.
  change (0 =? 0) with true. cbv iota.
  erewrite run_Set; [| apply rd_global | lk].
  eexists. split; [reflexivity|].
  split; [len; lia|].
  split; [subst s1; destruct b; reflexivity|].
  split; [subst s1; destruct b; reflexivity|].
  split.
  - intros l Hl Hlo. rewrite lookup_set_ne by done. lk_frame.
    subst s1. destruct b; [by rewrite lookup_set_ne | done].
  - rewrite lookup_set_eq by (len; lia).
    rewrite Set_nonfinite by discriminate. rewrite Po1, Mo1.
    unfold gzero, big.new, big.mk_zero. cbn [big.prec big.fform big.neg].
    subst b p. destruct (Z.eqb_spec (big.prec vo) 0) as [E|E].
    + destruct (Z.eqb_spec (big.prec vz) 0); [lia | reflexivity].
    + destruct (Z.eqb_spec (big.prec vo) 0); [lia | reflexivity].
Qed.


(** ** Exp *)

Lemma f64_1_eq : f64_1 = S754_finite false 4503599627370496 (-52).
Proof. reflexivity. Qed.

(** [z.SetFloat64(1)] at any precision *)
Lemma SetFloat64_one v :
  1 <= big.prec v ->
  big_conv.SetFloat64 v f64_1 =
  ok (big.mkFloat (big.prec v) (big.mode v) big.finite false
        (2 ^ (big.prec v - 1)) 1).
Proof.
  intros Hp. rewrite f64_1_eq. unfold big_conv.SetFloat64.
  destruct (Z.eqb_spec (big.prec v) 0) as [|_]; [lia|].
  set (p := big.prec v) in *. f_equal.
  change (Z.pos 4503599627370496) with (2 ^ 52).
  rewrite bitlen_pow2 by lia. change (-52 + (52 + 1)) with 1.
  unfold big.round. rewrite bitlen_pow2 by lia.
  destruct (Z.leb_spec (52 + 1) p) as [Hle|Hlt].
  - f_equal. rewrite <- Z.pow_add_r by lia. f_equal. lia.
  - assert (E : 2 ^ 52 = 2 ^ (p - 1) * 2 ^ (52 + 1 - p)).
    { rewrite <- Z.pow_add_r by lia. f_equal. lia. }
    assert (Hpos : 0 < 2 ^ (52 + 1 - p)) by (apply Z.pow_pos_nonneg; lia).
    assert (Hq : 2 ^ 52 / 2 ^ (52 + 1 - p) = 2 ^ (p - 1)).
    { rewrite E. apply Z.div_mul. lia. }
    assert (Hr : 2 ^ 52 mod 2 ^ (52 + 1 - p) = 0).
    { rewrite E. apply Z.mod_mul. lia. }
    rewrite Hq, Hr.
    assert (Hh : 0 < 2 ^ (52 + 1 - p - 1)) by (apply Z.pow_pos_nonneg; lia).
    destruct (Z.leb_spec (2 ^ (52 + 1 - p - 1)) 0); [lia|].
    reflexivity.
Qed.

(** [Exp] of a zero is 1 at the destination's precision. *)
Lemma Exp_zero fuel s (o z : loc) vo vz :
  cells s !! o = Some vo -> cells s !! z = Some vz ->
  big.fform vz = big.zero -> 1 <= big.prec vo ->
  Exp (S fuel) o z s =
  Ret o (set_cell s o
           (big.mkFloat (big.prec vo) (big.mode vo) big.finite false
              (2 ^ (big.prec vo - 1)) 1)).
Proof.
  intros Ho Hz Fz Hp. cbn [Exp].
  erewrite (bind_Ret (Prec o)); [| apply run_Prec, rd_at; eassumption].
  destruct (Z.eqb_spec (big.prec vo) 0) as [|_]; [lia|].
  rewrite (bind_Ret (ret o) _ s o s eq_refl).
  erewrite (bind_Ret (Sign z)); [| apply run_Sign, rd_at; eassumption].
  unfold big.Sign at 1. rewrite Fz. change (0 =? 0) with true. cbv iota.
  erewrite run_SetFloat64; [reflexivity | eassumption |].
  by apply SetFloat64_one.
Qed.

(** The round trip through [Log] and [Exp] at the value 1. *)
Lemma Exp_Log_one fuel1 fuel2 s (x d1 d2 : loc) vx v1 v2 p :
  cells s !! x = Some vx -> cells s !! d1 = Some v1 ->
  cells s !! d2 = Some v2 ->
  valid vx -> valid v1 -> is_one vx ->
  big.prec v1 = p -> big.prec v2 = p -> 1 <= p ->
  exists s1 s2,
    Log fuel1 d1 x s = Ret d1 s1 /\
    Exp (S fuel2) d2 d1 s1 = Ret d2 s2 /\
    cells s2 !! d2 =
      Some (big.mkFloat p (big.mode v2) big.finite false (2 ^ (p - 1)) 1).
Proof.
  intros Hx H1 H2 Vx V1 Ix P1 P2 Hp.
  destruct (Log_one fuel1 s d1 x v1 vx H1 Hx V1 Vx Ix)
    as (s1 & HL & Hlen & _ & _ & Hframe & Hd1).
  destruct (Z.eqb_spec (big.prec v1) 0) as [|_]; [lia|].
  pose proof (lookup_lt _ _ _ H1). pose proof (lookup_lt _ _ _ H2).
  assert (exists v2', cells s1 !! d2 = Some v2' /\ big.prec v2' = p /\
                      big.mode v2' = big.mode v2) as (v2' & H2' & P2' & M2').
  { destruct (decide (d2 = d1)) as [->|Hne].
    - eexists. split; [exact Hd1|]. cbn. split; [done|]. congruence.
    - exists v2. rewrite Hframe by done. done. }
  exists s1. eexists. split; [exact HL|]. split.
  - eapply Exp_zero; [exact H2' | exact Hd1 | reflexivity | lia].
  - rewrite lookup_set_eq by (apply lookup_lt in H2'; done).
    by rewrite P2', M2'.
Qed.


(** ** Round *)

Lemma set_set s l v v' : set_cell (set_cell s l v) l v' = set_cell s l v'.
Proof. unfold set_cell; cbn. f_equal. apply list_insert_insert_eq. Qed.

Lemma run_Set_global z g s vz :
  cells s !! z = Some vz ->
  Set_ z (global g) s = Ret z (set_cell s z (big.Set_ vz g)).
Proof. intros. eapply run_Set; [apply rd_global | done]. Qed.

(** [Round] on the store does to a destination other than [z] what
    [Round_value] says. *)
Lemma Round_run s (o z : loc) vo vz mode :
  cells s !! o = Some vo -> cells s !! z = Some vz -> o <> z ->
  Round o z mode s = Ret o (set_cell s o (Round_value vo vz mode)).
Proof.
  intros Ho Hz Hne. pose proof (lookup_lt _ _ _ Ho) as Lo.
  unfold Round, Round_value.
  erewrite (bind_Ret (IsInt z)); [| apply run_IsInt, rd_at; eassumption].
  erewrite (bind_Ret (IsInf z)); [| apply run_IsInf, rd_at; eassumption].
  destruct (big.IsInt vz || big.IsInf vz).
  { erewrite run_Set; [reflexivity | apply rd_at |]; eassumption. }
  erewrite (bind_Ret (Prec o)); [| apply run_Prec, rd_at; eassumption].
  rewrite (Log_prefix _ s o z vo vz Ho Hz).
  set (b := big.prec vo =? 0).
  set (vo1 := if b then big.SetPrec vo (big.prec vz) else vo).
  set (s1 := if b then set_cell s o (big.SetPrec vo (big.prec vz)) else s).
  assert (Ho1 : cells s1 !! o = Some vo1).
  { subst s1 vo1. destruct b; [lk | done]. }
  assert (Hz1 : cells s1 !! z = Some vz).
  { subst s1. destruct b; [lk | done]. }
  assert (Hs1 : forall v, set_cell s1 o v = set_cell s o v).
  { intros v. subst s1. destruct b; [apply set_set | done]. }
  pose proof (lookup_lt _ _ _ Ho1) as Lo1.
  erewrite (bind_Ret (MantExp _ _));
    [| apply run_MantExp_nil, rd_at; eassumption].
  destruct (big.MantExp_exp vz <=? 0).
  { unfold round0even, round0away, big.Signbit.
    destruct mode;
      repeat first
        [ erewrite (bind_Ret (Signbit z));
            [| apply run_Signbit, rd_at; eassumption]
        | erewrite (bind_Ret (Cmp z _));
            [| apply run_Cmp; [apply rd_at; eassumption | apply rd_global]]
        | match goal with
          | |- context [if ?c then _ else _] => destruct c
          end
        | erewrite run_Set_global by eassumption ];
      by rewrite Hs1. }
  erewrite (bind_Ret (Prec o)); [| apply run_Prec, rd_at; eassumption].
  destruct (big.prec vo1 <=? big.MantExp_exp vz).
  { erewrite run_Set; [by rewrite Hs1 | apply rd_at |]; eassumption. }
  erewrite (bind_Ret (Mode o)); [| apply run_Mode, rd_at; eassumption].
  erewrite (bind_Ret (SetMode _ _)); [| apply run_SetMode; eassumption].
  erewrite (bind_Ret (Prec o)); [| apply run_Prec, rd_at; lk].
  erewrite (bind_Ret (SetPrec _ _)); [| apply run_SetPrec; lk].
  erewrite (bind_Ret (Set_ _ _)); [| apply run_Set; [apply rd_at|]; lk].
  erewrite (bind_Ret (SetPrec _ _)); [| apply run_SetPrec; lk].
  erewrite (bind_Ret (SetMode _ _)); [| apply run_SetMode; lk].
  rewrite !set_set, Hs1. reflexivity.
Qed.

Lemma Set_as z x :
  big.Set_ z x = big.Set_ (big.mk_zero (big.prec z) (big.mode z) false) x.
Proof. reflexivity. Qed.

(** After [SetMode] and [SetPrec], [Set] sees only the new precision and
    mode of its receiver. *)
Lemma Set_shrunk vo mode e x :
  e <> 0 -> clamp e = e ->
  big.Set_ (big.SetPrec (big.SetMode vo mode) e) x
  = big.Set_ (big.mk_zero e mode false) x.
Proof.
  intros He Hc. rewrite Set_as. by rewrite prec_SetPrec, mode_SetPrec, Hc.
Qed.

(** The rows of the table at precision 53: the result does not depend on
    what the destination held, nor on its rounding mode. *)
Lemma Round_value_table vo :
  big.prec vo = 53 ->
  let md := big.mode vo in
  let f m e := dyadic 53 big.ToNearestEven m e in
  Round_value vo (f 1 (-1)) big.ToNearestEven = dyadic 53 md 0 0 /\
  Round_value vo (f 3 (-1)) big.ToNearestEven = dyadic 53 md 2 0 /\
  Round_value vo (f 5 (-1)) big.ToNearestEven = dyadic 53 md 2 0 /\
  Round_value vo (f 1 (-1)) big.ToNearestAway = dyadic 53 md 1 0 /\
  Round_value vo (f (-1) (-1)) big.AwayFromZero = dyadic 53 md (-1) 0 /\
  Round_value vo (f 1 (-2)) big.ToZero = dyadic 53 md 0 0 /\
  Round_value vo (f (-1) (-2)) big.ToPositiveInf = dyadic 53 md 0 0.
Proof.
  intros Hp md f. subst md f.
  assert (Hbig : forall mode m e,
    big.IsInt (dyadic 53 big.ToNearestEven m e)
      || big.IsInf (dyadic 53 big.ToNearestEven m e) = false ->
    (big.MantExp_exp (dyadic 53 big.ToNearestEven m e) <=? 0) = false ->
    (53 <=? big.MantExp_exp (dyadic 53 big.ToNearestEven m e)) = false ->
    Round_value vo (dyadic 53 big.ToNearestEven m e) mode =
    big.SetMode
      (big.SetPrec
         (big.Set_ (big.mk_zero (big.MantExp_exp (dyadic 53 big.ToNearestEven m e)) mode false)
            (dyadic 53 big.ToNearestEven m e)) 53) (big.mode vo)).
  { intros mode m e H1 H2 H3. unfold Round_value. rewrite H1, Hp.
    change (53 =? 0) with false. cbv iota. rewrite H2, Hp, H3.
    rewrite Set_shrunk; [reflexivity | |].
    - intros E. rewrite E in H2. discriminate.
    - apply clamp_valid. apply Z.leb_gt in H2, H3. rewrite MaxPrec_val. lia. }
  repeat split.
  1, 4, 5, 6, 7:
    destruct vo as [p m0 f0 n0 a0 e0]; cbn in Hp; subst p;
    (vm_compute; reflexivity).
  - rewrite Hbig by reflexivity. destruct (big.mode vo); (vm_compute; reflexivity).
  - rewrite Hbig by reflexivity. destruct (big.mode vo); (vm_compute; reflexivity).
Qed.

(** 12 into a destination of precision 1: an integer is copied through and
    rounded by the destination's own mode, whatever [mode] is passed. *)
Lemma Round_value_twelve vo mode :
  big.prec vo = 1 ->
  Round_value vo (dyadic 53 big.ToNearestEven 12 0) mode =
  match big.mode vo with
  | big.ToPositiveInf | big.AwayFromZero
  | big.ToNearestEven | big.ToNearestAway => dyadic 1 (big.mode vo) 16 0
  | big.ToNegativeInf | big.ToZero => dyadic 1 (big.mode vo) 8 0
  end.
Proof.
  intros Hp. destruct vo as [p md f0 n0 a0 e0]; cbn in Hp; subst p.
  destruct md; vm_compute; reflexivity.
Qed.


(** ** A run of AGM that cycles

    The operands are 2^64+1 and 2^64 at 65 bits.  At the working precision
    of 65 bits the two sequences settle one unit in the last place apart,
    which is 1, far above the limit 2^-2; every later pass leaves the store
    as it found it. *)

Lemma AGM_init_cycle :
  AGM_init 2%nat (at_ 0%nat) (at_ 1%nat) agm_cycle_store
  = Ret (1, 3%nat, 4%nat, 5%nat) agm_cycle_entry.
Proof. vm_compute. reflexivity. Qed.

Lemma AGM_step_entry :
  AGM_step 2%nat 3%nat 4%nat 5%nat agm_cycle_entry = Ret 1 agm_cycle_state.
Proof. vm_compute. reflexivity. Qed.

Lemma AGM_step_cycle :
  AGM_step 2%nat 3%nat 4%nat 5%nat agm_cycle_state = Ret 1 agm_cycle_state.
Proof. vm_compute. reflexivity. Qed.

Lemma AGM_loop_cycle fuel :
  AGM_loop fuel 2%nat 3%nat 4%nat 5%nat agm_cycle_state = OutOfFuel.
Proof.
  induction fuel as [|n IH]; [reflexivity|].
  cbn [AGM_loop]. rewrite (bind_Ret _ _ _ _ _ AGM_step_cycle). exact IH.
Qed.


(** ** What a computation leaves alone *)

Lemma unchanged_refl g n a s : unchanged_outside g n a s s.
Proof. by repeat split. Qed.

Lemma unchanged_trans g n a s1 s2 s3 :
  unchanged_outside g n a s1 s2 -> unchanged_outside g n a s2 s3 ->
  unchanged_outside g n a s1 s3.
Proof.
  intros (L1 & E1 & G1 & C1) (L2 & E2 & G2 & C2). repeat split.
  - lia.
  - congruence.
  - intros Hg. rewrite G2, G1; done.
  - intros l Hl Hla. rewrite C2, C1; done.
Qed.

Lemma unchanged_set g n a s z v :
  writable n a z -> unchanged_outside g n a s (set_cell s z v).
Proof.
  intros Hz. repeat split.
  - by rewrite len_set.
  - intros l Hl Hla. apply lookup_set_ne. destruct Hz; [congruence | lia].
Qed.

Lemma unchanged_push g n a s v :
  (n <= length (cells s))%nat -> unchanged_outside g n a s (push s v).
Proof.
  intros Hn. repeat split.
  - rewrite len_push. lia.
  - intros l Hl Hla. apply lookup_push_old. lia.
Qed.

Lemma local_ret g n a {A} (x : A) (Q : A -> Prop) :
  Q x -> local g n a (ret x) Q.
Proof. intros HQ s r s' _ [= <- <-]. split; [apply unchanged_refl | done]. Qed.

Lemma local_bind g n a {A B} (m : M A) (k : A -> M B) Q R :
  local g n a m Q -> (forall x, Q x -> local g n a (k x) R) ->
  local g n a (bind m k) R.
Proof.
  intros Hm Hk s r s' Hn H.
  destruct (bind_inv _ _ _ _ _ H) as (x & s1 & H1 & H2).
  destruct (Hm _ _ _ Hn H1) as [U1 Qx].
  assert (Hn1 : (n <= length (cells s1))%nat) by (destruct U1; lia).
  destruct (Hk x Qx _ _ _ Hn1 H2) as [U2 Rr].
  split; [by eapply unchanged_trans | done].
Qed.

Lemma local_weaken g n a {A} (m : M A) (Q R : A -> Prop) :
  (forall x, Q x -> R x) -> local g n a m Q -> local g n a m R.
Proof. intros HQR Hm s r s' Hn H. destruct (Hm _ _ _ Hn H). auto. Qed.

Lemma local_throw g n a {A} p (Q : A -> Prop) : local g n a (throw p) Q.
Proof. intros s r s' _ [=]. Qed.

Lemma local_out_of_fuel g n a {A} (Q : A -> Prop) :
  local g n a out_of_fuel Q.
Proof. intros s r s' _ [=]. Qed.

Lemma local_load g n a l : local g n a (load l) (fun _ => True).
Proof.
  intros s r s' _. unfold load. destruct (cells s !! l); intros [=]; subst.
  split; [apply unchanged_refl | done].
Qed.

Lemma local_rd g n a x : local g n a (rd x) (fun _ => True).
Proof. destruct x; [apply local_load | by apply local_ret]. Qed.

Lemma local_get g n a {A} (f : big.Float -> A) x :
  local g n a (get f x) (fun _ => True).
Proof.
  unfold get. eapply local_bind; [apply local_rd|].
  intros v _. by apply local_ret.
Qed.

Lemma local_Cmp g n a x y : local g n a (Cmp x y) (fun _ => True).
Proof.
  unfold Cmp. eapply local_bind; [apply local_rd|]. intros vx _.
  eapply local_bind; [apply local_rd|]. intros vy _. by apply local_ret.
Qed.

Lemma local_store g n a z v :
  writable n a z -> local g n a (store z v) (fun _ => True).
Proof.
  intros Hz s r s' _ [= <- <-]. split; [by apply unchanged_set | done].
Qed.

Lemma local_alloc g n a v : local g n a (alloc v) (fun r => (n <= r)%nat).
Proof.
  intros s r s' Hn [= <- <-]. split; [by apply unchanged_push | done].
Qed.

Lemma local_new g n a : local g n a new (fun r => (n <= r)%nat).
Proof. apply local_alloc. Qed.

Lemma local_upd g n a z f :
  writable n a z -> local g n a (upd z f) (fun r => r = z).
Proof.
  intros Hz. unfold upd. eapply local_bind; [apply local_load|].
  intros vz _. eapply local_bind with (Q := fun _ => True).
  { destruct (f vz);
      [by apply local_ret | apply local_throw | apply local_out_of_fuel]. }
  intros v _. eapply local_bind; [by apply local_store|].
  intros _ _. by apply local_ret.
Qed.

Lemma local_upd1 g n a z x f :
  writable n a z -> local g n a (upd1 z x f) (fun r => r = z).
Proof.
  intros Hz. unfold upd1. eapply local_bind; [apply local_rd|].
  intros vx _. by apply local_upd.
Qed.

Lemma local_upd2 g n a z x y f :
  writable n a z -> local g n a (upd2 z x y f) (fun r => r = z).
Proof.
  intros Hz. unfold upd2. eapply local_bind; [apply local_rd|].
  intros vx _. eapply local_bind; [apply local_rd|].
  intros vy _. by apply local_upd.
Qed.

Lemma writable_self n a : writable n a a.
Proof. by left. Qed.

Lemma writable_fresh n a l : (n <= l)%nat -> writable n a l.
Proof. by right. Qed.

Create HintDb local.
#[export] Hint Resolve writable_self writable_fresh local_throw
  local_out_of_fuel local_rd local_new : local.
#[export] Hint Extern 1 (local _ _ _ (Prec _) _) => apply local_get : local.
#[export] Hint Extern 1 (local _ _ _ (Mode _) _) => apply local_get : local.
#[export] Hint Extern 1 (local _ _ _ (Sign _) _) => apply local_get : local.
#[export] Hint Extern 1 (local _ _ _ (Signbit _) _) => apply local_get : local.
#[export] Hint Extern 1 (local _ _ _ (IsInf _) _) => apply local_get : local.
#[export] Hint Extern 1 (local _ _ _ (IsInt _) _) => apply local_get : local.
#[export] Hint Extern 1 (local _ _ _ (Cmp _ _) _) => apply local_Cmp : local.
#[export] Hint Extern 1 (local _ _ _ (SetPrec _ _) _) =>
  apply local_upd : local.
#[export] Hint Extern 1 (local _ _ _ (SetMode _ _) _) =>
  apply local_upd : local.
#[export] Hint Extern 1 (local _ _ _ (SetInf _ _) _) =>
  apply local_upd : local.
#[export] Hint Extern 1 (local _ _ _ (SetFloat64 _ _) _) =>
  apply local_upd : local.
#[export] Hint Extern 1 (local _ _ _ (Set_ _ _) _) => apply local_upd1 : local.
#[export] Hint Extern 1 (local _ _ _ (Copy _ _) _) => apply local_upd1 : local.
#[export] Hint Extern 1 (local _ _ _ (Neg _ _) _) => apply local_upd1 : local.
#[export] Hint Extern 1 (local _ _ _ (Sqrt _ _) _) => apply local_upd1 : local.
#[export] Hint Extern 1 (local _ _ _ (SetMantExp _ _ _) _) =>
  apply local_upd1 : local.
#[export] Hint Extern 1 (local _ _ _ (Add _ _ _) _) => apply local_upd2 : local.
#[export] Hint Extern 1 (local _ _ _ (Sub _ _ _) _) => apply local_upd2 : local.
#[export] Hint Extern 1 (local _ _ _ (Mul _ _ _) _) => apply local_upd2 : local.
#[export] Hint Extern 1 (local _ _ _ (Quo _ _ _) _) => apply local_upd2 : local.

(** one step through a chain of binds: the first computation by the hints,
    its result named in the continuation *)
Ltac local_step :=
  match goal with
  | |- local _ _ _ (bind _ _) _ =>
      eapply local_bind;
        [ solve [eauto with local]
        | let H := fresh in intros ? H; cbv beta in H; try subst ]
  end.

Lemma local_NewFloat g n a x : local g n a (NewFloat x) (fun r => (n <= r)%nat).
Proof.
  unfold NewFloat.
  assert (H : local g n a (let* z := new in SetFloat64 z x)
                (fun r => (n <= r)%nat)).
  { eapply local_bind; [apply local_new|]. intros z Hz.
    eapply local_weaken; [| apply local_upd; by right].
    by intros r ->. }
  destruct x; solve [exact H | apply local_throw].
Qed.
#[export] Hint Resolve local_NewFloat : local.

Lemma local_MantExp g n a x m :
  writable n a m -> local g n a (MantExp x (Some m)) (fun _ => True).
Proof.
  intros Hm. unfold MantExp. local_step.
  eapply local_bind with (Q := fun _ => True).
  { eapply local_bind; [by apply local_store|]. intros; by apply local_ret. }
  intros; by apply local_ret.
Qed.

Lemma local_quicksh g n a o z k :
  writable n a o -> local g n a (quicksh o z k) (fun r => r = o).
Proof.
  intros Ho. unfold quicksh.
  eapply local_bind; [by apply local_MantExp|]. intros e _.
  by apply local_upd1.
Qed.
#[export] Hint Extern 1 (local _ _ _ (quicksh _ _ _) _) =>
  apply local_quicksh : local.

Lemma local_piCalc_loop g n p fuel a b t x lim y :
  writable n p a -> writable n p b -> writable n p t -> writable n p x ->
  writable n p lim -> writable n p y ->
  local g n p (piCalc_loop fuel a b t x lim y) (fun _ => True).
Proof.
  intros Ha Hb Ht Hx Hl Hy.
  induction fuel as [|fuel IH]; cbn [piCalc_loop]; [apply local_out_of_fuel|].
  do 2 local_step.
  match goal with |- context [if ?c then _ else _] => destruct c end;
    [| by apply local_ret].
  do 10 local_step. exact IH.
Qed.

(** [piCalc] writes to its argument and to values it allocates, and leaves
    the pi cache as it is. *)
Lemma local_piCalc_at g n p fuel a :
  writable n p a -> local g n p (piCalc fuel a) (fun r => r = a).
Proof.
  intros Ha. unfold piCalc. repeat local_step.
  eapply local_bind; [apply local_piCalc_loop; eauto with local|].
  intros _ _. repeat local_step. eauto with local.
Qed.

Lemma local_piCalc n fuel a :
  local true n a (piCalc fuel a) (fun r => r = a).
Proof. apply local_piCalc_at. by left. Qed.


(** ** The precision of the cached value *)

Lemma bind_post {A B} (m : M A) (k : A -> M B) s r s' (P : Prop) :
  (forall x s1, m s = Ret x s1 -> k x s1 = Ret r s' -> P) ->
  bind m k s = Ret r s' -> P.
Proof.
  intros HP H. destruct (bind_inv _ _ _ _ _ H) as (x & s1 & H1 & H2). eauto.
Qed.

Lemma bind_assoc {A B C} (m : M A) (k1 : A -> M B) (k2 : B -> M C) s :
  bind (bind m k1) k2 s = bind m (fun x => bind (k1 x) k2) s.
Proof. unfold bind. by destruct (m s). Qed.

Lemma load_inv l s v s' :
  load l s = Ret v s' -> s' = s /\ cells s !! l = Some v.
Proof. unfold load. destruct (cells s !! l); intros [=]; by subst. Qed.

Lemma upd_inv z f s r s' :
  upd z f s = Ret r s' ->
  r = z /\ exists vz v,
    cells s !! z = Some vz /\ f vz = ok v /\ s' = set_cell s z v.
Proof.
  unfold upd. intros H.
  destruct (bind_inv _ _ _ _ _ H) as (vz & s1 & H1 & H2).
  apply load_inv in H1 as [-> Hz].
  destruct (f vz) as [v|p|] eqn:E; [|discriminate..].
  cbn in H2. injection H2 as <- <-. eauto 6.
Qed.

Lemma SetPrec_inv z p s r s' :
  SetPrec z p s = Ret r s' ->
  r = z /\ exists vz,
    cells s !! z = Some vz /\ s' = set_cell s z (big.SetPrec vz p).
Proof.
  intros H. apply upd_inv in H as (-> & vz & v & Hz & [= <-] & ->). eauto.
Qed.

Lemma prec_SetPrec_any v p :
  big.prec (big.SetPrec v p) = if p =? 0 then 0 else clamp p.
Proof.
  destruct (Z.eqb_spec p 0) as [->|Hp];
    [apply prec_SetPrec_0 | by apply prec_SetPrec].
Qed.

(** [piCalc] leaves in its argument a value of the precision the argument
    had. *)
Lemma piCalc_result fuel (a : loc) s va r s' :
  cells s !! a = Some va -> piCalc fuel a s = Ret r s' ->
  exists v, cells s' !! a = Some v /\
            big.prec v = if big.prec va =? 0 then 0 else clamp (big.prec va).
Proof.
  intros Ha. unfold piCalc.
  erewrite (bind_Ret (Prec a)); [| apply run_Prec, rd_at; eassumption].
  repeat match goal with
         | |- bind _ _ _ = _ -> _ =>
             apply bind_post; intros ? ? _; cbv beta
         end.
  intros H. apply SetPrec_inv in H as (-> & vz & Hz & ->).
  eexists. split; [apply lookup_set_eq; by eapply lookup_lt|].
  apply prec_SetPrec_any.
Qed.

Lemma cache_prec_inv s p0 :
  cache_prec s = Some p0 ->
  exists c vc, piCache s = Some c /\ cells s !! c = Some vc /\
               big.prec vc = p0.
Proof.
  unfold cache_prec. destruct (piCache s) as [c|]; [|discriminate].
  destruct (cells s !! c) as [vc|] eqn:E; [|discriminate].
  cbn. intros [= <-]. by exists c, vc.
Qed.

Lemma cache_prec_intro s c vc :
  piCache s = Some c -> cells s !! c = Some vc ->
  cache_prec s = Some (big.prec vc).
Proof. unfold cache_prec. by intros -> ->. Qed.

Lemma clamp_grows p0 q :
  p0 <= big.MaxPrec -> p0 <= q ->
  p0 <= (if q =? 0 then 0 else clamp q).
Proof.
  intros H0 Hq. unfold clamp. rewrite MaxPrec_val in *.
  destruct (Z.eqb_spec q 0); [lia|].
  destruct (Z.ltb_spec 4294967295 q); lia.
Qed.

Lemma run_piCache_Load s c : piCache s = Some c -> piCache_Load s = Ret c s.
Proof. unfold piCache_Load. by intros ->. Qed.

(** A call of [Pi] that returns leaves a cache at least as precise. *)
Lemma Pi_cache_grows fuel (a : loc) s r s' p0 :
  cache_prec s = Some p0 -> p0 <= big.MaxPrec ->
  Pi fuel a s = Ret r s' ->
  exists p1, cache_prec s' = Some p1 /\ p0 <= p1.
Proof.
  intros Hc Hmax H.
  destruct (cache_prec_inv _ _ Hc) as (c & vc & Pc & Cc & <-).
  pose proof (lookup_lt _ _ _ Cc) as Lc.
  unfold Pi in H.
  destruct (cells s !! a) as [va|] eqn:Ha.
  2: { unfold Prec, get in H. cbn [rd] in H. unfold bind, load in H.
       rewrite Ha in H. discriminate. }
  pose proof (lookup_lt _ _ _ Ha) as La.
  erewrite (bind_Ret (Prec a)) in H; [| apply run_Prec, rd_at; eassumption].
  destruct (Z.eqb_spec (big.prec va) 0) as [E0|N0].
  { (* precision 0: a is set to zero *)
    erewrite run_Set in H; [| apply rd_global | eassumption].
    injection H as <- <-.
    destruct (decide (c = a)) as [->|Hne].
    - eexists. split.
      + eapply cache_prec_intro; [exact Pc | by apply lookup_set_eq].
      + rewrite prec_Set. replace vc with va by congruence.
        rewrite E0. cbn. lia.
    - exists (big.prec vc). split; [|lia].
      eapply cache_prec_intro; [exact Pc | by rewrite lookup_set_ne]. }
  rewrite (bind_Ret get_enablePiCache _ s (enablePiCache s) s eq_refl) in H.
  destruct (enablePiCache s) eqn:En.
  - unfold loadPi in H. rewrite bind_assoc in H.
    rewrite (bind_Ret _ _ _ _ _ (run_piCache_Load s c Pc)) in H.
    rewrite bind_assoc in H.
    erewrite (bind_Ret (Prec c)) in H;
      [| apply run_Prec, rd_at; eassumption].
    destruct (Z.leb_spec (big.prec va) (big.prec vc)) as [Hle|Hlt].
    + (* the cache is precise enough *)
      rewrite bind_assoc in H.
      erewrite (bind_Ret (Set_ a c)) in H;
        [| apply run_Set; [apply rd_at|]; eassumption].
      cbn in H. injection H as <- <-.
      destruct (decide (c = a)) as [->|Hne].
      * eexists. split.
        -- eapply cache_prec_intro; [exact Pc | by apply lookup_set_eq].
        -- rewrite prec_Set. replace vc with va by congruence.
           destruct (Z.eqb_spec (big.prec va) 0); lia.
      * exists (big.prec vc). split; [|lia].
        eapply cache_prec_intro; [exact Pc | by rewrite lookup_set_ne].
    + (* pi is computed and the cache replaced *)
      rewrite (bind_Ret (ret None) _ s None s eq_refl) in H.
      destruct (piCalc fuel a s) as [r1 s1| |] eqn:E;
        [| rewrite (bind_Panic _ _ _ _ E) in H; discriminate
         | rewrite (bind_OutOfFuel _ _ _ E) in H; discriminate].
      rewrite (bind_Ret _ _ _ _ _ E) in H.
      destruct (local_piCalc (length (cells s)) fuel a s r1 s1
                  (Nat.le_refl _) E) as [(L1 & E1 & G1 & F1) ->].
      destruct (piCalc_result _ _ _ _ _ _ Ha E) as (v & Hv & Pv).
      assert (Hca : c <> a) by (intros ->; replace vc with va in * by congruence; lia).
      assert (Cc1 : cells s1 !! c = Some vc) by (rewrite F1; done).
      assert (Pc1 : piCache s1 = Some c) by (rewrite G1; done).
      rewrite (bind_Ret get_enablePiCache _ s1 true s1) in H
        by (unfold get_enablePiCache; congruence).
      rewrite bind_assoc in H.
      rewrite (bind_Ret _ _ _ _ _ (run_piCache_Load s1 c Pc1)) in H.
      rewrite bind_assoc in H.
      erewrite (bind_Ret (Prec c)) in H;
        [| apply run_Prec, rd_at; eassumption].
      destruct (Z.ltb_spec (big.prec vc) (big.prec va)); [|lia].
      rewrite bind_assoc in H.
      rewrite (bind_Ret _ _ _ _ _ (run_new s1)) in H.
      rewrite bind_assoc in H.
      erewrite (bind_Ret (Copy _ _)) in H;
        [| eapply run_Copy; [apply rd_at; lk | lk]].
      cbn in H. injection H as <- <-.
      exists (big.prec v). split.
      * unfold cache_prec. cbn [piCache cells].
        rewrite list_lookup_insert_eq by (rewrite length_app; cbn; lia).
        reflexivity.
      * rewrite Pv. apply clamp_grows; lia.
  - (* the cache is disabled: pi is computed, the cache stays *)
    rewrite (bind_Ret (ret None) _ s None s eq_refl) in H.
    destruct (piCalc fuel a s) as [r1 s1| |] eqn:E;
      [| rewrite (bind_Panic _ _ _ _ E) in H; discriminate
       | rewrite (bind_OutOfFuel _ _ _ E) in H; discriminate].
    rewrite (bind_Ret _ _ _ _ _ E) in H.
    destruct (local_piCalc (length (cells s)) fuel a s r1 s1
                (Nat.le_refl _) E) as [(L1 & E1 & G1 & F1) ->].
    destruct (piCalc_result _ _ _ _ _ _ Ha E) as (v & Hv & Pv).
    rewrite (bind_Ret get_enablePiCache _ s1 false s1) in H
      by (unfold get_enablePiCache; congruence).
    cbn in H. injection H as <- <-.
    assert (Pc1 : piCache s1 = Some c) by (rewrite G1; done).
    destruct (decide (c = a)) as [->|Hne].
    + exists (big.prec v). split; [by eapply cache_prec_intro|].
      replace vc with va by congruence. rewrite Pv.
      apply clamp_grows; [|lia]. congruence.
    + exists (big.prec vc). split; [|lia].
      eapply cache_prec_intro; [done|]. by rewrite F1.
Qed.

(** A call of [cachedPi] that returns leaves a cache at least as precise. *)
Lemma cachedPi_cache_grows fuel prec s r s' p0 :
  cache_prec s = Some p0 -> p0 <= big.MaxPrec ->
  cachedPi fuel prec s = Ret r s' ->
  exists p1, cache_prec s' = Some p1 /\ p0 <= p1.
Proof.
  intros Hc Hmax H.
  destruct (cache_prec_inv _ _ Hc) as (c & vc & Pc & Cc & <-).
  pose proof (lookup_lt _ _ _ Cc) as Lc.
  unfold cachedPi in H.
  rewrite (bind_Ret get_enablePiCache _ s (enablePiCache s) s eq_refl) in H.
  destruct (enablePiCache s) eqn:En; cbn [negb] in H; cbv iota in H.
  - rewrite (bind_Ret _ _ _ _ _ (run_piCache_Load s c Pc)) in H.
    erewrite (bind_Ret (Prec c)) in H;
      [| apply run_Prec, rd_at; eassumption].
    destruct (Z.leb_spec prec (big.prec vc)) as [Hle|Hlt].
    { injection H as <- <-. exists (big.prec vc). split; [done | lia]. }
    rewrite (bind_Ret _ _ _ _ _ (run_piCache_Load s c Pc)) in H.
    erewrite (bind_Ret (Prec c)) in H;
      [| apply run_Prec, rd_at; eassumption].
    destruct (Z.leb_spec prec (big.prec vc)) as [Hle|_]; [lia|].
    rewrite (bind_Ret _ _ _ _ _ (run_new s)) in H.
    erewrite (bind_Ret (SetPrec _ _)) in H; [| apply run_SetPrec; lk].
    rewrite set_push in H.
    set (s2 := push s (big.SetPrec big.new prec)) in H.
    assert (Hn : cells s2 !! length (cells s)
                 = Some (big.SetPrec big.new prec))
      by (apply lookup_push_at; reflexivity).
    destruct (piCalc fuel (length (cells s)) s2) as [r1 s3| |] eqn:E;
      [| rewrite (bind_Panic _ _ _ _ E) in H; discriminate
       | rewrite (bind_OutOfFuel _ _ _ E) in H; discriminate].
    rewrite (bind_Ret _ _ _ _ _ E) in H.
    destruct (local_piCalc 0 fuel _ s2 r1 s3 (Nat.le_0_l _) E) as [_ ->].
    destruct (piCalc_result _ _ _ _ _ _ Hn E) as (v & Hv & Pv).
    cbn in H. injection H as <- <-.
    exists (big.prec v). split.
    + unfold cache_prec. cbn [piCache cells]. by rewrite Hv.
    + rewrite Pv, prec_SetPrec_any.
      pose proof (clamp_grows (big.prec vc) prec Hmax ltac:(lia)) as G1.
      apply clamp_grows; [done|]. exact G1.
  - rewrite (bind_Ret _ _ _ _ _ (run_new s)) in H.
    erewrite (bind_Ret (SetPrec _ _)) in H; [| apply run_SetPrec; lk].
    rewrite set_push in H.
    eapply (Pi_cache_grows fuel _ _ r s' (big.prec vc)); [| done | exact H].
    eapply cache_prec_intro; [exact Pc|].
    by rewrite lookup_push_old.
Qed.

(** A call of [Pi] that returns leaves the cache pointer as it was, or
    publishes a value allocated during the call that holds what the
    argument holds. *)
Lemma Pi_cache_fresh fuel (a : loc) s r s' :
  Pi fuel a s = Ret r s' ->
  piCache s' = piCache s \/
  exists n, piCache s' = Some n /\ (length (cells s) <= n)%nat /\ n <> a /\
            cells s' !! n = cells s' !! a.
Proof.
  intros H. unfold Pi in H.
  destruct (cells s !! a) as [va|] eqn:Ha.
  2: { unfold Prec, get in H. cbn [rd] in H. unfold bind, load in H.
       rewrite Ha in H. discriminate. }
  pose proof (lookup_lt _ _ _ Ha) as La.
  erewrite (bind_Ret (Prec a)) in H; [| apply run_Prec, rd_at; eassumption].
  destruct (Z.eqb_spec (big.prec va) 0) as [E0|N0].
  { erewrite run_Set in H; [| apply rd_global | eassumption].
    injection H as <- <-. by left. }
  rewrite (bind_Ret get_enablePiCache _ s (enablePiCache s) s eq_refl) in H.
  destruct (enablePiCache s) eqn:En.
  - unfold loadPi in H. rewrite bind_assoc in H.
    destruct (piCache s) as [c|] eqn:Pc.
    2: { unfold bind, piCache_Load in H. rewrite Pc in H. discriminate. }
    rewrite (bind_Ret _ _ _ _ _ (run_piCache_Load s c Pc)) in H.
    rewrite bind_assoc in H.
    destruct (cells s !! c) as [vc|] eqn:Cc.
    2: { unfold Prec, get in H. cbn [rd] in H. unfold bind, load in H.
         rewrite Cc in H. discriminate. }
    erewrite (bind_Ret (Prec c)) in H;
      [| apply run_Prec, rd_at; eassumption].
    destruct (Z.leb_spec (big.prec va) (big.prec vc)) as [Hle|Hlt].
    + rewrite bind_assoc in H.
      erewrite (bind_Ret (Set_ a c)) in H;
        [| apply run_Set; [apply rd_at|]; eassumption].
      cbn in H. injection H as <- <-. left. by rewrite <- Pc.
    + rewrite (bind_Ret (ret None) _ s None s eq_refl) in H.
      destruct (piCalc fuel a s) as [r1 s1| |] eqn:E;
        [| rewrite (bind_Panic _ _ _ _ E) in H; discriminate
         | rewrite (bind_OutOfFuel _ _ _ E) in H; discriminate].
      rewrite (bind_Ret _ _ _ _ _ E) in H.
      destruct (local_piCalc (length (cells s)) fuel a s r1 s1
                  (Nat.le_refl _) E) as [(L1 & E1 & G1 & F1) ->].
      destruct (piCalc_result _ _ _ _ _ _ Ha E) as (v & Hv & Pv).
      assert (Hca : c <> a)
        by (intros ->; replace vc with va in * by congruence; lia).
      pose proof (lookup_lt _ _ _ Cc) as Lc.
      assert (Cc1 : cells s1 !! c = Some vc) by (rewrite F1; done).
      assert (Pc1 : piCache s1 = Some c) by (rewrite G1; done).
      rewrite (bind_Ret get_enablePiCache _ s1 true s1) in H
        by (unfold get_enablePiCache; congruence).
      rewrite bind_assoc in H.
      rewrite (bind_Ret _ _ _ _ _ (run_piCache_Load s1 c Pc1)) in H.
      rewrite bind_assoc in H.
      erewrite (bind_Ret (Prec c)) in H;
        [| apply run_Prec, rd_at; eassumption].
      destruct (Z.ltb_spec (big.prec vc) (big.prec va)); [|lia].
      rewrite bind_assoc in H.
      rewrite (bind_Ret _ _ _ _ _ (run_new s1)) in H.
      rewrite bind_assoc in H.
      erewrite (bind_Ret (Copy _ _)) in H;
        [| eapply run_Copy; [apply rd_at; lk | lk]].
      cbn in H. injection H as <- <-.
      right. exists (length (cells s1)). cbn [piCache cells].
      split; [done|]. split; [lia|]. split; [lia|].
      rewrite list_lookup_insert_eq by (rewrite length_app; cbn; lia).
      rewrite list_lookup_insert_ne by lia.
      rewrite lookup_app_l by lia. by rewrite Hv.
  - rewrite (bind_Ret (ret None) _ s None s eq_refl) in H.
    destruct (piCalc fuel a s) as [r1 s1| |] eqn:E;
      [| rewrite (bind_Panic _ _ _ _ E) in H; discriminate
       | rewrite (bind_OutOfFuel _ _ _ E) in H; discriminate].
    rewrite (bind_Ret _ _ _ _ _ E) in H.
    destruct (local_piCalc (length (cells s)) fuel a s r1 s1
                (Nat.le_refl _) E) as [(L1 & E1 & G1 & F1) ->].
    rewrite (bind_Ret get_enablePiCache _ s1 false s1) in H
      by (unfold get_enablePiCache; congruence).
    cbn in H. injection H as <- <-. left. by apply G1.
Qed.


(** ** Operations that are exact *)

Lemma bitlen_pos c : 0 < c -> 1 <= big.bitlen c.
Proof. intros. unfold big.bitlen. pose proof (Z.log2_nonneg c). lia. Qed.

Lemma bitlen_shift c t :
  0 < c -> 0 <= t -> big.bitlen (c * 2 ^ t) = big.bitlen c + t.
Proof. intros. unfold big.bitlen. rewrite Z.log2_mul_pow2 by lia. lia. Qed.

(** A mantissa with at most [p] significant bits is not changed by
    rounding to [p] bits, in any mode. *)
Lemma round_exact p md ng c t x :
  0 < c -> 0 <= t -> big.bitlen c <= p ->
  big.round p md ng (c * 2 ^ t) x false = canon p md ng c x.
Proof.
  intros Hc Ht Hp. unfold big.round, canon.
  rewrite bitlen_shift by done.
  set (k := big.bitlen c) in *.
  destruct (Z.leb_spec (k + t) p) as [Hle|Hgt].
  - f_equal. rewrite <- Z.mul_assoc, <- Z.pow_add_r by lia.
    do 2 f_equal. lia.
  - set (s := k + t - p).
    assert (Hs : 0 < s <= t) by (subst s; lia).
    assert (E : c * 2 ^ t = c * 2 ^ (t - s) * 2 ^ s).
    { rewrite <- Z.mul_assoc, <- Z.pow_add_r by lia. do 2 f_equal. lia. }
    assert (P2 : 0 < 2 ^ s) by (apply Z.pow_pos_nonneg; lia).
    rewrite E, Z.div_mul, Z.mod_mul by lia.
    assert (Hh : 0 < 2 ^ (s - 1)) by (apply Z.pow_pos_nonneg; lia).
    destruct (Z.leb_spec (2 ^ (s - 1)) 0); [lia|].
    cbn [orb negb Z.eqb big.round_inc]. cbv iota.
    replace (t - s) with (p - k) by (subst s; lia). reflexivity.
Qed.

Lemma canon_mant p md ng c x :
  0 < c -> big.bitlen c <= p ->
  big.bitlen (big.mant (canon p md ng c x)) = p.
Proof.
  intros. cbn. rewrite bitlen_shift by lia. lia.
Qed.

Section Canon.
Variables (W : Z) (md : big.RoundingMode) (c : Z).
Hypothesis Hc : 0 < c.
Hypothesis HW : big.bitlen c <= W <= big.MaxPrec.

Lemma SetPrec_canon p ng x :
  big.bitlen c <= p <= big.MaxPrec ->
  big.SetPrec (canon W md ng c x) p = canon p md ng c x.
Proof.
  intros Hp. pose proof (bitlen_pos c Hc).
  unfold big.SetPrec. destruct (Z.eqb_spec p 0); [lia|].
  destruct (Z.ltb_spec big.MaxPrec p); [lia|].
  cbn [canon big.fform big.mode big.neg big.mant big.exp].
  apply round_exact; lia.
Qed.

Lemma Set_canon vz ng x :
  let P := if big.prec vz =? 0 then W else big.prec vz in
  big.bitlen c <= P ->
  big.Set_ vz (canon W md ng c x) = canon P (big.mode vz) ng c x.
Proof.
  intros P Hp. unfold big.Set_.
  cbn [canon big.fform big.mode big.neg big.mant big.exp big.prec].
  fold P. apply round_exact; lia.
Qed.

Lemma SetMantExp_canon vz ng x e :
  let P := if big.prec vz =? 0 then W else big.prec vz in
  big.bitlen c <= P ->
  big.MinExp <= x + e <= big.MaxExp ->
  big.SetMantExp vz (canon W md ng c x) e = canon P (big.mode vz) ng c (x + e).
Proof.
  intros P Hp Hx. unfold big.SetMantExp. rewrite Set_canon by done.
  fold P.
  cbn [canon big.fform big.prec big.mode big.neg big.mant big.exp].
  unfold big.setExpAndRound.
  destruct (Z.ltb_spec (x + e) big.MinExp); [lia|].
  destruct (Z.ltb_spec big.MaxExp (x + e)); [lia|].
  apply round_exact; lia.
Qed.

Lemma Cmp_canon_same x : big.Cmp (canon W md false c x) (canon W md false c x) = 0.
Proof.
  unfold big.Cmp, big.ord, big.ucmp.
  cbn [canon big.fform big.neg big.exp big.mant big.prec].
  cbn [Z.ltb Z.eqb Z.compare Pos.compare Pos.eqb Pos.compare_cont].
  by rewrite !Z.ltb_irrefl.
Qed.

Lemma Add_canon_same x :
  big.MinExp <= x + 1 <= big.MaxExp ->
  big.Add (canon W md false c x) (canon W md false c x) (canon W md false c x)
  = ok (canon W md false c (x + 1)).
Proof.
  intros Hx. pose proof (bitlen_pos c Hc) as Hk.
  unfold big.Add, big.zprec, big.uadd, big.lsb_exp.
  cbn [canon big.fform big.neg big.exp big.mant big.prec big.mode].
  destruct (Z.eqb_spec W 0); [lia|].
  cbn [Bool.eqb]. rewrite Z.min_id, Z.sub_diag. f_equal.
  change (2 ^ 0) with 1. rewrite Z.mul_1_r.
  set (m := c * 2 ^ (W - big.bitlen c)).
  assert (Hm : 0 < m) by (subst m; apply Z.mul_pos_pos;
                          [done | apply Z.pow_pos_nonneg; lia]).
  replace (m + m) with (c * 2 ^ (W - big.bitlen c + 1)).
  2: { subst m. rewrite Z.pow_add_r by lia. lia. }
  unfold big.of_int.
  assert (0 < c * 2 ^ (W - big.bitlen c + 1))
    by (apply Z.mul_pos_pos; [done | apply Z.pow_pos_nonneg; lia]).
  destruct (Z.eqb_spec (c * 2 ^ (W - big.bitlen c + 1)) 0); [lia|].
  rewrite bitlen_shift by lia.
  unfold big.setExpAndRound.
  replace (x - W + (big.bitlen c + (W - big.bitlen c + 1))) with (x + 1)
    by lia.
  destruct (Z.ltb_spec (x + 1) big.MinExp); [lia|].
  destruct (Z.ltb_spec big.MaxExp (x + 1)); [lia|].
  apply round_exact; lia.
Qed.

Lemma Sub_canon_same x :
  big.Sub (canon W md false c x) (canon W md false c x) (canon W md false c x)
  = ok (big.mk_zero W md
          match md with big.ToNegativeInf => true | _ => false end).
Proof.
  pose proof (bitlen_pos c Hc) as Hk.
  unfold big.Sub, big.zprec, big.usub, big.ucmp, big.lsb_exp.
  cbn [canon big.fform big.neg big.exp big.mant big.prec big.mode].
  destruct (Z.eqb_spec W 0); [lia|].
  cbn [Bool.eqb negb]. rewrite !Z.ltb_irrefl. cbn [Z.ltb Z.compare].
  rewrite Z.min_id, !Z.sub_diag. reflexivity.
Qed.

Lemma bitlen_square :
  2 * big.bitlen c - 1 <= big.bitlen (c * c) <= 2 * big.bitlen c.
Proof.
  unfold big.bitlen.
  pose proof (Z.log2_mul_below c c Hc Hc).
  pose proof (Z.log2_mul_above c c ltac:(lia) ltac:(lia)). lia.
Qed.

Lemma Mul_canon_same x :
  2 * big.bitlen c <= W ->
  big.MinExp <= 2 * x - 1 -> 2 * x <= big.MaxExp ->
  big.Mul (canon W md false c x) (canon W md false c x) (canon W md false c x)
  = ok (canon W md false (c * c)
          (2 * x - 2 * big.bitlen c + big.bitlen (c * c))).
Proof.
  intros H2 Hlo Hhi. pose proof (bitlen_pos c Hc) as Hk.
  pose proof bitlen_square as Hsq.
  unfold big.Mul, big.zprec, big.umul, big.lsb_exp.
  cbn [canon big.fform big.neg big.exp big.mant big.prec big.mode].
  destruct (Z.eqb_spec W 0); [lia|].
  cbn [xorb]. f_equal.
  assert (Hcc : 0 < c * c) by nia.
  replace (c * 2 ^ (W - big.bitlen c) * (c * 2 ^ (W - big.bitlen c)))
    with (c * c * 2 ^ (2 * (W - big.bitlen c))).
  2: { replace (2 * (W - big.bitlen c))
         with ((W - big.bitlen c) + (W - big.bitlen c)) by lia.
       rewrite Z.pow_add_r by lia. ring. }
  unfold big.of_int.
  assert (0 < c * c * 2 ^ (2 * (W - big.bitlen c)))
    by (apply Z.mul_pos_pos; [done | apply Z.pow_pos_nonneg; lia]).
  destruct (Z.eqb_spec (c * c * 2 ^ (2 * (W - big.bitlen c))) 0); [lia|].
  rewrite bitlen_shift by lia.
  replace (x - W + (x - W)
           + (big.bitlen (c * c) + 2 * (W - big.bitlen c)))
    with (2 * x - 2 * big.bitlen c + big.bitlen (c * c)) by lia.
  unfold big.setExpAndRound.
  destruct (Z.ltb_spec (2 * x - 2 * big.bitlen c + big.bitlen (c * c))
              big.MinExp); [lia|].
  destruct (Z.ltb_spec big.MaxExp
              (2 * x - 2 * big.bitlen c + big.bitlen (c * c))); [lia|].
  apply round_exact; lia.
Qed.

End Canon.


(** ** More methods on the store *)

Lemma run_Add z x y s vx vy vz v :
  rd x s = Ret vx s -> rd y s = Ret vy s -> cells s !! z = Some vz ->
  big.Add vz vx vy = ok v -> Add z x y s = Ret z (set_cell s z v).
Proof. apply run_upd2. Qed.

Lemma run_Sub z x y s vx vy vz v :
  rd x s = Ret vx s -> rd y s = Ret vy s -> cells s !! z = Some vz ->
  big.Sub vz vx vy = ok v -> Sub z x y s = Ret z (set_cell s z v).
Proof. apply run_upd2. Qed.

Lemma run_Mul z x y s vx vy vz v :
  rd x s = Ret vx s -> rd y s = Ret vy s -> cells s !! z = Some vz ->
  big.Mul vz vx vy = ok v -> Mul z x y s = Ret z (set_cell s z v).
Proof. apply run_upd2. Qed.

Lemma run_Quo z x y s vx vy vz v :
  rd x s = Ret vx s -> rd y s = Ret vy s -> cells s !! z = Some vz ->
  big.Quo vz vx vy = ok v -> Quo z x y s = Ret z (set_cell s z v).
Proof. apply run_upd2. Qed.

Lemma run_Sqrt z x s vx vz v :
  rd x s = Ret vx s -> cells s !! z = Some vz ->
  big_conv.Sqrt vz vx = ok v -> Sqrt z x s = Ret z (set_cell s z v).
Proof. apply run_upd1. Qed.

Lemma run_SetMantExp z m e s vm vz :
  rd m s = Ret vm s -> cells s !! z = Some vz ->
  SetMantExp z m e s = Ret z (set_cell s z (big.SetMantExp vz vm e)).
Proof. intros. by eapply run_upd1. Qed.

(** [quicksh]: the destination receives the mantissa of [z] and then that
    mantissa with the exponent of [z] plus [n], whether or not the
    destination is [z] itself. *)
Lemma run_quicksh (o z : loc) n s vo vz :
  cells s !! o = Some vo -> cells s !! z = Some vz ->
  quicksh o z n s
  = Ret o (set_cell s o
             (big.SetMantExp (big.MantExp_mant vz) (big.MantExp_mant vz)
                (big.MantExp_exp vz + n))).
Proof.
  intros Ho Hz. pose proof (lookup_lt _ _ _ Ho) as Lo.
  unfold quicksh, MantExp.
  rewrite bind_assoc.
  rewrite (bind_Ret _ _ _ _ _ (rd_at _ _ _ Hz)).
  rewrite bind_assoc. unfold store at 1.
  rewrite bind_assoc.
  rewrite (bind_Ret _ _ _ _ _ (eq_refl : (fun s => Ret tt (set_cell s o (big.MantExp_mant vz))) s = _)).
  rewrite (bind_Ret (ret tt) _ _ tt _ eq_refl).
  rewrite (bind_Ret (ret _) _ _ _ _ eq_refl).
  erewrite run_SetMantExp; [| apply rd_at; by apply lookup_set_eq
                             | by apply lookup_set_eq].
  by rewrite set_set.
Qed.

Lemma one53_canon : one53 = canon 53 big.ToNearestEven false 1 1.
Proof. reflexivity. Qed.

(** ** AGM of a value with itself *)

Section Same.
Variables (md : big.RoundingMode) (c e prec : Z).
Hypothesis Hc : 0 < c.
Hypothesis Hprec : big.bitlen c <= prec.
Hypothesis HW : prec + 64 <= 2 ^ 31.
Hypothesis He : - 2 ^ 30 < e < 2 ^ 30.

Let W := prec + 64.
Let A := canon W md false c e.
Let Lim := canon W big.ToNearestEven false 1 (- prec).

Hypothesis Hpass : agm_first_pass A Lim = ok (-1).

Lemma AGM_step_same s (o a2 b2 lim : loc) vo :
  cells s !! o = Some vo -> cells s !! a2 = Some A ->
  cells s !! b2 = Some A -> cells s !! lim = Some Lim ->
  o <> a2 -> o <> b2 -> a2 <> b2 -> lim <> o -> lim <> a2 -> lim <> b2 ->
  exists s',
    AGM_step o a2 b2 lim s = Ret (-1) s' /\
    length (cells s') = length (cells s) /\
    cells s' !! a2 = Some A /\
    (forall l, l <> o -> l <> a2 -> l <> b2 -> cells s' !! l = cells s !! l).
Proof.
  intros Ho Ha Hb Hl Noa Nob Nab Nlo Nla Nlb.
  pose proof (lookup_lt _ _ _ Ho). pose proof (lookup_lt _ _ _ Ha).
  pose proof (lookup_lt _ _ _ Hb). pose proof (lookup_lt _ _ _ Hl).
  pose proof (bitlen_pos c Hc) as Hk.
  assert (MP : big.MaxPrec = 4294967295) by reflexivity.
  assert (P31' : 2 ^ 31 = 2147483648) by reflexivity.
  assert (HWc : big.bitlen c <= W <= big.MaxPrec) by (subst W; lia).
  assert (Hmin : big.MinExp = - 2 ^ 31) by reflexivity.
  assert (Hmax : big.MaxExp = 2 ^ 31 - 1) by reflexivity.
  assert (P30 : 2 ^ 30 = 1073741824) by reflexivity.
  assert (P31 : 2 ^ 31 = 2147483648) by reflexivity.
  assert (EWd : W = prec + 64) by reflexivity.
  pose proof Hpass as Hp. unfold agm_first_pass, sqrt_of_square in Hp.
  destruct (big.Mul A A A) as [t| |] eqn:Em; cbn [res_bind] in Hp;
    [|discriminate..].
  destruct (big_conv.Sqrt t t) as [B| |] eqn:Es; cbn [res_bind] in Hp;
    [|discriminate..].
  destruct (big.Sub A A B) as [d| |] eqn:Ed; cbn [res_bind] in Hp;
    [|discriminate..].
  injection Hp as Hp.
  unfold AGM_step.
  erewrite (bind_Ret (Copy o a2));
    [| eapply run_Copy; [apply rd_at|]; eassumption].
  erewrite (bind_Ret (Add a2 a2 b2));
    [| eapply run_Add; [apply rd_at; lk | apply rd_at; lk | lk
                       | apply (Add_canon_same W md c Hc HWc e); lia] ].
  erewrite (bind_Ret (quicksh a2 _ _));
    [| eapply run_quicksh; lk].
  cbn [canon big.MantExp_mant big.MantExp_exp big.fform big.prec big.mode
       big.neg big.mant big.exp].
  fold (canon W md false c 0).
  rewrite (SetMantExp_canon W md c Hc HWc (canon W md false c 0) false 0
             (e + 1 + -1));
    [| cbn [canon big.prec]; destruct (W =? 0); lia | lia].
  cbn [canon big.prec big.mode].
  assert (EW : (if W =? 0 then W else W) = W) by (destruct (W =? 0); done).
  rewrite EW. replace (0 + (e + 1 + -1)) with e by lia.
  fold (canon W md false c e). fold A.
  erewrite (bind_Ret (Mul b2 b2 o));
    [| eapply run_Mul; [apply rd_at; lk | apply rd_at; lk | lk | exact Em] ].
  erewrite (bind_Ret (Sqrt b2 _));
    [| eapply run_Sqrt; [apply rd_at; lk | lk | exact Es] ].
  erewrite (bind_Ret (Sub o a2 b2));
    [| eapply run_Sub; [apply rd_at; lk | apply rd_at; lk | lk | exact Ed] ].
  erewrite run_Cmp; [| apply rd_at; lk | apply rd_at; lk].
  rewrite Hp.
  eexists. split; [reflexivity|].
  split; [len; reflexivity|]. split; [lk|].
  intros l N1 N2 N3. by lk_frame.
Qed.

Lemma AGM_init_same s (o a : loc) vo pa :
  cells s !! o = Some vo -> cells s !! a = Some (canon pa md false c e) ->
  big.bitlen c <= pa <= big.MaxPrec -> 0 <= big.prec vo ->
  prec = (if big.prec vo =? 0 then pa else big.prec vo) ->
  let n := length (cells s) in
  exists s',
    AGM_init o a a s = Ret (prec, n, S n, S (S n)) s' /\
    (exists vo', cells s' !! o = Some vo') /\
    cells s' !! n = Some A /\ cells s' !! S n = Some A /\
    cells s' !! S (S n) = Some Lim.
Proof.
  intros Ho Ha Hpa Hvo Eprec n.
  pose proof (lookup_lt _ _ _ Ho). pose proof (lookup_lt _ _ _ Ha).
  pose proof (bitlen_pos c Hc) as Hk.
  assert (EWd : W = prec + 64) by reflexivity.
  assert (MP : big.MaxPrec = 4294967295) by reflexivity.
  assert (Hmin : big.MinExp = - 2 ^ 31) by reflexivity.
  assert (Hmax : big.MaxExp = 2 ^ 31 - 1) by reflexivity.
  assert (P31 : 2 ^ 31 = 2147483648) by reflexivity.
  assert (HWc : big.bitlen c <= W <= big.MaxPrec) by lia.
  assert (Hpac : big.bitlen c <= pa <= big.MaxPrec) by lia.
  unfold AGM_init.
  erewrite (bind_Ret (Prec o)); [| apply run_Prec, rd_at; eassumption].
  match goal with
  | |- context [bind ?m _ s] =>
      assert (Hp : m s = Ret prec s)
  end.
  { destruct (big.prec vo =? 0); [|by rewrite Eprec].
    erewrite (bind_Ret (Prec a)); [| apply run_Prec, rd_at; eassumption].
    erewrite (bind_Ret (Prec a)); [| apply run_Prec, rd_at; eassumption].
    cbn [canon big.prec]. rewrite Eprec. by destruct (pa <=? pa). }
  rewrite (bind_Ret _ _ _ _ _ Hp). clear Hp.
  rewrite (uint_prec_add prec 64) by lia.
  rewrite (uint_prec_add prec 1) by lia.
  fold W.
  erewrite (bind_Ret (SetPrec o _)); [| apply run_SetPrec; eassumption].
  (* the operand after the destination received the working precision *)
  assert (exists pa',
            cells (set_cell s o (big.SetPrec vo W)) !! a
              = Some (canon pa' md false c e) /\
            big.bitlen c <= pa' <= big.MaxPrec) as (pa' & Ha' & Hpa').
  { destruct (decide (o = a)) as [->|Noa].
    - exists W. split; [|done]. rewrite lookup_set_eq by done.
      replace vo with (canon pa md false c e) by congruence.
      by rewrite (SetPrec_canon pa md c Hc Hpac W false e HWc).
    - exists pa. split; [|done]. by rewrite lookup_set_ne. }
  assert (Hl1 : length (cells (set_cell s o (big.SetPrec vo W)))
                = length (cells s)) by (by len).
  assert (exists vo1, cells (set_cell s o (big.SetPrec vo W)) !! o
                      = Some vo1) as [vo1 Ho1].
  { eexists. by apply lookup_set_eq. }
  revert Ha' Hl1 Ho1. generalize (set_cell s o (big.SetPrec vo W)).
  intros s1 Ha' Hl1 Ho1.
  rewrite (bind_Ret _ _ _ _ _ (run_new _)).
  erewrite (bind_Ret (Copy _ _)); [| eapply run_Copy; [apply rd_at|]; lk].
  erewrite (bind_Ret (SetPrec _ _)); [| apply run_SetPrec; lk].
  rewrite (SetPrec_canon pa' md c Hc Hpa' W false e HWc). fold A.
  rewrite (bind_Ret _ _ _ _ _ (run_new _)).
  erewrite (bind_Ret (Copy _ _)); [| eapply run_Copy; [apply rd_at|]; lk].
  erewrite (bind_Ret (SetPrec _ _)); [| apply run_SetPrec; lk].
  rewrite (SetPrec_canon pa' md c Hc Hpa' W false e HWc). fold A.
  erewrite (bind_Ret (Cmp _ _)); [| apply run_Cmp; apply rd_at; lk].
  unfold A at 1 2. rewrite (Cmp_canon_same W md c e).
  change (0 =? -1) with false. cbv iota beta.
  rewrite (bind_Ret _ _ _ _ _ (run_new _)).
  rewrite (bind_Ret _ _ _ _ _ (run_NewFloat_1 _)).
  erewrite (bind_Ret (SetPrec _ _)); [| apply run_SetPrec; lk].
  rewrite one53_canon.
  rewrite (SetPrec_canon 53 big.ToNearestEven 1 ltac:(lia)
             ltac:(rewrite MP; change (big.bitlen 1) with 1; lia) W false 1)
    by (change (big.bitlen 1) with 1; lia).
  erewrite (bind_Ret (SetMantExp _ _ _));
    [| eapply run_SetMantExp; [apply rd_at; lk | lk]].
  rewrite (SetMantExp_canon W big.ToNearestEven 1 ltac:(lia)
             ltac:(change (big.bitlen 1) with 1; lia) big.new false 1
             (- (prec + 1)));
    [| change (big.bitlen 1) with 1; cbn; lia | lia].
  change (if big.prec big.new =? 0 then W else big.prec big.new) with W.
  change (big.mode big.new) with big.ToNearestEven.
  replace (1 + - (prec + 1)) with (- prec) by lia. fold Lim.
  len. rewrite Hl1. fold n.
  eexists. split; [reflexivity|].
  split; [eexists; lk|]. split; [lk|]. split; lk.
Qed.

(** [AGM] of a value with itself, when the first pass ends the loop: the
    destination, which may be the operand itself, holds the value at the
    target precision. *)
Lemma AGM_same_run fuel s (o a : loc) vo pa :
  cells s !! o = Some vo -> cells s !! a = Some (canon pa md false c e) ->
  big.bitlen c <= pa <= big.MaxPrec -> 0 <= big.prec vo ->
  prec = (if big.prec vo =? 0 then pa else big.prec vo) ->
  exists s',
    AGM (S fuel) o a a s = Ret o s' /\
    cells s' !! o = Some (canon prec md false c e).
Proof.
  intros Ho Ha Hpa Hvo Eprec.
  pose proof (lookup_lt _ _ _ Ho). pose proof (lookup_lt _ _ _ Ha).
  pose proof (bitlen_pos c Hc) as Hk.
  assert (EWd : W = prec + 64) by reflexivity.
  assert (MP : big.MaxPrec = 4294967295) by reflexivity.
  assert (P31 : 2 ^ 31 = 2147483648) by reflexivity.
  assert (HWc : big.bitlen c <= W <= big.MaxPrec) by lia.
  destruct (AGM_init_same s o a vo pa Ho Ha Hpa Hvo Eprec)
    as (s1 & Hinit & [vo1 Ho1] & Ha1 & Hb1 & Hl1).
  set (n := length (cells s)) in *.
  destruct (AGM_step_same s1 o n (S n) (S (S n)) vo1 Ho1 Ha1 Hb1 Hl1)
    as (s2 & Hstep & Hlen & Ha2 & _); try lia.
  pose proof (lookup_lt _ _ _ Ho1).
  unfold AGM. rewrite (bind_Ret _ _ _ _ _ Hinit). cbv iota beta.
  cbn [AGM_loop]. rewrite bind_assoc.
  rewrite (bind_Ret _ _ _ _ _ Hstep).
  change (-1 =? -1) with true. cbv iota.
  rewrite (bind_Ret (ret tt) _ _ tt _ eq_refl).
  assert (exists vo2, cells s2 !! o = Some vo2) as [vo2 Ho2].
  { apply lookup_lt_is_Some. lia. }
  erewrite (bind_Ret (Copy _ _));
    [| eapply run_Copy; [apply rd_at|]; eassumption].
  erewrite run_SetPrec; [| by apply lookup_set_eq; lia].
  eexists. split; [reflexivity|].
  rewrite lookup_set_eq by (len; lia).
  unfold A. by rewrite (SetPrec_canon W md c Hc HWc prec false e) by lia.
Qed.

End Same.

(** The first pass ends the loop when the square root of the square is the
    value itself. *)
Lemma sqrt_exact_first_pass md c W x lim :
  0 < c -> big.bitlen c <= W <= big.MaxPrec ->
  big.fform lim = big.finite -> big.neg lim = false ->
  sqrt_of_square (canon W md false c x) = ok (canon W md false c x) ->
  agm_first_pass (canon W md false c x) lim = ok (-1).
Proof.
  intros Hc HW Hf Hn Hsq. unfold agm_first_pass. rewrite Hsq.
  cbn [res_bind]. rewrite (Sub_canon_same W md c Hc HW x). cbn [res_bind].
  f_equal. unfold big.Cmp, big.ord. rewrite Hf, Hn. reflexivity.
Qed.


(** * The claims *)





(** C2, as stated, fails in its last row: 12 rounded with mode toward
    -infinity into a destination of precision 1 (in the default mode of a
    new [big.Float]) gives 16, not 8.  An integer is copied through [Set],
    which rounds by the destination's own mode. *)
Lemma C2_Round_twelve_down_is_sixteen :
  result_of (Round 1%nat (at_ 0%nat) big.ToNegativeInf round_twelve_store)
    = Some (dyadic 1 big.ToNearestEven 16 0) /\
  big.Cmp (dyadic 1 big.ToNearestEven 16 0) (dyadic 53 big.ToNearestEven 8 0)
    = 1.
Proof. split; vm_compute; reflexivity. Qed.

(** C2, amended: with a destination of precision 53 other than [z], [Round]
    gives the seven rows of the table at precision 53 (0.5 to 0, 1.5 to 2 and
    2.5 to 2 under nearest-even, 0.5 to 1 under nearest-away, -0.5 to -1
    under away-from-zero, 0.25 to 0 under toward-zero, -0.25 to 0 under
    toward +infinity), whatever the destination held; with a destination of
    precision 1, rounding 12 gives 16 or 8 according to the destination's own
    rounding mode (16 for the nearest modes, away-from-zero and toward
    +infinity, 8 for toward-zero and toward -infinity), whatever mode is
    passed to [Round]. *)
Theorem C2_Round_table s (o z : loc) vo vz :
  cells s !! o = Some vo -> cells s !! z = Some vz -> o <> z ->
  let md := big.mode vo in
  let f m e := dyadic 53 big.ToNearestEven m e in
  let gives mode v := Round o z mode s = Ret o (set_cell s o v) in
  (big.prec vo = 53 ->
   (vz = f 1 (-1) -> gives big.ToNearestEven (dyadic 53 md 0 0)) /\
   (vz = f 3 (-1) -> gives big.ToNearestEven (dyadic 53 md 2 0)) /\
   (vz = f 5 (-1) -> gives big.ToNearestEven (dyadic 53 md 2 0)) /\
   (vz = f 1 (-1) -> gives big.ToNearestAway (dyadic 53 md 1 0)) /\
   (vz = f (-1) (-1) -> gives big.AwayFromZero (dyadic 53 md (-1) 0)) /\
   (vz = f 1 (-2) -> gives big.ToZero (dyadic 53 md 0 0)) /\
   (vz = f (-1) (-2) -> gives big.ToPositiveInf (dyadic 53 md 0 0))) /\
  (big.prec vo = 1 -> vz = f 12 0 ->
   forall mode,
     gives mode
       match md with
       | big.ToPositiveInf | big.AwayFromZero
       | big.ToNearestEven | big.ToNearestAway => dyadic 1 md 16 0
       | big.ToNegativeInf | big.ToZero => dyadic 1 md 8 0
       end).
Proof.
  intros Ho Hz Hne md f gives. subst gives. cbv beta. split.
  - intros Hp.
    destruct (Round_value_table vo Hp) as (R1 & R2 & R3 & R4 & R5 & R6 & R7).
    subst md f. cbv beta in *.
    repeat split; intros ->; rewrite (Round_run s o z vo _ _ Ho Hz Hne);
      first [ by rewrite R1 | by rewrite R2 | by rewrite R3 | by rewrite R4
            | by rewrite R5 | by rewrite R6 | by rewrite R7 ].
  - intros Hp -> mode. rewrite (Round_run s o z vo _ _ Ho Hz Hne).
    subst md f. cbv beta. by rewrite Round_value_twelve.
Qed.

Lemma C2_Round_table_witness :
  Round 1%nat (at_ 0%nat) big.ToNearestEven
    (mkState [dyadic 53 big.ToNearestEven 5 (-1);
              big.mk_zero 53 big.ToNearestEven false] None true)
  = Ret 1%nat
      (set_cell
         (mkState [dyadic 53 big.ToNearestEven 5 (-1);
                   big.mk_zero 53 big.ToNearestEven false] None true)
         1%nat (dyadic 53 big.ToNearestEven 2 0)).
Proof.
  refine (proj1 (proj2 (proj2 (proj1
    (C2_Round_table
       (mkState [dyadic 53 big.ToNearestEven 5 (-1);
                 big.mk_zero 53 big.ToNearestEven false] None true)
       1%nat 0%nat (big.mk_zero 53 big.ToNearestEven false)
       (dyadic 53 big.ToNearestEven 5 (-1)) _ _ _) _))) _).
  - reflexivity.
  - reflexivity.
  - lia.
  - reflexivity.
  - reflexivity.
Defined.

(** C3: [Log] panics with the package's [ErrNaN] exactly when the sign bit
    of z is set (negative values, -0 and -Inf alike); on +0 it returns -Inf,
    on +Inf it returns +Inf, and on the value 1 it returns exactly +0 at the
    destination's precision. *)
Theorem C3_Log_domain fuel s (o z : loc) vo vz :
  cells s !! o = Some vo -> cells s !! z = Some vz ->
  ((exists msg, Log fuel o z s = Panic (ErrNaN msg))
   <-> big.Signbit vz = true) /\
  (big.Signbit vz = true ->
   Log fuel o z s = Panic (ErrNaN "Log: argument is negative")) /\
  (big.fform vz = big.zero -> big.neg vz = false ->
   exists s' v, Log fuel o z s = Ret o s' /\ cells s' !! o = Some v /\
                big.fform v = big.inf /\ big.neg v = true) /\
  (big.fform vz = big.inf -> big.neg vz = false ->
   exists s' v, Log fuel o z s = Ret o s' /\ cells s' !! o = Some v /\
                big.fform v = big.inf /\ big.neg v = false) /\
  (valid vo -> valid vz -> is_one vz ->
   exists s', Log fuel o z s = Ret o s' /\
              cells s' !! o =
                Some (big.mk_zero
                        (if big.prec vo =? 0 then big.prec vz else big.prec vo)
                        (big.mode vo) false)).
Proof.
  intros Ho Hz. repeat split.
  - intros [msg H]. destruct (big.Signbit vz) eqn:E; [done|].
    by destruct (Log_nonnegative_quiet fuel s o z vo vz msg Ho Hz E).
  - intros E. eexists. by apply (Log_negative fuel s o z vo vz).
  - by apply (Log_negative fuel s o z vo vz).
  - by apply (Log_zero fuel s o z vo vz).
  - by apply (Log_inf fuel s o z vo vz).
  - intros Vo Vz Iz.
    destruct (Log_one fuel s o z vo vz Ho Hz Vo Vz Iz) as (s' & H & _ & _ & _ & _ & H').
    eauto.
Qed.

Lemma C3_Log_domain_witness :
  Log 0 1%nat 0%nat
    (mkState [big.mk_zero 53 big.ToNearestEven true;
              big.mk_zero 53 big.ToNearestEven false] None true)
  = Panic (ErrNaN "Log: argument is negative").
Proof.
  refine (proj1 (proj2
    (C3_Log_domain 0
       (mkState [big.mk_zero 53 big.ToNearestEven true;
                 big.mk_zero 53 big.ToNearestEven false] None true)
       1%nat 0%nat (big.mk_zero 53 big.ToNearestEven false)
       (big.mk_zero 53 big.ToNearestEven true) _ _)) _).
  - reflexivity.
  - reflexivity.
  - reflexivity.
Defined.

(** C4, as stated, fails at w = 0: [Pow] of +Inf to the exponent +0 is 1,
    since the test for a zero exponent comes before the test for an infinite
    base. *)
Lemma C4_Pow_inf_zero_is_one :
  result_of (Pow 0 2%nat (at_ 0%nat) (at_ 1%nat) pow_inf_zero_store)
    = Some (dyadic 53 big.ToNearestEven 1 0).
Proof. vm_compute. reflexivity. Qed.

(** C4, amended: for every exponent w other than zero (negative exponents
    and infinities included), [Pow] with base +Inf returns +Inf. *)
Theorem C4_Pow_inf_base fuel s (o z w : loc) vo vz vw :
  cells s !! o = Some vo -> cells s !! z = Some vz ->
  cells s !! w = Some vw ->
  valid vz -> valid vw ->
  big.fform vz = big.inf -> big.neg vz = false -> big.Sign vw <> 0 ->
  exists r s' v,
    Pow fuel o z w s = Ret r s' /\ cells s' !! r = Some v /\
    big.fform v = big.inf /\ big.neg v = false.
Proof. apply Pow_inf_base_nonzero. Qed.

Lemma C4_Pow_inf_base_witness :
  exists r s' v,
    Pow 0 2%nat (at_ 0%nat) (at_ 1%nat)
      (mkState [big.mk_inf 53 big.ToNearestEven false;
                dyadic 53 big.ToNearestEven (-3) 0;
                big.mk_zero 53 big.ToNearestEven false] None true)
      = Ret r s' /\
    cells s' !! r = Some v /\ big.fform v = big.inf /\ big.neg v = false.
Proof.
  apply (C4_Pow_inf_base 0
           (mkState [big.mk_inf 53 big.ToNearestEven false;
                     dyadic 53 big.ToNearestEven (-3) 0;
                     big.mk_zero 53 big.ToNearestEven false] None true)
           2%nat 0%nat 1%nat
           (big.mk_zero 53 big.ToNearestEven false)
           (big.mk_inf 53 big.ToNearestEven false)
           (dyadic 53 big.ToNearestEven (-3) 0)).
  - reflexivity.
  - reflexivity.
  - reflexivity.
  - unfold valid; vm_compute; intuition discriminate.
  - unfold valid; vm_compute; intuition discriminate.
  - reflexivity.
  - reflexivity.
  - vm_compute. discriminate.
Defined.

(** C5 does not hold of the code: with a finite positive base and a zero
    exponent, [Pow] returns a newly allocated 1 at the precision of z.  The
    pointer returned is not the destination, and the destination keeps its
    value (only an unset precision is filled in). *)
Theorem C5_Pow_zero_exponent_is_fresh fuel s (o z w : loc) vo vz vw :
  cells s !! o = Some vo -> cells s !! z = Some vz ->
  cells s !! w = Some vw ->
  valid vz -> big.fform vz = big.finite -> big.neg vz = false ->
  big.fform vw = big.zero ->
  exists s',
    Pow fuel o z w s = Ret (length (cells s)) s' /\
    length (cells s) <> o /\
    cells s' !! length (cells s) = Some (big.SetPrec one53 (big.prec vz)) /\
    cells s' !! o =
      Some (if big.prec vo =? 0
            then big.SetPrec vo (Z.max (big.prec vz) (big.prec vw))
            else vo).
Proof. apply Pow_zero_exponent. Qed.

Lemma C5_Pow_zero_exponent_is_fresh_witness :
  exists s',
    Pow 0 2%nat (at_ 0%nat) (at_ 1%nat) pow_two_zero_store = Ret 3%nat s' /\
    3%nat <> 2%nat /\
    cells s' !! 3%nat = Some (big.SetPrec one53 53) /\
    cells s' !! 2%nat = Some (big.mk_zero 53 big.ToNearestEven false).
Proof.
  apply (C5_Pow_zero_exponent_is_fresh 0 pow_two_zero_store 2%nat 0%nat 1%nat
           (big.mk_zero 53 big.ToNearestEven false)
           (dyadic 53 big.ToNearestEven 2 0)
           (big.mk_zero 53 big.ToNearestEven false)).
  - reflexivity.
  - reflexivity.
  - reflexivity.
  - unfold valid; vm_compute; intuition discriminate.
  - reflexivity.
  - reflexivity.
  - reflexivity.
Defined.

(** C6 does not hold of the code: for z = 1000 at precision 53, [Exp] with
    the destination aliased to z takes the argument-halving branch, whose
    result is computed in the copy made for Newton's method and returned as
    that new pointer; the shared cell still holds 1000. *)
Theorem C6_Exp_alias_large :
  exists r s',
    Exp 100 1%nat 1%nat
      (push initial_state (dyadic 53 big.ToNearestEven 1000 0)) = Ret r s' /\
    r <> 1%nat /\
    cells s' !! 1%nat = Some (dyadic 53 big.ToNearestEven 1000 0).
Proof.
  eexists _, _. split; [vm_compute; reflexivity|].
  split; [vm_compute; discriminate | vm_compute; reflexivity].
Qed.

(** C7 does not hold of the code: for a = 2^64+1 and b = 2^64, both of
    precision 65, a rounding toward +infinity and b toward zero, and a
    destination of precision 1, the loop of [AGM] never reaches its limit:
    whatever the bound on the number of iterations, it is exhausted. *)
Theorem C7_AGM_never_returns fuel :
  AGM fuel 2%nat (at_ 0%nat) (at_ 1%nat) agm_cycle_store = OutOfFuel.
Proof.
  unfold AGM. rewrite (bind_Ret _ _ _ _ _ AGM_init_cycle).
  apply bind_OutOfFuel.
  destruct fuel as [|n]; [reflexivity|].
  cbn [AGM_loop]. rewrite (bind_Ret _ _ _ _ _ AGM_step_entry).
  apply AGM_loop_cycle.
Qed.


(** C9: the precision of the cached value of pi never decreases.  From a
    state whose cache holds a value of precision p0 (a precision [math/big]
    can represent), every call of [Pi], on any destination, and every call
    of [cachedPi], at any requested precision, that returns leaves a cache
    whose value has a precision p1 >= p0. *)
Theorem C9_pi_cache_monotone fuel s p0 :
  cache_prec s = Some p0 -> p0 <= big.MaxPrec ->
  (forall (a : loc) r s',
     Pi fuel a s = Ret r s' ->
     exists p1, cache_prec s' = Some p1 /\ p0 <= p1) /\
  (forall prec r s',
     cachedPi fuel prec s = Ret r s' ->
     exists p1, cache_prec s' = Some p1 /\ p0 <= p1).
Proof.
  intros Hc Hmax. split.
  - intros a r s'. by apply Pi_cache_grows.
  - intros prec r s'. by apply cachedPi_cache_grows.
Qed.

Lemma C9_pi_cache_monotone_witness :
  exists p1,
    cache_prec (state_after (cachedPi 10 16) pi_cache_small) = Some p1 /\
    8 <= p1.
Proof.
  refine (proj2 (C9_pi_cache_monotone 10 pi_cache_small 8 _ _)
            16 1%nat (state_after (cachedPi 10 16) pi_cache_small) _).
  - reflexivity.
  - vm_compute. discriminate.
  - vm_compute. reflexivity.
Defined.


(** closes the side conditions of an instance: bounds on concrete numbers *)
Ltac concrete :=
  repeat split;
  first [ reflexivity | lia
        | vm_compute; first [reflexivity | discriminate | lia] ].

(** The exit test of the first pass holds for a = 3 * 2^68 at precision 53
    in the modes that round to nearest, away from zero and toward +Inf, and
    in every mode for a = 3 * 2^60. *)
Remark agm_first_pass_samples :
  Forall (fun md =>
            agm_first_pass (canon 117 md false 3 70)
              (canon 117 big.ToNearestEven false 1 (-53)) = ok (-1))
    [big.ToNearestEven; big.ToNearestAway; big.AwayFromZero;
     big.ToPositiveInf] /\
  Forall (fun md =>
            agm_first_pass (canon 117 md false 3 62)
              (canon 117 big.ToNearestEven false 1 (-53)) = ok (-1))
    [big.ToNearestEven; big.ToNearestAway; big.ToZero; big.AwayFromZero;
     big.ToNegativeInf; big.ToPositiveInf].
Proof.
  split; repeat (apply Forall_cons_2; [vm_compute; reflexivity|]);
    apply Forall_nil_2.
Qed.





(** * Further properties of the package *)

(** ** Round *)

Lemma mode_Round_value vo vz mode :
  big.mode (Round_value vo vz mode) = big.mode vo.
Proof.
  unfold Round_value.
  assert (H1 : big.mode (if big.prec vo =? 0
                         then big.SetPrec vo (big.prec vz) else vo)
               = big.mode vo)
    by (destruct (big.prec vo =? 0); [apply mode_SetPrec | done]).
  destruct (big.IsInt vz || big.IsInf vz); [apply mode_Set|].
  destruct (big.MantExp_exp vz <=? 0); [by rewrite mode_Set|].
  destruct (_ <=? big.MantExp_exp vz); [by rewrite mode_Set|].
  exact H1.
Qed.

Lemma prec_Round_value vo vz mode :
  0 < big.prec vo <= big.MaxPrec ->
  big.prec (Round_value vo vz mode) = big.prec vo.
Proof.
  intros Hp. unfold Round_value.
  destruct (Z.eqb_spec (big.prec vo) 0) as [|_]; [lia|].
  destruct (big.IsInt vz || big.IsInf vz).
  { rewrite prec_Set. destruct (Z.eqb_spec (big.prec vo) 0); [lia | done]. }
  destruct (big.MantExp_exp vz <=? 0).
  { rewrite prec_Set. destruct (Z.eqb_spec (big.prec vo) 0); [lia | done]. }
  destruct (_ <=? big.MantExp_exp vz).
  { rewrite prec_Set. destruct (Z.eqb_spec (big.prec vo) 0); [lia | done]. }
  cbn [big.SetMode big.prec]. rewrite prec_SetPrec by lia.
  apply clamp_valid. lia.
Qed.

(** X1: when z is an integer or an infinity, [Round] is [o.Set(z)]: the
    mode passed to [Round] plays no part, and the value is rounded by the
    destination's own mode.  This holds also when o is z itself. *)
Theorem Round_integer_is_Set s (o z : loc) vo vz mode :
  cells s !! o = Some vo -> cells s !! z = Some vz ->
  big.IsInt vz || big.IsInf vz = true ->
  Round o z mode s = Ret o (set_cell s o (big.Set_ vo vz)).
Proof.
  intros Ho Hz Hi. unfold Round.
  erewrite (bind_Ret (IsInt z)); [| apply run_IsInt, rd_at; eassumption].
  erewrite (bind_Ret (IsInf z)); [| apply run_IsInf, rd_at; eassumption].
  rewrite Hi.
  erewrite run_Set; [reflexivity | apply rd_at |]; eassumption.
Qed.

Lemma Round_integer_is_Set_witness :
  Round 1%nat (at_ 0%nat) big.ToZero round_twelve_store
  = Ret 1%nat
      (set_cell round_twelve_store 1%nat
         (big.Set_ (big.mk_zero 1 big.ToNearestEven false)
            (dyadic 53 big.ToNearestEven 12 0))).
Proof.
  apply (Round_integer_is_Set round_twelve_store 1%nat 0%nat
           (big.mk_zero 1 big.ToNearestEven false)
           (dyadic 53 big.ToNearestEven 12 0) big.ToZero);
    reflexivity.
Defined.



(** ** Functions that raise no domain error *)

Lemma quiet_round0even o z : quiet (round0even o z).
Proof. unfold round0even. quiet_tac. Qed.

Lemma quiet_round0away o z : quiet (round0away o z).
Proof. unfold round0away. quiet_tac. Qed.

Lemma quiet_Round o z mode : quiet (Round o z mode).
Proof.
  pose proof quiet_round0even. pose proof quiet_round0away.
  unfold Round. quiet_tac.
Qed.

(** X3: [AGM], [Round], [Pi], [cachedPi] and [piCalc] never panic with the
    package's [ErrNaN], on any store and with any arguments. *)
Theorem no_ErrNaN_in_AGM_Round_Pi s msg :
  (forall fuel o a b, AGM fuel o a b s <> Panic (ErrNaN msg)) /\
  (forall o z mode, Round o z mode s <> Panic (ErrNaN msg)) /\
  (forall fuel a, Pi fuel a s <> Panic (ErrNaN msg)) /\
  (forall fuel prec, cachedPi fuel prec s <> Panic (ErrNaN msg)) /\
  (forall fuel a, piCalc fuel a s <> Panic (ErrNaN msg)).
Proof.
  repeat split; intros.
  - apply quiet_AGM.
  - apply quiet_Round.
  - apply quiet_Pi.
  - apply quiet_cachedPi.
  - apply quiet_piCalc.
Qed.

(** ** Pow *)

(** X4: [Pow] panics with [ErrNaN] on every base whose sign bit is set,
    -0 and -Inf included, whatever the exponent (even 0). *)
Theorem Pow_negative_base fuel s (o z w : loc) vo vz vw :
  cells s !! o = Some vo -> cells s !! z = Some vz ->
  cells s !! w = Some vw ->
  big.Signbit vz = true ->
  Pow fuel o z w s = Panic (ErrNaN "Pow: negative base").
Proof.
  intros Ho Hz Hw Nz. unfold Pow.
  erewrite (bind_Ret (Prec o)); [| apply run_Prec, rd_at; eassumption].
  rewrite (Pow_prefix _ s o z w vo vz vw Ho Hz Hw).
  destruct (lookup_maybe_SetPrec s o vo
              (Z.max (big.prec vz) (big.prec vw)) (big.prec vo =? 0)
              z vz Ho Hz) as (vz1 & Hz1 & Ez).
  erewrite (bind_Ret (Signbit z)); [| apply run_Signbit, rd_at; eassumption].
  assert (big.neg vz1 = true) as ->; [|reflexivity].
  destruct Ez as [->|(_ & -> & _)]; [done | by rewrite neg_SetPrec].
Qed.

Lemma Pow_negative_base_witness :
  Pow 0 2%nat (at_ 0%nat) (at_ 1%nat)
    (mkState [big.mk_zero 53 big.ToNearestEven true;
              big.mk_zero 53 big.ToNearestEven false;
              big.mk_zero 53 big.ToNearestEven false] None true)
  = Panic (ErrNaN "Pow: negative base").
Proof.
  apply (Pow_negative_base 0
           (mkState [big.mk_zero 53 big.ToNearestEven true;
                     big.mk_zero 53 big.ToNearestEven false;
                     big.mk_zero 53 big.ToNearestEven false] None true)
           2%nat 0%nat 1%nat
           (big.mk_zero 53 big.ToNearestEven false)
           (big.mk_zero 53 big.ToNearestEven true)
           (big.mk_zero 53 big.ToNearestEven false));
    reflexivity.
Defined.

(** X5: [Pow] with an exponent equal to 1 and a base whose sign bit is
    clear returns a copy of the base in a newly allocated value: the
    destination (not z, not w) is not the result and keeps its value, and z
    is not modified. *)
Theorem Pow_exponent_one fuel s (o z w : loc) vo vz vw :
  cells s !! o = Some vo -> cells s !! z = Some vz ->
  cells s !! w = Some vw ->
  o <> z -> o <> w ->
  big.Signbit vz = false -> big.Sign vw <> 0 -> big.Cmp vw one53 = 0 ->
  exists s',
    Pow fuel o z w s = Ret (S (length (cells s))) s' /\
    cells s' !! S (length (cells s)) = Some vz /\
    cells s' !! z = Some vz /\
    cells s' !! o =
      Some (if big.prec vo =? 0
            then big.SetPrec vo (Z.max (big.prec vz) (big.prec vw))
            else vo).
Proof.
  intros Ho Hz Hw Noz Now Nz Sw Cw.
  pose proof (lookup_lt _ _ _ Ho) as Lo. pose proof (lookup_lt _ _ _ Hz) as Lz.
  pose proof (lookup_lt _ _ _ Hw) as Lw.
  unfold Pow.
  erewrite (bind_Ret (Prec o)); [| apply run_Prec, rd_at; eassumption].
  rewrite (Pow_prefix _ s o z w vo vz vw Ho Hz Hw).
  set (p := Z.max (big.prec vz) (big.prec vw)).
  set (b := big.prec vo =? 0).
  set (s1 := if b then set_cell s o (big.SetPrec vo p) else s).
  assert (L1 : length (cells s1) = length (cells s))
    by apply length_maybe_set.
  assert (Hz1 : cells s1 !! z = Some vz)
    by (subst s1; destruct b; [lk | done]).
  assert (Hw1 : cells s1 !! w = Some vw)
    by (subst s1; destruct b; [lk | done]).
  assert (Ho1 : cells s1 !! o = Some (if b then big.SetPrec vo p else vo))
    by (subst s1; destruct b; [lk | done]).
  erewrite (bind_Ret (Signbit z)); [| apply run_Signbit, rd_at; eassumption].
  unfold big.Signbit in Nz. rewrite Nz.
  erewrite (bind_Ret (Sign w)); [| apply run_Sign, rd_at; eassumption].
  destruct (Z.eqb_spec (big.Sign vw) 0) as [|_]; [contradiction|].
  rewrite (bind_Ret _ _ _ _ _ (run_NewFloat_1 s1)).
  erewrite (bind_Ret (Cmp w _));
    [| apply run_Cmp; apply rd_at; [lk | apply lookup_push_at; reflexivity]].
  rewrite Cw. change (0 =? 0) with true. cbv iota.
  rewrite (bind_Ret (ret true) _ _ true _ eq_refl).
  rewrite (bind_Ret _ _ _ _ _ (run_new _)).
  erewrite run_Copy; [| apply rd_at; lk | lk].
  len. rewrite L1. eexists. split; [reflexivity|].
  split; [lk|]. split; lk.
Qed.

Lemma Pow_exponent_one_witness :
  exists s',
    Pow 0 2%nat (at_ 0%nat) (at_ 1%nat)
      (mkState [dyadic 53 big.ToNearestEven 7 0; one53;
                big.mk_zero 53 big.ToNearestEven false] None true)
    = Ret 4%nat s' /\
    cells s' !! 4%nat = Some (dyadic 53 big.ToNearestEven 7 0) /\
    cells s' !! 0%nat = Some (dyadic 53 big.ToNearestEven 7 0) /\
    cells s' !! 2%nat = Some (big.mk_zero 53 big.ToNearestEven false).
Proof.
  apply (Pow_exponent_one 0
           (mkState [dyadic 53 big.ToNearestEven 7 0; one53;
                     big.mk_zero 53 big.ToNearestEven false] None true)
           2%nat 0%nat 1%nat
           (big.mk_zero 53 big.ToNearestEven false)
           (dyadic 53 big.ToNearestEven 7 0) one53);
    first [reflexivity | lia | vm_compute; discriminate].
Defined.

(** ** Exp *)

(** X6: the special values of [Exp]: for z = +0 or -0 the destination
    becomes exactly 1 at its own precision; for z = +Inf it becomes +Inf,
    for z = -Inf it becomes +0.  In each case the destination is returned
    and no other cell is written. *)
Theorem Exp_special_values fuel s (o z : loc) vo vz :
  cells s !! o = Some vo -> cells s !! z = Some vz ->
  1 <= big.prec vo ->
  (big.fform vz = big.zero ->
   Exp (S fuel) o z s =
   Ret o (set_cell s o
            (big.mkFloat (big.prec vo) (big.mode vo) big.finite false
               (2 ^ (big.prec vo - 1)) 1))) /\
  (big.fform vz = big.inf -> big.neg vz = false ->
   Exp (S fuel) o z s =
   Ret o (set_cell s o (big.mk_inf (big.prec vo) (big.mode vo) false))) /\
  (big.fform vz = big.inf -> big.neg vz = true ->
   Exp (S fuel) o z s =
   Ret o (set_cell s o (big.mk_zero (big.prec vo) (big.mode vo) false))).
Proof.
  intros Ho Hz Hp.
  assert (Hinf : big.fform vz = big.inf ->
    Exp (S fuel) o z s =
    (let* sg := Sign z in
     if sg <? 0 then Set_ o (global gzero) else Set_ o z) s).
  { intros Fz. cbn [Exp].
    erewrite (bind_Ret (Prec o)); [| apply run_Prec, rd_at; eassumption].
    destruct (Z.eqb_spec (big.prec vo) 0) as [|_]; [lia|].
    rewrite (bind_Ret (ret o) _ s o s eq_refl).
    erewrite (bind_Ret (Sign z)); [| apply run_Sign, rd_at; eassumption].
    unfold big.Sign at 1. rewrite Fz.
    assert (((if big.neg vz then -1 else 1) =? 0) = false) as ->
      by (by destruct (big.neg vz)).
    erewrite (bind_Ret (IsInf z)); [| apply run_IsInf, rd_at; eassumption].
    unfold big.IsInf at 1. by rewrite Fz. }
  split; [intros Fz; by apply (Exp_zero fuel s o z vo vz)|].
  split; intros Fz Nz; rewrite (Hinf Fz).
  - erewrite (bind_Ret (Sign z)); [| apply run_Sign, rd_at; eassumption].
    unfold big.Sign. rewrite Fz, Nz. change (1 <? 0) with false. cbv iota.
    erewrite run_Set; [| apply rd_at |]; [|eassumption..].
    rewrite Set_nonfinite by (rewrite Fz; discriminate).
    rewrite Fz, Nz. destruct (Z.eqb_spec (big.prec vo) 0); [lia | done].
  - erewrite (bind_Ret (Sign z)); [| apply run_Sign, rd_at; eassumption].
    unfold big.Sign. rewrite Fz, Nz. change (-1 <? 0) with true. cbv iota.
    erewrite run_Set; [| apply rd_global | eassumption].
    rewrite Set_nonfinite by discriminate.
    destruct (Z.eqb_spec (big.prec vo) 0); [lia | done].
Qed.

Lemma Exp_special_values_witness :
  Exp 1 1%nat 0%nat
    (mkState [big.mk_inf 53 big.ToNearestEven true;
              dyadic 24 big.ToZero 5 0] None true)
  = Ret 1%nat
      (set_cell
         (mkState [big.mk_inf 53 big.ToNearestEven true;
                   dyadic 24 big.ToZero 5 0] None true)
         1%nat (big.mk_zero 24 big.ToZero false)).
Proof.
  refine (proj2 (proj2
    (Exp_special_values 0
       (mkState [big.mk_inf 53 big.ToNearestEven true;
                 dyadic 24 big.ToZero 5 0] None true)
       1%nat 0%nat (dyadic 24 big.ToZero 5 0)
       (big.mk_inf 53 big.ToNearestEven true) _ _ _)) _ _);
    first [reflexivity | vm_compute; discriminate].
Defined.


(** ** Pi and its cache *)

(** X7: a call of [piCalc] that returns gives back its argument, holding a
    value of the precision the argument had; it leaves the pi cache and the
    flag as they were and writes no cell that existed before, other than
    its argument. *)
Theorem piCalc_footprint fuel (a : loc) s va r s' :
  cells s !! a = Some va -> 0 < big.prec va <= big.MaxPrec ->
  piCalc fuel a s = Ret r s' ->
  r = a /\
  (exists v, cells s' !! a = Some v /\ big.prec v = big.prec va) /\
  piCache s' = piCache s /\ enablePiCache s' = enablePiCache s /\
  (forall l, (l < length (cells s))%nat -> l <> a ->
             cells s' !! l = cells s !! l).
Proof.
  intros Ha Hp H.
  destruct (local_piCalc (length (cells s)) fuel a s r s' (Nat.le_refl _) H)
    as [(L1 & E1 & G1 & F1) ->].
  destruct (piCalc_result _ _ _ _ _ _ Ha H) as (v & Hv & Pv).
  split; [done|]. split.
  - exists v. split; [done|]. rewrite Pv.
    destruct (Z.eqb_spec (big.prec va) 0); [lia|]. apply clamp_valid. lia.
  - split; [by apply G1|]. by split.
Qed.

Lemma piCalc_footprint_witness :
  1%nat = 1%nat /\
  (exists v,
     cells (state_after (piCalc 10 1%nat)
              (push pi_cache_small (big.mk_zero 8 big.ToNearestEven false)))
       !! 1%nat = Some v /\
     big.prec v = 8) /\
  piCache (state_after (piCalc 10 1%nat)
             (push pi_cache_small (big.mk_zero 8 big.ToNearestEven false)))
  = Some 0%nat /\
  enablePiCache
    (state_after (piCalc 10 1%nat)
       (push pi_cache_small (big.mk_zero 8 big.ToNearestEven false)))
  = true /\
  (forall l, (l < 2)%nat -> l <> 1%nat ->
     cells (state_after (piCalc 10 1%nat)
              (push pi_cache_small (big.mk_zero 8 big.ToNearestEven false)))
       !! l
     = cells (push pi_cache_small (big.mk_zero 8 big.ToNearestEven false))
         !! l).
Proof.
  apply (piCalc_footprint 10 1%nat
           (push pi_cache_small (big.mk_zero 8 big.ToNearestEven false))
           (big.mk_zero 8 big.ToNearestEven false) 1%nat
           (state_after (piCalc 10 1%nat)
              (push pi_cache_small (big.mk_zero 8 big.ToNearestEven false)))).
  - reflexivity.
  - split; vm_compute; first [reflexivity | discriminate].
  - vm_compute. reflexivity.
Defined.

(** X8: [Pi] on a destination of precision 0 sets it to +0 and returns it,
    without reading the cache, computing or allocating anything. *)
Theorem Pi_zero_precision fuel (a : loc) s va :
  cells s !! a = Some va -> big.prec va = 0 ->
  Pi fuel a s = Ret a (set_cell s a (big.mk_zero 0 (big.mode va) false)).
Proof.
  intros Ha Hp. unfold Pi.
  erewrite (bind_Ret (Prec a)); [| apply run_Prec, rd_at; eassumption].
  rewrite Hp. change (0 =? 0) with true. cbv iota.
  erewrite run_Set; [| apply rd_global | eassumption].
  rewrite Set_nonfinite by discriminate. by rewrite Hp.
Qed.

Lemma Pi_zero_precision_witness :
  Pi 0 0%nat (mkState [big.new] None true)
  = Ret 0%nat
      (set_cell (mkState [big.new] None true) 0%nat
         (big.mk_zero 0 big.ToNearestEven false)).
Proof.
  apply (Pi_zero_precision 0 0%nat (mkState [big.new] None true) big.new);
    reflexivity.
Defined.

(** X9: when the cache is enabled and holds a value of at least the
    requested precision, [cachedPi] returns the cached pointer itself and
    leaves the whole state as it is: no computation (any bound on the loops
    will do, even none) and no allocation. *)
Theorem cachedPi_hit fuel prec s c vc :
  enablePiCache s = true -> piCache s = Some c -> cells s !! c = Some vc ->
  prec <= big.prec vc ->
  cachedPi fuel prec s = Ret c s.
Proof.
  intros En Pc Hc Hp. unfold cachedPi.
  rewrite (bind_Ret get_enablePiCache _ s true s)
    by (unfold get_enablePiCache; by rewrite En).
  cbn [negb]. cbv iota.
  rewrite (bind_Ret _ _ _ _ _ (run_piCache_Load s c Pc)).
  erewrite (bind_Ret (Prec c)); [| apply run_Prec, rd_at; eassumption].
  destruct (Z.leb_spec prec (big.prec vc)); [reflexivity | lia].
Qed.

Lemma cachedPi_hit_witness :
  cachedPi 0 8 pi_cache_small = Ret 0%nat pi_cache_small.
Proof.
  apply (cachedPi_hit 0 8 pi_cache_small 0%nat
           (dyadic 8 big.ToNearestEven 201 (-6)));
    first [reflexivity | vm_compute; discriminate].
Defined.

(** X10: when the cache is enabled and holds a value at least as precise
    as the destination, [Pi] copies the cached value into the destination
    with [Set], rounding it to the destination's precision and mode: pi is
    not recomputed, nothing is allocated and the cache pointer stays. *)
Theorem Pi_hit fuel (a : loc) s va c vc :
  enablePiCache s = true -> piCache s = Some c -> cells s !! c = Some vc ->
  cells s !! a = Some va ->
  big.prec va <> 0 -> big.prec va <= big.prec vc ->
  Pi fuel a s = Ret a (set_cell s a (big.Set_ va vc)).
Proof.
  intros En Pc Hc Ha Hp0 Hp. unfold Pi.
  erewrite (bind_Ret (Prec a)); [| apply run_Prec, rd_at; eassumption].
  destruct (Z.eqb_spec (big.prec va) 0) as [|_]; [contradiction|].
  rewrite (bind_Ret get_enablePiCache _ s true s)
    by (unfold get_enablePiCache; by rewrite En).
  unfold loadPi. rewrite !bind_assoc.
  rewrite (bind_Ret _ _ _ _ _ (run_piCache_Load s c Pc)).
  rewrite bind_assoc.
  erewrite (bind_Ret (Prec c)); [| apply run_Prec, rd_at; eassumption].
  destruct (Z.leb_spec (big.prec va) (big.prec vc)); [|lia].
  rewrite bind_assoc.
  erewrite (bind_Ret (Set_ a c));
    [| apply run_Set; [apply rd_at|]; eassumption].
  reflexivity.
Qed.

Lemma Pi_hit_witness :
  Pi 0 1%nat (push pi_cache_small (big.mk_zero 4 big.ToZero false))
  = Ret 1%nat
      (set_cell (push pi_cache_small (big.mk_zero 4 big.ToZero false)) 1%nat
         (big.Set_ (big.mk_zero 4 big.ToZero false)
            (dyadic 8 big.ToNearestEven 201 (-6)))).
Proof.
  apply (Pi_hit 0 1%nat
           (push pi_cache_small (big.mk_zero 4 big.ToZero false))
           (big.mk_zero 4 big.ToZero false) 0%nat
           (dyadic 8 big.ToNearestEven 201 (-6)));
    first [reflexivity | vm_compute; discriminate].
Defined.

(** X11: with the cache disabled, a call of [cachedPi] that returns gives a
    newly allocated value, never stores into the cache and writes no cell
    that existed before. *)
Theorem cachedPi_disabled fuel prec s r s' :
  enablePiCache s = false ->
  cachedPi fuel prec s = Ret r s' ->
  r = length (cells s) /\ piCache s' = piCache s /\
  (forall l, (l < length (cells s))%nat -> cells s' !! l = cells s !! l).
Proof.
  intros En H. unfold cachedPi in H.
  rewrite (bind_Ret get_enablePiCache _ s false s) in H
    by (unfold get_enablePiCache; by rewrite En).
  cbn [negb] in H. cbv iota in H.
  rewrite (bind_Ret _ _ _ _ _ (run_new s)) in H.
  erewrite (bind_Ret (SetPrec _ _)) in H; [| apply run_SetPrec; lk].
  rewrite set_push in H.
  set (n := length (cells s)) in *.
  set (v0 := big.SetPrec big.new prec) in *.
  assert (Hn : cells (push s v0) !! n = Some v0)
    by (apply lookup_push_at; reflexivity).
  assert (Ln : length (cells (push s v0)) = S n) by apply len_push.
  unfold Pi in H.
  erewrite (bind_Ret (Prec n)) in H; [| apply run_Prec, rd_at; eassumption].
  destruct (big.prec v0 =? 0).
  { erewrite run_Set in H; [| apply rd_global | eassumption].
    injection H as <- <-. split; [done|]. split; [done|].
    intros l Hl. rewrite lookup_set_ne by lia. by apply lookup_push_old. }
  rewrite (bind_Ret get_enablePiCache _ (push s v0) false (push s v0)) in H
    by (unfold get_enablePiCache; cbn; by rewrite En).
  rewrite (bind_Ret (ret None) _ _ None _ eq_refl) in H.
  destruct (piCalc fuel n (push s v0)) as [r1 s1| |] eqn:E;
    [| rewrite (bind_Panic _ _ _ _ E) in H; discriminate
     | rewrite (bind_OutOfFuel _ _ _ E) in H; discriminate].
  rewrite (bind_Ret _ _ _ _ _ E) in H.
  destruct (local_piCalc n fuel n (push s v0) r1 s1 ltac:(lia) E)
    as [(L1 & E1 & G1 & F1) ->].
  rewrite (bind_Ret get_enablePiCache _ s1 false s1) in H
    by (unfold get_enablePiCache; rewrite E1; cbn; by rewrite En).
  cbn in H. injection H as <- <-.
  split; [done|]. split; [by rewrite G1|].
  intros l Hl. rewrite F1 by lia. by apply lookup_push_old.
Qed.

Lemma cachedPi_disabled_witness :
  1%nat = length (cells (mkState [big.new] None false)) /\
  piCache (state_after (cachedPi 0 0) (mkState [big.new] None false))
  = piCache (mkState [big.new] None false) /\
  (forall l, (l < length (cells (mkState [big.new] None false)))%nat ->
     cells (state_after (cachedPi 0 0) (mkState [big.new] None false)) !! l
     = cells (mkState [big.new] None false) !! l).
Proof.
  apply (cachedPi_disabled 0 0 (mkState [big.new] None false) 1%nat
           (state_after (cachedPi 0 0) (mkState [big.new] None false)));
    reflexivity.
Defined.

Lemma prec_of_int p md ng m l sb : big.prec (big.of_int p md ng m l sb) = p.
Proof.
  unfold big.of_int, big.setExpAndRound.
  repeat match goal with
         | |- context [if ?b then _ else _] => destruct b
         end; try reflexivity.
  apply prec_round.
Qed.

(** X12: [init] on a state with the cache enabled allocates one value of
    precision 1024 and makes the cache point to it; the cells that existed
    stay.  With the cache disabled it does nothing. *)
Theorem init_fills_cache s :
  exists s',
    init s = Ret tt s' /\
    (enablePiCache s = false -> s' = s) /\
    (enablePiCache s = true ->
     piCache s' = Some (length (cells s)) /\
     cache_prec s' = Some 1024 /\
     forall l, (l < length (cells s))%nat -> cells s' !! l = cells s !! l).
Proof.
  unfold init.
  rewrite (bind_Ret get_enablePiCache _ s (enablePiCache s) s eq_refl).
  destruct (enablePiCache s) eqn:En; cbn [negb]; cbv iota.
  - eexists. split; [reflexivity|]. split; [discriminate|]. intros _.
    split; [reflexivity|]. split.
    + unfold cache_prec. cbn [piCache cells alloc push].
      rewrite list_lookup_middle by reflexivity. cbn.
      unfold big_conv.of_ratio. by rewrite prec_of_int.
    + intros l Hl. cbn [cells alloc push]. by apply lookup_app_l.
  - exists s. split; [reflexivity|]. split; [done | discriminate].
Qed.


(** ** newton and quicksh *)

(** X13: when the guess already carries at least twice the wanted
    precision, [newton] performs no iteration: the function f is never
    called, and the guess is only extended by the guard digits and then
    rounded to the wanted precision. *)
Theorem newton_precise_guess fuel f (g : loc) dPrec s vg :
  cells s !! g = Some vg -> uint (2 * dPrec) <= big.prec vg ->
  newton (S fuel) f g dPrec s =
  Ret g (set_cell s g
           (big.SetPrec (big.SetPrec vg (uint (big.prec vg + 64))) dPrec)).
Proof.
  intros Hg Hp. pose proof (lookup_lt _ _ _ Hg). unfold newton.
  erewrite (bind_Ret (Prec g)); [| apply run_Prec, rd_at; eassumption].
  erewrite (bind_Ret (SetPrec _ _)); [| apply run_SetPrec; eassumption].
  cbn [newton_loop].
  destruct (Z.ltb_spec (big.prec vg) (uint (2 * dPrec))); [lia|].
  rewrite (bind_Ret (ret tt) _ _ tt _ eq_refl).
  erewrite run_SetPrec by (by apply lookup_set_eq).
  by rewrite set_set.
Qed.

Lemma newton_precise_guess_witness :
  newton 1 (fun _ => throw (panic_string "f is called")) 0%nat 20
    (mkState [dyadic 53 big.ToNearestEven 3 0] None true)
  = Ret 0%nat
      (set_cell (mkState [dyadic 53 big.ToNearestEven 3 0] None true) 0%nat
         (big.SetPrec
            (big.SetPrec (dyadic 53 big.ToNearestEven 3 0)
               (uint (big.prec (dyadic 53 big.ToNearestEven 3 0) + 64)))
            20)).
Proof.
  apply (newton_precise_guess 0
           (fun _ => throw (panic_string "f is called")) 0%nat 20
           (mkState [dyadic 53 big.ToNearestEven 3 0] None true)
           (dyadic 53 big.ToNearestEven 3 0));
    first [reflexivity | vm_compute; discriminate].
Defined.

(** X14: [quicksh] multiplies by 2^n exactly: for z = c * 2^(x - bitlen c)
    held with p bits, the destination receives the same digits with the
    exponent x + n, as long as that exponent is in range.  The destination
    takes the precision and the rounding mode of z, whatever it had
    before; z itself may be the destination. *)
Theorem quicksh_scales s (o z : loc) vo p md ng c x n :
  cells s !! o = Some vo -> cells s !! z = Some (canon p md ng c x) ->
  0 < c -> big.bitlen c <= p <= big.MaxPrec ->
  big.MinExp <= x + n <= big.MaxExp ->
  quicksh o z n s = Ret o (set_cell s o (canon p md ng c (x + n))).
Proof.
  intros Ho Hz Hc Hp Hx. pose proof (bitlen_pos c Hc).
  rewrite (run_quicksh o z n s vo _ Ho Hz).
  cbn [canon big.MantExp_mant big.MantExp_exp big.fform big.prec big.mode
       big.neg big.mant big.exp].
  fold (canon p md ng c 0).
  rewrite (SetMantExp_canon p md c Hc Hp (canon p md ng c 0) ng 0 (x + n));
    [| cbn [canon big.prec]; destruct (p =? 0); lia | lia].
  cbn [canon big.prec big.mode].
  assert ((if p =? 0 then p else p) = p) as -> by (by destruct (p =? 0)).
  by replace (0 + (x + n)) with (x + n) by lia.
Qed.

Lemma quicksh_scales_witness :
  quicksh 1%nat 0%nat (-1)
    (mkState [canon 8 big.ToZero true 5 3; big.new] None true)
  = Ret 1%nat
      (set_cell (mkState [canon 8 big.ToZero true 5 3; big.new] None true)
         1%nat (canon 8 big.ToZero true 5 (3 + -1))).
Proof.
  apply (quicksh_scales
           (mkState [canon 8 big.ToZero true 5 3; big.new] None true)
           1%nat 0%nat big.new 8 big.ToZero true 5 3 (-1));
    first [reflexivity | lia
          | split; vm_compute; first [reflexivity | discriminate]].
Defined.

(** ** The in-place Log *)

(** X15: the one-argument [Log], which overwrites its argument: a set sign
    bit gives the [ErrNaN] panic; +0 becomes -Inf; +Inf is returned
    untouched; the value 1 becomes +0 at the precision of z. *)
Theorem Legacy_Log_special_values fuel s (z : loc) vz :
  cells s !! z = Some vz ->
  (big.Signbit vz = true ->
   Legacy.Log fuel z s = Panic (ErrNaN "Log: argument is negative")) /\
  (big.Signbit vz = false -> big.fform vz = big.zero ->
   Legacy.Log fuel z s
   = Ret z (set_cell s z (big.mk_inf (big.prec vz) (big.mode vz) true))) /\
  (big.Signbit vz = false -> big.fform vz = big.inf ->
   Legacy.Log fuel z s = Ret z s) /\
  (valid vz -> is_one vz ->
   exists s', Legacy.Log fuel z s = Ret z s' /\
              cells s' !! z
              = Some (big.mk_zero (big.prec vz) (big.mode vz) false)).
Proof.
  intros Hz. pose proof (lookup_lt _ _ _ Hz) as Lz.
  unfold big.Signbit. repeat split.
  - intros Nz. unfold Legacy.Log.
    erewrite (bind_Ret (Signbit z)); [| apply run_Signbit, rd_at; eassumption].
    by rewrite Nz.
  - intros Nz Fz. unfold Legacy.Log.
    erewrite (bind_Ret (Signbit z)); [| apply run_Signbit, rd_at; eassumption].
    rewrite Nz.
    erewrite (bind_Ret (Sign z)); [| apply run_Sign, rd_at; eassumption].
    unfold big.Sign. rewrite Fz. change (0 =? 0) with true. cbv iota.
    by erewrite run_SetInf by eassumption.
  - intros Nz Fz. unfold Legacy.Log.
    erewrite (bind_Ret (Signbit z)); [| apply run_Signbit, rd_at; eassumption].
    rewrite Nz.
    erewrite (bind_Ret (Sign z)); [| apply run_Sign, rd_at; eassumption].
    unfold big.Sign. rewrite Fz, Nz. change (1 =? 0) with false. cbv iota.
    erewrite (bind_Ret (IsInf z)); [| apply run_IsInf, rd_at; eassumption].
    unfold big.IsInf. by rewrite Fz.
  - intros Vz Iz. pose proof Iz as (Fz & Nz & Xz & Mz).
    pose proof (valid_prec_pos _ Vz Fz) as Pz.
    destruct Vz as [Bz Vz]. rewrite Fz in Vz.
    unfold Legacy.Log.
    erewrite (bind_Ret (Signbit z)); [| apply run_Signbit, rd_at; eassumption].
    rewrite Nz.
    erewrite (bind_Ret (Sign z)); [| apply run_Sign, rd_at; eassumption].
    unfold big.Sign at 1. rewrite Fz, Nz. change (1 =? 0) with false.
    cbv iota.
    erewrite (bind_Ret (IsInf z)); [| apply run_IsInf, rd_at; eassumption].
    unfold big.IsInf at 1. rewrite Fz.
    erewrite (bind_Ret (Prec z)); [| apply run_Prec, rd_at; eassumption].
    rewrite (uint_prec_add (big.prec vz) 64) by lia.
    rewrite (bind_Ret _ _ _ _ _ (run_NewFloat_1 _)).
    erewrite (bind_Ret (SetPrec _ _)); [| apply run_SetPrec; lk].
    rewrite (bind_Ret _ _ _ _ _ (run_NewFloat_2 _)).
    erewrite (bind_Ret (SetPrec _ _)); [| apply run_SetPrec; lk].
    rewrite (bind_Ret _ _ _ _ _ (run_NewFloat_4 _)).
    erewrite (bind_Ret (SetPrec _ _)); [| apply run_SetPrec; lk].
    erewrite (bind_Ret (Cmp _ _)); [| apply run_Cmp; apply rd_at; lk].
    rewrite SetPrec_one53 by lia.
    rewrite Cmp_one; [| done | lia | unfold clamp;
      destruct (big.MaxPrec <? _); [rewrite MaxPrec_val|]; lia].
    change (0 =? 0) with true. cbv iota.
    erewrite run_Set; [| apply rd_global | lk].
    eexists. split; [reflexivity|].
    rewrite lookup_set_eq by (len; lia).
    rewrite Set_nonfinite by discriminate.
    destruct (Z.eqb_spec (big.prec vz) 0); [lia | reflexivity].
Qed.

Lemma Legacy_Log_special_values_witness :
  Legacy.Log 0 0%nat (mkState [big.mk_inf 53 big.ToNearestEven false] None true)
  = Ret 0%nat (mkState [big.mk_inf 53 big.ToNearestEven false] None true).
Proof.
  refine (proj1 (proj2 (proj2
    (Legacy_Log_special_values 0
       (mkState [big.mk_inf 53 big.ToNearestEven false] None true)
       0%nat (big.mk_inf 53 big.ToNearestEven false) _))) _ _);
    reflexivity.
Defined.


(** ** floatutils.Pow *)

(** X16: the cases [floatutils.Pow] settles before its loop.  A negative
    power panics with a string; the power 0 gives a new 1 at the precision
    of z; the power 1, and any positive power of an infinity, gives a new
    copy of z.  The last case includes z = -Inf: the test for an infinite
    base comes first, so the panic for a base of -Inf is never reached. *)
Theorem floatutils_Pow_early_cases fuel s (z : loc) vz n :
  cells s !! z = Some vz ->
  (n < 0 ->
   floatutils.Pow fuel z n s
   = Panic (panic_string "negative powers are not supported")) /\
  (n = 0 -> 1 <= big.prec vz <= big.MaxPrec ->
   floatutils.Pow fuel z n s
   = Ret (length (cells s))
       (push s (big.mkFloat (big.prec vz) big.ToNearestEven big.finite false
                  (2 ^ (big.prec vz - 1)) 1))) /\
  (0 < n -> n = 1 \/ big.fform vz = big.inf ->
   floatutils.Pow fuel z n s = Ret (length (cells s)) (push s vz)).
Proof.
  intros Hz. pose proof (lookup_lt _ _ _ Hz) as Lz.
  unfold floatutils.Pow. repeat split.
  - intros Hn. by destruct (Z.ltb_spec n 0); [|lia].
  - intros -> Hp. cbn [Z.ltb Z.eqb Z.compare]. cbv iota.
    rewrite (bind_Ret _ _ _ _ _ (run_new s)).
    erewrite (bind_Ret (Prec z)); [| apply run_Prec, rd_at; lk].
    erewrite (bind_Ret (SetPrec _ _)); [| apply run_SetPrec; lk].
    erewrite run_SetFloat64; [| lk |].
    2: { apply SetFloat64_one. rewrite prec_SetPrec by lia.
         rewrite clamp_valid by lia. lia. }
    rewrite set_set, set_push.
    rewrite prec_SetPrec, clamp_valid, mode_SetPrec by lia. reflexivity.
  - intros Hn Hc.
    destruct (Z.ltb_spec n 0); [lia|].
    destruct (Z.eqb_spec n 0); [lia|].
    erewrite (bind_Ret (IsInf z)); [| apply run_IsInf, rd_at; eassumption].
    assert ((n =? 1) || big.IsInf vz = true) as ->.
    { destruct Hc as [->|Fz]; [reflexivity|].
      unfold big.IsInf. rewrite Fz. by destruct (n =? 1). }
    rewrite (bind_Ret _ _ _ _ _ (run_new s)).
    erewrite run_Copy; [| apply rd_at; lk | lk].
    by rewrite set_push.
Qed.

Lemma floatutils_Pow_early_cases_witness :
  floatutils.Pow 0 0%nat 3
    (mkState [big.mk_inf 53 big.ToNearestEven true] None true)
  = Ret 1%nat
      (push (mkState [big.mk_inf 53 big.ToNearestEven true] None true)
         (big.mk_inf 53 big.ToNearestEven true)).
Proof.
  refine (proj2 (proj2
    (floatutils_Pow_early_cases 0
       (mkState [big.mk_inf 53 big.ToNearestEven true] None true)
       0%nat (big.mk_inf 53 big.ToNearestEven true) 3 _)) _ _).
  - reflexivity.
  - lia.
  - right. reflexivity.
Defined.

(** ** The one-argument Exp *)

(** X17: the special values of the one-argument [Exp], which returns a new
    value and never writes to z: for z = +0 or -0 the result is 1 at the
    precision of z; for z = +Inf it is +Inf and for z = -Inf it is +0, at
    the precision of z. *)
Theorem Earlier_Exp_special_values fuel s (z : loc) vz :
  cells s !! z = Some vz ->
  (big.fform vz = big.zero ->
   Earlier.Exp (S fuel) z s
   = Ret (length (cells s)) (push s (big.SetPrec one53 (big.prec vz)))) /\
  (big.fform vz = big.inf -> big.neg vz = false ->
   Earlier.Exp (S fuel) z s
   = Ret (length (cells s))
       (push s (big.SetInf (big.SetPrec big.new (big.prec vz)) false))) /\
  (big.fform vz = big.inf -> big.neg vz = true ->
   Earlier.Exp (S fuel) z s
   = Ret (length (cells s)) (push s (big.SetPrec big.new (big.prec vz)))).
Proof.
  intros Hz. pose proof (lookup_lt _ _ _ Hz) as Lz.
  assert (Hinf : big.fform vz = big.inf ->
    Earlier.Exp (S fuel) z s =
    (let* sg := Sign z in
     let* _ := if 0 <? sg then SetInf (length (cells s)) false
               else ret (length (cells s)) in
     ret (length (cells s)))
      (push s (big.SetPrec big.new (big.prec vz)))).
  { intros Fz. cbn [Earlier.Exp].
    erewrite (bind_Ret (Sign z)); [| apply run_Sign, rd_at; eassumption].
    unfold big.Sign at 1. rewrite Fz.
    assert (((if big.neg vz then -1 else 1) =? 0) = false) as ->
      by (by destruct (big.neg vz)).
    erewrite (bind_Ret (IsInf z)); [| apply run_IsInf, rd_at; eassumption].
    unfold big.IsInf at 1. rewrite Fz.
    rewrite (bind_Ret _ _ _ _ _ (run_new s)).
    erewrite (bind_Ret (Prec z)); [| apply run_Prec, rd_at; lk].
    erewrite (bind_Ret (SetPrec _ _)); [| apply run_SetPrec; lk].
    by rewrite set_push. }
  repeat split.
  - intros Fz. cbn [Earlier.Exp].
    erewrite (bind_Ret (Sign z)); [| apply run_Sign, rd_at; eassumption].
    unfold big.Sign. rewrite Fz. change (0 =? 0) with true. cbv iota.
    rewrite (bind_Ret _ _ _ _ _ (run_NewFloat_1 s)).
    erewrite (bind_Ret (Prec z)); [| apply run_Prec, rd_at; lk].
    erewrite run_SetPrec by lk. by rewrite set_push.
  - intros Fz Nz. rewrite (Hinf Fz).
    erewrite (bind_Ret (Sign z)); [| apply run_Sign, rd_at; lk].
    unfold big.Sign. rewrite Fz, Nz. change (0 <? 1) with true. cbv iota.
    erewrite (bind_Ret (SetInf _ _)); [| apply run_SetInf; lk].
    rewrite set_push. reflexivity.
  - intros Fz Nz. rewrite (Hinf Fz).
    erewrite (bind_Ret (Sign z)); [| apply run_Sign, rd_at; lk].
    unfold big.Sign. rewrite Fz, Nz. change (0 <? -1) with false. cbv iota.
    reflexivity.
Qed.

Lemma Earlier_Exp_special_values_witness :
  Earlier.Exp 1 0%nat (mkState [big.mk_zero 24 big.ToZero true] None true)
  = Ret 1%nat
      (push (mkState [big.mk_zero 24 big.ToZero true] None true)
         (big.SetPrec one53 24)).
Proof.
  refine (proj1
    (Earlier_Exp_special_values 0
       (mkState [big.mk_zero 24 big.ToZero true] None true)
       0%nat (big.mk_zero 24 big.ToZero true) _) _);
    reflexivity.
Defined.


(** ** Operands are read-only *)

Lemma local_get_enablePiCache g n a :
  local g n a get_enablePiCache (fun _ => True).
Proof. intros s r s' _ [= <- <-]. split; [apply unchanged_refl | done]. Qed.

Lemma local_piCache_Load g n a : local g n a piCache_Load (fun _ => True).
Proof.
  intros s r s' _. unfold piCache_Load.
  destruct (piCache s); intros [=]; subst.
  split; [apply unchanged_refl | done].
Qed.

Lemma local_piCache_Store n a l :
  local false n a (piCache_Store l) (fun _ => True).
Proof. intros s r s' _ [= <- <-]. by repeat split. Qed.

#[export] Hint Resolve local_get_enablePiCache local_piCache_Load
  local_piCache_Store : local.

(** the condition of an [if], of a [match] on an option or of a pair is
    split before the next step *)
Ltac local_tac :=
  repeat first
    [ local_step
    | solve [eauto with local]
    | apply local_ret; solve [eauto with local | done]
    | match goal with
      | |- local _ _ _ (if ?b then _ else _) _ => destruct b
      | |- local _ _ _ (match ?x with Some _ => _ | None => _ end) _ =>
          destruct x
      end ].

Lemma local_AGM_loop g n p fuel o a2 b2 lim :
  writable n p o -> writable n p a2 -> writable n p b2 ->
  local g n p (AGM_loop fuel o a2 b2 lim) (fun _ => True).
Proof.
  intros Ho Ha Hb.
  induction fuel as [|fuel IH]; cbn [AGM_loop]; [apply local_out_of_fuel|].
  eapply local_bind with (Q := fun _ => True).
  { unfold AGM_step. repeat local_step. eauto with local. }
  intros c _. destruct (c =? -1); [by apply local_ret | exact IH].
Qed.

Lemma local_AGM_init g n p o a b :
  writable n p o ->
  local g n p (AGM_init o a b)
    (fun r => (n <= r.1.1.2)%nat /\ (n <= r.1.2)%nat /\ (n <= r.2)%nat).
Proof.
  intros Ho. unfold AGM_init. local_step.
  eapply local_bind with (Q := fun _ => True).
  { destruct (_ =? 0); [| by apply local_ret].
    do 2 local_step. by apply local_ret. }
  intros prec _. do 8 local_step.
  match goal with
  | |- context [if ?c then _ else _] => destruct c
  end; repeat local_step; by apply local_ret.
Qed.

Lemma local_AGM g n p fuel o a b :
  writable n p o -> local g n p (AGM fuel o a b) (fun r => r = o).
Proof.
  intros Ho. unfold AGM.
  eapply local_bind; [by apply local_AGM_init|].
  intros [[[prec a2] b2] lim] (Ha & Hb & Hl). cbn in Ha, Hb, Hl.
  eapply local_bind; [apply local_AGM_loop; eauto with local|].
  intros _ _. local_step. eauto with local.
Qed.

(** X18: a call of [AGM] that returns gives back its destination; it writes
    to no value that existed before other than the destination, so the
    operands a and b (when they are not the destination) are left as they
    were, and it does not touch the pi cache. *)
Theorem AGM_footprint fuel (o : loc) a b s r s' :
  AGM fuel o a b s = Ret r s' ->
  r = o /\
  piCache s' = piCache s /\ enablePiCache s' = enablePiCache s /\
  (forall l, (l < length (cells s))%nat -> l <> o ->
             cells s' !! l = cells s !! l).
Proof.
  intros H.
  destruct (local_AGM true (length (cells s)) o fuel o a b
              (writable_self _ _) s r s' (Nat.le_refl _) H)
    as [(L1 & E1 & G1 & F1) ->].
  split; [done|]. split; [by apply G1|]. by split.
Qed.

Lemma AGM_footprint_witness :
  1%nat = 1%nat /\
  piCache (state_after (AGM 1 1%nat (at_ 0%nat) (at_ 0%nat)) agm_three_store)
  = piCache agm_three_store /\
  enablePiCache
    (state_after (AGM 1 1%nat (at_ 0%nat) (at_ 0%nat)) agm_three_store)
  = enablePiCache agm_three_store /\
  (forall l, (l < length (cells agm_three_store))%nat -> l <> 1%nat ->
     cells (state_after (AGM 1 1%nat (at_ 0%nat) (at_ 0%nat))
              agm_three_store) !! l
     = cells agm_three_store !! l).
Proof.
  apply (AGM_footprint 1 1%nat (at_ 0%nat) (at_ 0%nat) agm_three_store 1%nat
           (state_after (AGM 1 1%nat (at_ 0%nat) (at_ 0%nat))
              agm_three_store)).
  vm_compute. reflexivity.
Defined.

Lemma local_mono n a {A} (m : M A) Q :
  local true n a m Q -> local false n a m Q.
Proof.
  intros Hm s r s' Hn H. destruct (Hm s r s' Hn H) as [(L & E & G & F) HQ].
  by repeat split.
Qed.

Lemma local_Pi n p fuel a :
  writable n p a -> local false n p (Pi fuel a) (fun r => r = a).
Proof.
  intros Ha. unfold Pi, loadPi. local_step.
  destruct (_ =? 0); [eauto with local|].
  local_step.
  eapply local_bind with (Q := fun h => forall r, h = Some r -> r = a).
  { match goal with |- context [if ?c then _ else _] => destruct c end;
      [| by apply local_ret].
    do 2 local_step.
    destruct (_ <=? _); [| by apply local_ret].
    local_step. apply local_ret. by intros ? [= <-]. }
  intros [r|] Hr; [apply local_ret; by apply Hr | ].
  eapply local_bind; [by apply local_piCalc_at|]. intros ? ->.
  local_step.
  eapply local_bind with (Q := fun _ => True); [| intros; by apply local_ret].
  match goal with |- context [if ?c then _ else _] => destruct c end;
    [| by apply local_ret].
  do 2 local_step.
  destruct (_ <? _); [| by apply local_ret].
  do 2 local_step. apply local_piCache_Store.
Qed.

(** X19: a call of [Pi] that returns gives back its argument and writes to
    no value that existed before other than that argument.  The cache
    pointer is the one it was, or it is a value allocated during the call,
    different from the argument, that holds a copy of what the argument
    holds: the value the cache held before, which readers may still hold,
    is never modified, and the caller's own pointer is never published. *)
Theorem Pi_footprint fuel (a : loc) s r s' :
  Pi fuel a s = Ret r s' ->
  r = a /\ enablePiCache s' = enablePiCache s /\
  (forall l, (l < length (cells s))%nat -> l <> a ->
             cells s' !! l = cells s !! l) /\
  (piCache s' = piCache s \/
   exists n, piCache s' = Some n /\ (length (cells s) <= n)%nat /\ n <> a /\
             cells s' !! n = cells s' !! a).
Proof.
  intros H.
  destruct (local_Pi (length (cells s)) a fuel a (writable_self _ _)
              s r s' (Nat.le_refl _) H) as [(L1 & E1 & G1 & F1) ->].
  repeat split; [done..|]. by eapply Pi_cache_fresh.
Qed.

Lemma Pi_footprint_witness :
  let s := push pi_cache_small (big.mk_zero 16 big.ToNearestEven false) in
  let s' := state_after (Pi 10 1%nat) s in
  1%nat = 1%nat /\ enablePiCache s' = enablePiCache s /\
  (forall l, (l < length (cells s))%nat -> l <> 1%nat ->
             cells s' !! l = cells s !! l) /\
  (piCache s' = piCache s \/
   exists n, piCache s' = Some n /\ (length (cells s) <= n)%nat /\
             n <> 1%nat /\ cells s' !! n = cells s' !! 1%nat).
Proof.
  apply (Pi_footprint 10 1%nat
           (push pi_cache_small (big.mk_zero 16 big.ToNearestEven false))
           1%nat
           (state_after (Pi 10 1%nat)
              (push pi_cache_small
                 (big.mk_zero 16 big.ToNearestEven false)))).
  vm_compute. reflexivity.
Defined.

Lemma local_cachedPi n p fuel prec :
  local false n p (cachedPi fuel prec) (fun _ => True).
Proof.
  unfold cachedPi. local_step.
  destruct (negb _).
  { do 2 local_step. eapply local_weaken; [| apply local_Pi; eauto with local].
    done. }
  do 2 local_step. destruct (_ <=? _); [by apply local_ret|].
  do 2 local_step. destruct (_ <=? _); [by apply local_ret|].
  do 2 local_step.
  eapply local_bind; [apply local_piCalc_at; eauto with local|].
  intros ? ->. local_step. by apply local_ret.
Qed.

Lemma local_Log_loop g n p fuel o lim k :
  writable n p o -> local g n p (Log_loop fuel o lim k) (fun _ => True).
Proof.
  intros Ho. revert k.
  induction fuel as [|fuel IH]; intros k; cbn [Log_loop];
    [apply local_out_of_fuel|].
  local_step. destruct (_ <? 0); [| by apply local_ret].
  local_step. apply IH.
Qed.

Lemma local_Log_tail n p fuel (o one two four : loc) (P : Z) (neg : bool) :
  writable n p o ->
  local false n p
    (let* lim := new in
     let* _ := SetMantExp lim two (P / 2) in
     let* k := Log_loop fuel o lim 0 in
     let* pi := cachedPi fuel P in
     let* n0 := new in
     let* q := Quo o four o in
     let* agm := AGM fuel n0 one q in
     let* t := Mul o two agm in
     let* _ := Quo o pi t in
     let* _ := if neg then Neg o o else ret o in
     let* l := SetMantExp lim one (- k) in
     let* _ := Mul o o l in
     SetPrec o (uint (P - 64)))
    (fun r => r = o).
Proof.
  intros Ho. do 2 local_step.
  eapply local_bind; [by apply local_Log_loop|]. intros k _.
  eapply local_bind; [apply local_cachedPi|]. intros pi0 _.
  do 2 local_step.
  eapply local_bind; [apply local_AGM; eauto with local|]. intros ? ->.
  do 2 local_step.
  eapply local_bind with (Q := fun _ => True).
  { destruct neg; [| by apply local_ret].
    eapply local_weaken; [| by apply local_upd1]. done. }
  intros _ _. do 2 local_step. eauto with local.
Qed.

Lemma local_Log n p fuel o z :
  writable n p o -> local false n p (Log fuel o z) (fun r => r = o).
Proof.
  intros Ho. unfold Log, pi. local_step.
  eapply local_bind with (Q := fun _ => True).
  { destruct (_ =? 0); [| by apply local_ret]. local_step.
    eapply local_weaken; [| by apply local_upd]. done. }
  intros _ _. local_step.
  match goal with |- context [if ?c then _ else _] => destruct c end;
    [apply local_throw|].
  local_step. destruct (_ =? 0); [eauto with local|].
  local_step.
  match goal with |- context [if ?c then _ else _] => destruct c end;
    [eauto with local|].
  do 8 local_step.
  destruct (_ =? 1);
    [do 2 local_step; by apply (local_Log_tail _ _ _ _ _ _ _ _ false)|].
  destruct (_ =? -1);
    [do 2 local_step; by apply (local_Log_tail _ _ _ _ _ _ _ _ true)|].
  destruct (_ =? 0); [eauto with local | apply local_throw].
Qed.

(** X20: a call of [Log] that returns gives back its destination and
    writes to no value that existed before other than the destination: the
    argument z, when it is not the destination, is left as it was, and so
    is the value the pi cache pointed to. *)
Theorem Log_footprint fuel (o z : loc) s r s' :
  Log fuel o z s = Ret r s' ->
  r = o /\ enablePiCache s' = enablePiCache s /\
  (forall l, (l < length (cells s))%nat -> l <> o ->
             cells s' !! l = cells s !! l).
Proof.
  intros H.
  destruct (local_Log (length (cells s)) o fuel o z (writable_self _ _)
              s r s' (Nat.le_refl _) H) as [(L1 & E1 & G1 & F1) ->].
  by repeat split.
Qed.

Lemma Log_footprint_witness :
  2%nat = 2%nat /\
  enablePiCache
    (state_after (Log 30 2%nat 1%nat)
       (push (push pi_cache_small (dyadic 8 big.ToNearestEven 3 0))
          (big.mk_zero 8 big.ToNearestEven false)))
  = enablePiCache
      (push (push pi_cache_small (dyadic 8 big.ToNearestEven 3 0))
         (big.mk_zero 8 big.ToNearestEven false)) /\
  (forall l,
     (l < length
            (cells
               (push (push pi_cache_small (dyadic 8 big.ToNearestEven 3 0))
                  (big.mk_zero 8 big.ToNearestEven false))))%nat ->
     l <> 2%nat ->
     cells
       (state_after (Log 30 2%nat 1%nat)
          (push (push pi_cache_small (dyadic 8 big.ToNearestEven 3 0))
             (big.mk_zero 8 big.ToNearestEven false))) !! l
     = cells
         (push (push pi_cache_small (dyadic 8 big.ToNearestEven 3 0))
            (big.mk_zero 8 big.ToNearestEven false)) !! l).
Proof.
  apply (Log_footprint 30 2%nat 1%nat
           (push (push pi_cache_small (dyadic 8 big.ToNearestEven 3 0))
              (big.mk_zero 8 big.ToNearestEven false))
           2%nat
           (state_after (Log 30 2%nat 1%nat)
              (push (push pi_cache_small (dyadic 8 big.ToNearestEven 3 0))
                 (big.mk_zero 8 big.ToNearestEven false)))).
  vm_compute. reflexivity.
Defined.


(** ** round0even and round0away *)

(** X21: [round0even] and [round0away] differ only on the two ties: for a
    z that compares unequal to +1/2 and to -1/2 they leave the same store;
    at +1/2 the first stores 0 and the second 1, at -1/2 the first stores 0
    and the second -1 (each rounded into the destination by [Set]). *)
Theorem round0_differ_only_on_ties s (o z : loc) vo vz :
  cells s !! o = Some vo -> cells s !! z = Some vz ->
  (big.Cmp vz ghalfp <> 0 -> big.Cmp vz ghalfm <> 0 ->
   round0even o z s = round0away o z s) /\
  (big.Signbit vz = false -> big.Cmp vz ghalfp = 0 ->
   round0even o z s = Ret o (set_cell s o (big.Set_ vo gzero)) /\
   round0away o z s = Ret o (set_cell s o (big.Set_ vo gonep))) /\
  (big.Signbit vz = true -> big.Cmp vz ghalfm = 0 ->
   round0even o z s = Ret o (set_cell s o (big.Set_ vo gzero)) /\
   round0away o z s = Ret o (set_cell s o (big.Set_ vo gonem))).
Proof.
  intros Ho Hz. unfold round0even, round0away, big.Signbit.
  erewrite !(bind_Ret (Signbit z));
    [| apply run_Signbit, rd_at; eassumption..].
  repeat split.
  - intros Hp Hm. destruct (big.neg vz).
    + erewrite !(bind_Ret (Cmp z _));
        [| apply run_Cmp; [apply rd_at; eassumption | apply rd_global]..].
      destruct (Z.ltb_spec (big.Cmp vz ghalfm) 0),
               (Z.leb_spec (big.Cmp vz ghalfm) 0); first [reflexivity | lia].
    + erewrite !(bind_Ret (Cmp z _));
        [| apply run_Cmp; [apply rd_at; eassumption | apply rd_global]..].
      destruct (Z.ltb_spec 0 (big.Cmp vz ghalfp)),
               (Z.leb_spec 0 (big.Cmp vz ghalfp)); first [reflexivity | lia].
  - rewrite H.
    erewrite (bind_Ret (Cmp z _));
      [| apply run_Cmp; [apply rd_at; eassumption | apply rd_global]].
    rewrite H0. cbn [Z.ltb Z.compare]. cbv iota.
    by erewrite run_Set_global by eassumption.
  - rewrite H.
    erewrite (bind_Ret (Cmp z _));
      [| apply run_Cmp; [apply rd_at; eassumption | apply rd_global]].
    rewrite H0. cbn [Z.leb Z.compare]. cbv iota.
    by erewrite run_Set_global by eassumption.
  - rewrite H.
    erewrite (bind_Ret (Cmp z _));
      [| apply run_Cmp; [apply rd_at; eassumption | apply rd_global]].
    rewrite H0. cbn [Z.ltb Z.compare]. cbv iota.
    by erewrite run_Set_global by eassumption.
  - rewrite H.
    erewrite (bind_Ret (Cmp z _));
      [| apply run_Cmp; [apply rd_at; eassumption | apply rd_global]].
    rewrite H0. cbn [Z.leb Z.compare]. cbv iota.
    by erewrite run_Set_global by eassumption.
Qed.

Lemma round0_differ_only_on_ties_witness :
  round0even 1%nat 0%nat
    (mkState [dyadic 53 big.ToNearestEven 1 (-1); big.new] None true)
  = Ret 1%nat
      (set_cell
         (mkState [dyadic 53 big.ToNearestEven 1 (-1); big.new] None true)
         1%nat (big.Set_ big.new gzero)) /\
  round0away 1%nat 0%nat
    (mkState [dyadic 53 big.ToNearestEven 1 (-1); big.new] None true)
  = Ret 1%nat
      (set_cell
         (mkState [dyadic 53 big.ToNearestEven 1 (-1); big.new] None true)
         1%nat (big.Set_ big.new gonep)).
Proof.
  refine (proj1 (proj2
    (round0_differ_only_on_ties
       (mkState [dyadic 53 big.ToNearestEven 1 (-1); big.new] None true)
       1%nat 0%nat big.new (dyadic 53 big.ToNearestEven 1 (-1)) _ _)) _ _);
    reflexivity.
Defined.


(** ** Exp and Pow write to their destination and to new values only *)

Lemma local_Legacy_Log_loop g n p fuel z lim k :
  writable n p z -> local g n p (Legacy.Log_loop fuel z lim k) (fun _ => True).
Proof.
  intros Hz. revert k.
  induction fuel as [|fuel IH]; intros k; cbn [Legacy.Log_loop];
    [apply local_out_of_fuel|].
  local_step. destruct (_ <? 0); [| by apply local_ret].
  local_step. apply IH.
Qed.

Lemma local_Legacy_agm n p fuel a b :
  local false n p (Legacy.agm fuel a b) (fun r => writable n p r).
Proof.
  unfold Legacy.agm. local_step.
  eapply local_weaken; [| apply local_AGM; eauto with local].
  intros r ->. by right.
Qed.

Lemma local_Legacy_Log n p fuel z :
  writable n p z -> local false n p (Legacy.Log fuel z) (fun r => r = z).
Proof.
  intros Hz. unfold Legacy.Log, pi. local_step.
  match goal with |- context [if ?c then _ else _] => destruct c end;
    [apply local_throw|].
  local_step. destruct (_ =? 0); [eauto with local|].
  local_step.
  match goal with |- context [if ?c then _ else _] => destruct c end;
    [by apply local_ret|].
  do 8 local_step. destruct (_ =? 0); [eauto with local|].
  do 2 local_step.
  eapply local_bind with (Q := fun _ => True).
  { destruct (_ <? 0); [| by apply local_ret].
    local_step. by apply local_ret. }
  intros neg _. do 2 local_step.
  eapply local_bind; [by apply local_Legacy_Log_loop|]. intros k _.
  eapply local_bind; [apply local_cachedPi|]. intros pi0 _.
  local_step.
  eapply local_bind; [apply local_Legacy_agm|]. intros agm Hagm.
  do 2 local_step.
  eapply local_bind with (Q := fun _ => True).
  { destruct neg; [| by apply local_ret].
    eapply local_weaken; [| by apply local_upd1]. done. }
  intros _ _. do 2 local_step. eauto with local.
Qed.

Lemma local_newton_loop n p fuel f guess prec dPrec :
  writable n p guess ->
  (forall t, local false n p (f t) (fun _ => True)) ->
  local false n p (newton_loop fuel f guess prec dPrec) (fun _ => True).
Proof.
  intros Hg Hf. revert prec.
  induction fuel as [|fuel IH]; intros prec; cbn [newton_loop];
    [apply local_out_of_fuel|].
  destruct (_ <? _); [| by apply local_ret].
  eapply local_bind; [apply Hf|]. intros d _.
  do 2 local_step. apply IH.
Qed.

Lemma local_newton n p fuel f guess dPrec :
  writable n p guess ->
  (forall t, local false n p (f t) (fun _ => True)) ->
  local false n p (newton fuel f guess dPrec) (fun r => r = guess).
Proof.
  intros Hg Hf. unfold newton. do 2 local_step.
  eapply local_bind; [by apply local_newton_loop|]. intros _ _.
  eauto with local.
Qed.

#[export] Hint Extern 1 (local _ _ _ (Float64 _) _) =>
  apply local_get : local.

Lemma local_writable g n p (m : M loc) l :
  writable n p l -> local g n p m (fun r => r = l) ->
  local g n p m (fun r => writable n p r).
Proof. intros Hl Hm. eapply local_weaken; [| exact Hm]. by intros r ->. Qed.

(** a computation that returns a pointer it may write to *)
Ltac to_dest :=
  eapply local_writable; cycle 1;
  [solve [eauto with local] | solve [eauto with local]].

Lemma local_Exp n p fuel : forall o z,
  writable n p o ->
  local false n p (Exp fuel o z) (fun r => writable n p r).
Proof.
  induction fuel as [|fuel IH]; intros o z Ho; cbn [Exp];
    [apply local_out_of_fuel|].
  local_step.
  eapply local_bind with (Q := fun _ => True).
  { destruct (_ =? 0); [| by apply local_ret]. local_step.
    eapply local_weaken; [| by apply local_upd]. done. }
  intros _ _. local_step.
  destruct (_ =? 0); [to_dest|].
  local_step.
  match goal with |- context [if ?c then _ else _] => destruct c end.
  { local_step. destruct (_ <? 0); to_dest. }
  eapply local_bind with (Q := fun r => writable n p r).
  { destruct (Nat.eqb o z); [| by apply local_ret].
    do 2 local_step. to_dest. }
  intros q Hq. local_step.
  match goal with |- context [if ?c then _ else _] => destruct c end.
  - do 5 local_step.
    eapply local_bind; [apply IH; eauto with local|]. intros halfExp _.
    to_dest.
  - do 2 local_step.
    eapply local_bind.
    { apply local_newton; [eauto with local|]. intros t.
      do 2 local_step.
      eapply local_bind; [apply local_Legacy_Log; eauto with local|].
      intros ? ->. local_step.
      eapply local_weaken; [| apply local_upd2; exact Hq]. done. }
    intros ? ->. to_dest.
Qed.

(** X22: a call of [Exp] that returns gives back the destination or a newly
    allocated value, and writes to no value that existed before other than
    the destination: the argument z, when it is not the destination, is
    left as it was. *)
Theorem Exp_footprint fuel (o z : loc) s r s' :
  Exp fuel o z s = Ret r s' ->
  (r = o \/ (length (cells s) <= r)%nat) /\
  enablePiCache s' = enablePiCache s /\
  (forall l, (l < length (cells s))%nat -> l <> o ->
             cells s' !! l = cells s !! l).
Proof.
  intros H.
  destruct (local_Exp (length (cells s)) o fuel o z (writable_self _ _)
              s r s' (Nat.le_refl _) H) as [(L1 & E1 & G1 & F1) Hr].
  by repeat split.
Qed.

Lemma Exp_footprint_witness :
  (1%nat = 1%nat \/
   (length
      (cells (mkState [big.mk_zero 53 big.ToNearestEven false;
                       big.mk_zero 53 big.ToNearestEven false] None true))
    <= 1)%nat) /\
  enablePiCache
    (state_after (Exp 1 1%nat 0%nat)
       (mkState [big.mk_zero 53 big.ToNearestEven false;
                 big.mk_zero 53 big.ToNearestEven false] None true))
  = enablePiCache
      (mkState [big.mk_zero 53 big.ToNearestEven false;
                big.mk_zero 53 big.ToNearestEven false] None true) /\
  (forall l,
     (l < length
            (cells (mkState [big.mk_zero 53 big.ToNearestEven false;
                             big.mk_zero 53 big.ToNearestEven false]
                      None true)))%nat ->
     l <> 1%nat ->
     cells
       (state_after (Exp 1 1%nat 0%nat)
          (mkState [big.mk_zero 53 big.ToNearestEven false;
                    big.mk_zero 53 big.ToNearestEven false] None true)) !! l
     = cells (mkState [big.mk_zero 53 big.ToNearestEven false;
                       big.mk_zero 53 big.ToNearestEven false] None true)
         !! l).
Proof.
  apply (Exp_footprint 1 1%nat 0%nat
           (mkState [big.mk_zero 53 big.ToNearestEven false;
                     big.mk_zero 53 big.ToNearestEven false] None true)
           1%nat
           (state_after (Exp 1 1%nat 0%nat)
              (mkState [big.mk_zero 53 big.ToNearestEven false;
                        big.mk_zero 53 big.ToNearestEven false]
                 None true))).
  vm_compute. reflexivity.
Defined.

Lemma local_Pow n p fuel o z w :
  writable n p o ->
  local false n p (Pow fuel o z w) (fun r => writable n p r).
Proof.
  intros Ho. unfold Pow. local_step.
  eapply local_bind with (Q := fun _ => True).
  { destruct (_ =? 0); [| by apply local_ret]. do 2 local_step.
    destruct (_ <=? _);
      (eapply local_weaken; [| by apply local_upd]); done. }
  intros _ _. local_step.
  match goal with |- context [if ?c then _ else _] => destruct c end;
    [apply local_throw|].
  local_step. destruct (_ =? 0).
  { do 2 local_step.
    eapply local_weaken; [| apply local_upd; eauto with local].
    intros r ->. by right. }
  do 2 local_step.
  eapply local_bind with (Q := fun _ => True).
  { destruct (_ =? 0); [by apply local_ret | eauto with local]. }
  intros stop _. destruct stop.
  { local_step.
    eapply local_weaken; [| apply local_upd1; eauto with local].
    intros r ->. by right. }
  do 5 local_step.
  eapply local_bind; [apply local_Log; eauto with local|]. intros ? ->.
  do 5 local_step.
  eapply local_bind; [by apply local_Exp|]. intros o' Ho'.
  local_step.
  eapply local_weaken; [| apply local_upd; exact Ho']. by intros r ->.
Qed.

(** X23: a call of [Pow] that returns gives back the destination or a newly
    allocated value, and writes to no value that existed before other than
    the destination: the base z and the exponent w, when they are not the
    destination, are left as they were. *)
Theorem Pow_footprint fuel (o z w : loc) s r s' :
  Pow fuel o z w s = Ret r s' ->
  (r = o \/ (length (cells s) <= r)%nat) /\
  enablePiCache s' = enablePiCache s /\
  (forall l, (l < length (cells s))%nat -> l <> o ->
             cells s' !! l = cells s !! l).
Proof.
  intros H.
  destruct (local_Pow (length (cells s)) o fuel o z w (writable_self _ _)
              s r s' (Nat.le_refl _) H) as [(L1 & E1 & G1 & F1) Hr].
  by repeat split.
Qed.

Lemma Pow_footprint_witness :
  (3%nat = 2%nat \/ (length (cells pow_two_zero_store) <= 3)%nat) /\
  enablePiCache
    (state_after (Pow 0 2%nat (at_ 0%nat) (at_ 1%nat)) pow_two_zero_store)
  = enablePiCache pow_two_zero_store /\
  (forall l, (l < length (cells pow_two_zero_store))%nat -> l <> 2%nat ->
     cells (state_after (Pow 0 2%nat (at_ 0%nat) (at_ 1%nat))
              pow_two_zero_store) !! l
     = cells pow_two_zero_store !! l).
Proof.
  apply (Pow_footprint 0 2%nat 0%nat 1%nat pow_two_zero_store 3%nat
           (state_after (Pow 0 2%nat (at_ 0%nat) (at_ 1%nat))
              pow_two_zero_store)).
  vm_compute. reflexivity.
Defined.
